(** * HanziMaster-Flashcard: deck ingestion and review session

    A shallow embedding of the decision logic of the flashcard application:

    - [App.tsx]: the review session ([handleNext], [handlePrev], [handleFlip],
      [toggleScriptMode], [handleDeckGenerated], [resetDeck], [saveDeck]), its
      keyboard listener, the timers of the navigation and the card and counter
      on display;
    - [services/geminiService.ts]: [generateDeck], [generateDeckFromList],
      [parseResponse];
    - [components/DeckGenerator.tsx]: [isValidDeck], [processContent] (the
      unified importer), [processJsonContent] (the JSON only importer of the
      earlier revision of the component), the handlers that call them, the
      file id of a Drive link and the client id kept in [localStorage];
    - [components/Flashcard.tsx] and [components/HanziWriterPlayer.tsx]: what
      the body of the card reads of its data, the page React makes of it, and
      the writers of the player.

    The code works on untyped JavaScript values obtained from [JSON.parse], so
    the embedding does too: a value is a tree of objects, arrays, strings,
    numbers, booleans, [null] and [undefined]; strings are sequences of UTF-16
    code units; property reads, truthiness, object spread and the optional call
    [?.map] follow the language.  Effects (component state, the request sent to
    the generation service, [Date.now], thrown exceptions) are threaded through
    a state and exception monad. *)

From Stdlib Require Import List ZArith NArith Lia Bool String Ascii Arith DecimalN.
Import ListNotations.

Set Implicit Arguments.
Set Warnings "-register-all,-abstract-large-number".


(* ================================================================= *)
(** ** JavaScript strings *)

(** A string is a sequence of 16 bit code units. *)
Definition jsstring := list N.

Definition unit_of_ascii (a : ascii) : N := N_of_ascii a.

(** Source literals of the program (all of them ASCII unless said so). *)
Definition lit (s : string) : jsstring := map unit_of_ascii (list_ascii_of_string s).
Arguments lit : simpl never.

Definition jsstring_eq_dec : forall a b : jsstring, {a = b} + {a <> b} :=
  list_eq_dec N.eq_dec.

Definition jsstring_eqb (a b : jsstring) : bool :=
  if jsstring_eq_dec a b then true else false.

(** The code units [String.prototype.trim] strips: WhiteSpace and
    LineTerminator of the language specification. *)
Definition is_js_space (c : N) : bool :=
  (((9 <=? c) && (c <=? 13)) || (c =? 32) || (c =? 160) || (c =? 5760)
   || ((8192 <=? c) && (c <=? 8202)) || (c =? 8232) || (c =? 8233)
   || (c =? 8239) || (c =? 8287) || (c =? 12288) || (c =? 65279))%N.

Fixpoint trim_start (s : jsstring) : jsstring :=
  match s with
  | c :: t => if is_js_space c then trim_start t else s
  | [] => []
  end.

Definition trim (s : jsstring) : jsstring :=
  rev (trim_start (rev (trim_start s))).

(** Decimal digits of a natural number, as a template literal prints an
    integer. *)
Fixpoint uint_units (d : Decimal.uint) : jsstring :=
  match d with
  | Decimal.Nil => []
  | Decimal.D0 d => 48%N :: uint_units d
  | Decimal.D1 d => 49%N :: uint_units d
  | Decimal.D2 d => 50%N :: uint_units d
  | Decimal.D3 d => 51%N :: uint_units d
  | Decimal.D4 d => 52%N :: uint_units d
  | Decimal.D5 d => 53%N :: uint_units d
  | Decimal.D6 d => 54%N :: uint_units d
  | Decimal.D7 d => 55%N :: uint_units d
  | Decimal.D8 d => 56%N :: uint_units d
  | Decimal.D9 d => 57%N :: uint_units d
  end.

Definition decimal (n : N) : jsstring := uint_units (N.to_uint n).

(* ================================================================= *)
(** ** The host: numbers, the clock and the network

    Numbers are IEEE doubles.  The program never computes with the numbers it
    reads from JSON: it copies them, tests them for truthiness and prints them
    back.  Those three operations are left to the host, and so are the
    services the program calls: the generation endpoint, [Date.now], [fetch]. *)

(** A JSON number token: sign, integer digits, fraction digits, exponent. *)
Record numlit := mkNumlit {
  nl_neg : bool;
  nl_int : jsstring;
  nl_frac : option jsstring;
  nl_exp : option (bool * jsstring)
}.

Class Host := {
  number : Type;
  (** the double a JSON number token denotes *)
  number_of_literal : numlit -> number;
  (** ToBoolean on a number *)
  number_truthy : number -> bool;
  (** what [JSON.stringify] prints for a number *)
  number_to_json : number -> jsstring;
  (** [Date.now()], by the number of earlier reads *)
  Date_now : nat -> N;
  (** [ai.models.generateContent] by prompt: [None] when the call rejects,
      else the [text] of the response ([None] when it is [undefined]) *)
  generateContent : jsstring -> option (option jsstring);
  (** [fetch(url)] followed by [response.text()]: [None] when the address is
      not a URL, the request fails or the status is not ok *)
  fetch_text : jsstring -> option jsstring;
  (** the download of a Drive file by id and access token *)
  drive_text : jsstring -> jsstring -> option jsstring
}.

(* ================================================================= *)
(** ** The typed deck ([types.ts]) *)

Record Example := mkExample {
  ex_simplified : jsstring;
  ex_traditional : jsstring;
  ex_pinyin : option jsstring;
  ex_english : jsstring
}.

Record FlashcardData := mkCard {
  card_id : jsstring;
  card_simplified : jsstring;
  card_traditional : jsstring;
  card_pinyin : jsstring;
  card_english : jsstring;
  card_examples : list Example
}.

Record Deck := mkDeck {
  deck_title : jsstring;
  deck_cards : list FlashcardData
}.

(** The result of a reader: a value and the rest of the text, a syntax error,
    or fuel exhausted. *)
Inductive presult (A : Type) :=
| POk (a : A) (rest : jsstring)
| PFail
| PFuel.
Arguments PFail {A}.
Arguments PFuel {A}.

Section Program.

Context {host : Host}.

(* ================================================================= *)
(** ** JavaScript values *)

Inductive value :=
| VUndefined
| VNull
| VBool (b : bool)
| VNum (n : number)
| VStr (s : jsstring)
| VArr (items : list value)
| VObj (props : list (jsstring * value)).

(** Own properties of an object, in insertion order.  (An engine lists the
    keys that are array indices first; no property name of a deck, a card or
    an example is one, and the order of keys matters to [serialize] only.) *)
Definition props_t := list (jsstring * value).

Fixpoint lookup (k : jsstring) (ps : props_t) : option value :=
  match ps with
  | [] => None
  | (k', v) :: t => if jsstring_eqb k k' then Some v else lookup k t
  end.

(** Defining a property: an existing key keeps its place and takes the new
    value, a new key goes last. *)
Fixpoint define (k : jsstring) (v : value) (ps : props_t) : props_t :=
  match ps with
  | [] => [(k, v)]
  | (k', v') :: t =>
      if jsstring_eqb k k' then (k', v) :: t else (k', v') :: define k v t
  end.

(** ToBoolean. *)
Definition truthy (v : value) : bool :=
  match v with
  | VUndefined | VNull => false
  | VBool b => b
  | VNum n => number_truthy n
  | VStr s => match s with [] => false | _ => true end
  | VArr _ | VObj _ => true
  end.

(** [a || b] *)
Definition js_or (a b : value) : value := if truthy a then a else b.

(** Exceptions the program can meet. *)
Inductive exn :=
| TypeError
| SyntaxError
| Error (msg : string)
| Rejected.

(** [v.k] for the property names this program reads ([title], [cards],
    [examples], [id], [simplified], [traditional], [chinese], [pinyin],
    [english]): none of them is defined on a built-in prototype, so the read
    yields the own property of an object and [undefined] on every other value,
    and throws on [undefined] and [null]. *)
Definition prop (v : value) (k : string) : exn + value :=
  match v with
  | VUndefined | VNull => inl TypeError
  | VObj ps => inr (match lookup (lit k) ps with Some x => x | None => VUndefined end)
  | _ => inr VUndefined
  end.

(** The own enumerable properties an object spread [{...v}] copies. *)
Fixpoint indexed (i : nat) (items : list value) : props_t :=
  match items with
  | [] => []
  | x :: t => (decimal (N.of_nat i), x) :: indexed (S i) t
  end.

Definition spread (v : value) : props_t :=
  match v with
  | VObj ps => ps
  | VArr items => indexed 0 items
  | VStr s => indexed 0 (map (fun c => VStr [c]) s)
  | _ => []
  end.

(* ================================================================= *)
(** ** [JSON.parse]

    A recursive descent reader of the JSON grammar over code units.  The
    recursion is on a fuel that [JSON_parse] sets from the length of the text
    ([parse_value_fuel] shows it never runs out). *)

Definition is_json_space (c : N) : bool :=
  ((c =? 32) || (c =? 9) || (c =? 10) || (c =? 13))%N.

Fixpoint skip_ws (s : jsstring) : jsstring :=
  match s with
  | c :: t => if is_json_space c then skip_ws t else s
  | [] => []
  end.

Definition is_digit (c : N) : bool := ((48 <=? c) && (c <=? 57))%N.

Definition hex_value (c : N) : option N :=
  (if (48 <=? c) && (c <=? 57) then Some (c - 48)
   else if (97 <=? c) && (c <=? 102) then Some (c - 87)
   else if (65 <=? c) && (c <=? 70) then Some (c - 55)
   else None)%N.

Definition hex4 (a b c d : N) : option N :=
  match hex_value a, hex_value b, hex_value c, hex_value d with
  | Some x, Some y, Some z, Some w => Some (x * 4096 + y * 256 + z * 16 + w)%N
  | _, _, _, _ => None
  end.

(** The code unit a two character escape stands for. *)
Definition simple_escape (e : N) : option N :=
  (if e =? 34 then Some 34        (* quote *)
   else if e =? 92 then Some 92   (* backslash *)
   else if e =? 47 then Some 47   (* solidus *)
   else if e =? 98 then Some 8    (* b: backspace *)
   else if e =? 102 then Some 12  (* f: form feed *)
   else if e =? 110 then Some 10  (* n: line feed *)
   else if e =? 114 then Some 13  (* r: carriage return *)
   else if e =? 116 then Some 9   (* t: tab *)
   else None)%N.

Definition push_unit (c : N) (r : option (jsstring * jsstring)) :=
  match r with
  | Some (s, rest) => Some (c :: s, rest)
  | None => None
  end.

(** The characters of a string token, after its opening quote. *)
Fixpoint parse_chars (s : jsstring) : option (jsstring * jsstring) :=
  match s with
  | [] => None
  | c :: t =>
      if (c =? 34)%N then Some ([], t)
      else if (c =? 92)%N then
        match t with
        | [] => None
        | e :: t1 =>
            if (e =? 117)%N then
              match t1 with
              | h1 :: h2 :: h3 :: h4 :: t2 =>
                  match hex4 h1 h2 h3 h4 with
                  | Some u => push_unit u (parse_chars t2)
                  | None => None
                  end
              | _ => None
              end
            else
              match simple_escape e with
              | Some u => push_unit u (parse_chars t1)
              | None => None
              end
        end
      else if (c <? 32)%N then None
      else push_unit c (parse_chars t)
  end.

Fixpoint span_digits (s : jsstring) : jsstring * jsstring :=
  match s with
  | c :: t =>
      if is_digit c then let (ds, r) := span_digits t in (c :: ds, r)
      else ([], s)
  | [] => ([], [])
  end.

Definition parse_int_part (s : jsstring) : option (jsstring * jsstring) :=
  match s with
  | c :: t =>
      if (c =? 48)%N then Some ([c], t)
      else if is_digit c then Some (span_digits s)
      else None
  | [] => None
  end.

Definition parse_frac_part (s : jsstring) : option (option jsstring * jsstring) :=
  match s with
  | c :: t =>
      if (c =? 46)%N then
        match span_digits t with
        | ([], _) => None
        | (ds, r) => Some (Some ds, r)
        end
      else Some (None, s)
  | [] => Some (None, s)
  end.

Definition parse_exp_digits (neg : bool) (s : jsstring)
  : option (option (bool * jsstring) * jsstring) :=
  match span_digits s with
  | ([], _) => None
  | (ds, r) => Some (Some (neg, ds), r)
  end.

Definition parse_exp_part (s : jsstring)
  : option (option (bool * jsstring) * jsstring) :=
  match s with
  | c :: t =>
      if ((c =? 101) || (c =? 69))%N then
        match t with
        | d :: t' =>
            if (d =? 43)%N then parse_exp_digits false t'
            else if (d =? 45)%N then parse_exp_digits true t'
            else parse_exp_digits false t
        | [] => None
        end
      else Some (None, s)
  | [] => Some (None, s)
  end.

Definition parse_number (s : jsstring) : option (numlit * jsstring) :=
  let (neg, s1) :=
    match s with
    | c :: t => if (c =? 45)%N then (true, t) else (false, s)
    | [] => (false, s)
    end in
  match parse_int_part s1 with
  | None => None
  | Some (int, s2) =>
      match parse_frac_part s2 with
      | None => None
      | Some (frac, s3) =>
          match parse_exp_part s3 with
          | None => None
          | Some (exp, s4) => Some (mkNumlit neg int frac exp, s4)
          end
      end
  end.

(** [s] starts with the keyword [w]: what is left after it. *)
Fixpoint strip_prefix (w s : jsstring) : option jsstring :=
  match w, s with
  | [], _ => Some s
  | a :: w', b :: s' => if (a =? b)%N then strip_prefix w' s' else None
  | _ :: _, [] => None
  end.

Definition parse_keyword (w : string) (v : value) (s : jsstring) : presult value :=
  match strip_prefix (lit w) s with
  | Some r => POk v r
  | None => PFail
  end.

(** The elements of a non empty array, after the opening bracket. *)
Fixpoint parse_elements (pv : jsstring -> presult value) (k : nat)
    (s : jsstring) (acc : list value) : presult value :=
  match k with
  | O => PFuel
  | S k' =>
      match pv s with
      | POk v r =>
          match skip_ws r with
          | c :: r' =>
              if (c =? 44)%N then parse_elements pv k' r' (acc ++ [v])
              else if (c =? 93)%N then POk (VArr (acc ++ [v])) r'
              else PFail
          | [] => PFail
          end
      | PFail => PFail
      | PFuel => PFuel
      end
  end.

(** The members of a non empty object, after the opening brace.  A repeated
    key takes the last value and keeps its first place. *)
Fixpoint parse_members (pv : jsstring -> presult value) (k : nat)
    (s : jsstring) (acc : props_t) : presult value :=
  match k with
  | O => PFuel
  | S k' =>
      match skip_ws s with
      | q :: t =>
          if (q =? 34)%N then
            match parse_chars t with
            | Some (key, r) =>
                match skip_ws r with
                | c :: r1 =>
                    if (c =? 58)%N then
                      match pv r1 with
                      | POk v r2 =>
                          match skip_ws r2 with
                          | d :: r3 =>
                              if (d =? 44)%N then parse_members pv k' r3 (define key v acc)
                              else if (d =? 125)%N then POk (VObj (define key v acc)) r3
                              else PFail
                          | [] => PFail
                          end
                      | PFail => PFail
                      | PFuel => PFuel
                      end
                    else PFail
                | [] => PFail
                end
            | None => PFail
            end
          else PFail
      | [] => PFail
      end
  end.

Fixpoint parse_value (fuel : nat) (s : jsstring) {struct fuel} : presult value :=
  match fuel with
  | O => PFuel
  | S f =>
      match skip_ws s with
      | [] => PFail
      | c :: t =>
          if (c =? 123)%N then
            match skip_ws t with
            | d :: r => if (d =? 125)%N then POk (VObj []) r
                        else parse_members (parse_value f) f t []
            | [] => PFail
            end
          else if (c =? 91)%N then
            match skip_ws t with
            | d :: r => if (d =? 93)%N then POk (VArr []) r
                        else parse_elements (parse_value f) f t []
            | [] => PFail
            end
          else if (c =? 34)%N then
            match parse_chars t with
            | Some (str, r) => POk (VStr str) r
            | None => PFail
            end
          else if (c =? 116)%N then parse_keyword "true" (VBool true) (c :: t)
          else if (c =? 102)%N then parse_keyword "false" (VBool false) (c :: t)
          else if (c =? 110)%N then parse_keyword "null" VNull (c :: t)
          else
            match parse_number (c :: t) with
            | Some (n, r) => POk (VNum (number_of_literal n)) r
            | None => PFail
            end
      end
  end.

(** [JSON.parse(text)]: [None] when it throws a [SyntaxError]. *)
Definition JSON_parse (text : jsstring) : option value :=
  match parse_value (S (List.length text)) text with
  | POk v rest => match skip_ws rest with [] => Some v | _ => None end
  | _ => None
  end.

(* ================================================================= *)
(** ** [JSON.stringify(value, null, 2)] *)

Definition hex_digit (n : N) : N := (if n <? 10 then 48 + n else 87 + n)%N.

Definition unicode_escape (c : N) : jsstring :=
  [92; 117; hex_digit ((c / 4096) mod 16); hex_digit ((c / 256) mod 16);
   hex_digit ((c / 16) mod 16); hex_digit (c mod 16)]%N.

Definition is_high_surrogate (c : N) : bool := ((55296 <=? c) && (c <=? 56319))%N.
Definition is_low_surrogate (c : N) : bool := ((56320 <=? c) && (c <=? 57343))%N.

(** QuoteJSONString on a code unit that is not a surrogate. *)
Definition quote_unit (c : N) : jsstring :=
  (if c =? 8 then [92; 98]
   else if c =? 9 then [92; 116]
   else if c =? 10 then [92; 110]
   else if c =? 12 then [92; 102]
   else if c =? 13 then [92; 114]
   else if c =? 34 then [92; 34]
   else if c =? 92 then [92; 92]
   else if c <? 32 then unicode_escape c
   else [c])%N.

Definition next_is_low (s : jsstring) : bool :=
  match s with
  | d :: _ => is_low_surrogate d
  | [] => false
  end.

(** A surrogate is written as it is when it has its partner next to it, and
    escaped when it stands alone. *)
Fixpoint quote_units (prev_high : bool) (s : jsstring) : jsstring :=
  match s with
  | [] => []
  | c :: t =>
      (if is_high_surrogate c then
         if next_is_low t then [c] else unicode_escape c
       else if is_low_surrogate c then
         if prev_high then [c] else unicode_escape c
       else quote_unit c)
      ++ quote_units (is_high_surrogate c) t
  end.

Definition quote (s : jsstring) : jsstring := 34%N :: quote_units false s ++ [34%N].

Fixpoint join (sep : jsstring) (parts : list jsstring) : jsstring :=
  match parts with
  | [] => []
  | p :: ps =>
      match ps with
      | [] => p
      | _ => p ++ sep ++ join sep ps
      end
  end.

Definition spaces (n : nat) : jsstring := repeat 32%N n.

(** SerializeJSONProperty with a gap of two spaces; [None] is [undefined]. *)
Fixpoint serialize (indent : nat) (v : value) : option jsstring :=
  match v with
  | VUndefined => None
  | VNull => Some (lit "null")
  | VBool b => Some (if b then lit "true" else lit "false")
  | VNum n => Some (number_to_json n)
  | VStr s => Some (quote s)
  | VArr items =>
      let inner := (indent + 2)%nat in
      let partial :=
        map (fun x => match serialize inner x with
                      | Some t => t
                      | None => lit "null"
                      end) items in
      match partial with
      | [] => Some (lit "[]")
      | _ => Some (91%N :: 10%N :: spaces inner
                   ++ join (44%N :: 10%N :: spaces inner) partial
                   ++ 10%N :: spaces indent ++ [93%N])
      end
  | VObj ps =>
      let inner := (indent + 2)%nat in
      let partial :=
        flat_map (fun kv => match kv with
                            | (k, x) =>
                                match serialize inner x with
                                | Some t => [quote k ++ 58%N :: 32%N :: t]
                                | None => []
                                end
                            end) ps in
      match partial with
      | [] => Some (lit "{}")
      | _ => Some (123%N :: 10%N :: spaces inner
                   ++ join (44%N :: 10%N :: spaces inner) partial
                   ++ 10%N :: spaces indent ++ [125%N])
      end
  end.

Definition JSON_stringify (v : value) : option jsstring := serialize 0 v.

(* ================================================================= *)
(** ** Review session state ([App.tsx]) *)

Inductive Script := Simplified | Traditional.

(** The card index is a JavaScript number: an integer here, or [NaN] after a
    remainder by zero. *)
Inductive jsnum := Fin (z : Z) | NaN.

Definition js_add (a b : jsnum) : jsnum :=
  match a, b with
  | Fin x, Fin y => Fin (x + y)
  | _, _ => NaN
  end.

Definition js_sub (a b : jsnum) : jsnum :=
  match a, b with
  | Fin x, Fin y => Fin (x - y)
  | _, _ => NaN
  end.

(** [a % b]: the remainder takes the sign of the dividend. *)
Definition js_rem (a b : jsnum) : jsnum :=
  match a, b with
  | Fin x, Fin y => if (y =? 0)%Z then NaN else Fin (Z.rem x y)
  | _, _ => NaN
  end.

Record AppState := mkApp {
  deck : option value;
  currentCardIndex : jsnum;
  isFlipped : bool;
  scriptMode : Script
}.

Definition initial_app : AppState := mkApp None (Fin 0) false Simplified.

Definition setDeck (d : option value) (s : AppState) : AppState :=
  mkApp d (currentCardIndex s) (isFlipped s) (scriptMode s).
Definition setCurrentCardIndex (f : jsnum -> jsnum) (s : AppState) : AppState :=
  mkApp (deck s) (f (currentCardIndex s)) (isFlipped s) (scriptMode s).
Definition setIsFlipped (f : bool -> bool) (s : AppState) : AppState :=
  mkApp (deck s) (currentCardIndex s) (f (isFlipped s)) (scriptMode s).
Definition setScriptMode (f : Script -> Script) (s : AppState) : AppState :=
  mkApp (deck s) (currentCardIndex s) (isFlipped s) (f (scriptMode s)).

Definition handleDeckGenerated (newDeck : value) (s : AppState) : AppState :=
  setIsFlipped (fun _ => false)
    (setCurrentCardIndex (fun _ => Fin 0) (setDeck (Some newDeck) s)).

(** [deck.cards.length] of a deck whose [cards] is an array, which every deck
    the ingestion delivers is ([delivered_cards_array]); on no other deck is
    the index update modelled. *)
Definition cards_length (d : value) : option jsnum :=
  match prop d "cards" with
  | inr (VArr items) => Some (Fin (Z.of_nat (List.length items)))
  | _ => None
  end.

(** [handleNext]: the flip state is cleared at once and the index moves when
    the 150 ms timer fires; the two updates are taken as one transition. *)
Definition handleNext (s : AppState) : AppState :=
  match deck s with
  | None => s
  | Some d =>
      let s1 := setIsFlipped (fun _ => false) s in
      match cards_length d with
      | Some len => setCurrentCardIndex (fun prev => js_rem (js_add prev (Fin 1)) len) s1
      | None => s1
      end
  end.

Definition handlePrev (s : AppState) : AppState :=
  match deck s with
  | None => s
  | Some d =>
      let s1 := setIsFlipped (fun _ => false) s in
      match cards_length d with
      | Some len =>
          setCurrentCardIndex
            (fun prev => js_rem (js_add (js_sub prev (Fin 1)) len) len) s1
      | None => s1
      end
  end.

Definition handleFlip (s : AppState) : AppState := setIsFlipped negb s.

Definition resetDeck (s : AppState) : AppState :=
  setIsFlipped (fun _ => false)
    (setCurrentCardIndex (fun _ => Fin 0) (setDeck None s)).

Definition toggleScriptMode (s : AppState) : AppState :=
  setScriptMode
    (fun prev => match prev with Simplified => Traditional | Traditional => Simplified end) s.

(** [title.replace(/[^a-z0-9]/gi, '_').toLowerCase()] *)
Definition file_stem_unit (c : N) : N :=
  (if (48 <=? c) && (c <=? 57) then c
   else if (97 <=? c) && (c <=? 122) then c
   else if (65 <=? c) && (c <=? 90) then c + 32
   else 95)%N.

(** [saveDeck]: the name and the text of the file offered for download;
    [inr None] when there is no deck. *)
Definition saveDeck (s : AppState) : exn + option (jsstring * jsstring) :=
  match deck s with
  | None => inr None
  | Some d =>
      let blob := match JSON_stringify d with
                  | Some text => text
                  | None => lit "undefined"
                  end in
      match prop d "title" with
      | inr (VStr title) => inr (Some (map file_stem_unit title ++ lit ".json", blob))
      | _ => inl TypeError
      end
  end.

(* ================================================================= *)
(** ** Effects *)

Record World := mkWorld {
  app : AppState;                 (* state of [App] *)
  error : option string;          (* state of [DeckGenerator] *)
  isLoading : bool;
  inputValue : jsstring;
  requests : list jsstring;       (* prompts sent to the generation service *)
  delivered : list value;         (* arguments [onDeckGenerated] was called with *)
  shown : list string;            (* messages [setError] was called with *)
  clock : nat                     (* reads of [Date.now] so far *)
}.

Definition M (A : Type) : Type := World -> (exn + A) * World.

Definition ret {A} (a : A) : M A := fun w => (inr a, w).

Definition bind {A B} (m : M A) (f : A -> M B) : M B :=
  fun w => match m w with
           | (inr a, w') => f a w'
           | (inl e, w') => (inl e, w')
           end.

Definition throw {A} (e : exn) : M A := fun w => (inl e, w).

Definition lift {A} (r : exn + A) : M A := fun w => (r, w).

Definition try_catch {A} (m : M A) (h : exn -> M A) : M A :=
  fun w => match m w with
           | (inl e, w') => h e w'
           | r => r
           end.

(** [try { m } finally { f }] for an [f] that does not throw. *)
Definition finally {A} (m : M A) (f : World -> World) : M A :=
  fun w => let (r, w') := m w in (r, f w').

Definition modify (f : World -> World) : M unit := fun w => (inr tt, f w).

Notation "x <- m ;; k" := (bind m (fun x => k))
  (at level 61, m at next level, right associativity).
Notation "m ;;; k" := (bind m (fun _ => k))
  (at level 61, right associativity).

Definition setError (e : option string) : M unit :=
  modify (fun w =>
    mkWorld (app w) e (isLoading w) (inputValue w) (requests w) (delivered w)
      (match e with Some msg => shown w ++ [msg] | None => shown w end) (clock w)).

Definition setIsLoading (b : bool) : World -> World :=
  fun w => mkWorld (app w) (error w) b (inputValue w) (requests w) (delivered w)
             (shown w) (clock w).

(** The [onDeckGenerated] property of the component is [handleDeckGenerated]. *)
Definition onDeckGenerated (d : value) : M unit :=
  modify (fun w =>
    mkWorld (handleDeckGenerated d (app w)) (error w) (isLoading w) (inputValue w)
      (requests w) (delivered w ++ [d]) (shown w) (clock w)).

Definition now : M N :=
  fun w => (inr (Date_now (clock w)),
            mkWorld (app w) (error w) (isLoading w) (inputValue w) (requests w)
              (delivered w) (shown w) (S (clock w))).

(** One request to the generation service. *)
Definition generate (prompt : jsstring) : M (option jsstring) :=
  fun w =>
    let w' := mkWorld (app w) (error w) (isLoading w) (inputValue w)
                (requests w ++ [prompt]) (delivered w) (shown w) (clock w) in
    match generateContent prompt with
    | Some text => (inr text, w')
    | None => (inl Rejected, w')
    end.

(** [items.map((x, i) => f(x, i))] with a callback that has effects. *)
Fixpoint map_from {A} (i : nat) (f : value -> nat -> M A) (items : list value)
  : M (list A) :=
  match items with
  | [] => ret []
  | x :: t => y <- f x i ;; ys <- map_from (S i) f t ;; ret (y :: ys)
  end.

(** [v.map(f)]: only an array has a [map] to call. *)
Definition array_map (v : value) (f : value -> nat -> M value) : M value :=
  match v with
  | VArr items => ys <- map_from 0 f items ;; ret (VArr ys)
  | _ => throw TypeError
  end.

(* ================================================================= *)
(** ** Generation client ([services/geminiService.ts]) *)

Definition nl : jsstring := [10%N].
Definition dq : jsstring := [34%N].

(** The prompt of [generateDeckFromList], around the user's content. *)
Definition prompt_head : jsstring :=
  lit "Create a detailed flashcard deck based on the following list of words and optional example phrases provided by the user."
  ++ nl ++ lit "  " ++ nl ++ lit "  User Input:" ++ nl ++ lit "  " ++ dq ++ dq ++ dq
  ++ nl ++ lit "  ".

Definition prompt_tail : jsstring :=
  nl ++ lit "  " ++ dq ++ dq ++ dq ++ nl ++ lit "  " ++ nl ++ lit "  Instructions:" ++ nl
  ++ lit "  1. Parse the input. Each line represents a card. " ++ nl
  ++ lit "  2. The line might be just a word (e.g., " ++ dq ++ [33529%N; 26524%N] ++ dq
  ++ lit ") or a word with an example (e.g., " ++ dq ++ [33529%N; 26524%N] ++ lit ": "
  ++ [25105%N; 29233%N; 21507%N; 33529%N; 26524%N] ++ dq ++ lit ")." ++ nl
  ++ lit "  3. If an example is provided by the user, you MUST use it EXACTLY as the example sentence. Do NOT generate any other examples for this card. Do NOT modify the Chinese characters of the user's example. Provide Pinyin and an English translation for it."
  ++ nl
  ++ lit "  4. If the input is English, translate it to Chinese and treat it as the target word."
  ++ nl
  ++ lit "  5. Provide all missing fields (Traditional, Pinyin for word, Pinyin for examples, Definition)."
  ++ nl
  ++ lit "  6. Set the deck title based on the content (e.g., " ++ dq
  ++ lit "Custom Vocabulary List" ++ dq ++ lit ")." ++ nl ++ lit "  ".

Definition list_prompt (content : jsstring) : jsstring :=
  prompt_head ++ content ++ prompt_tail.

(** [`card-${Date.now()}-${index}`] and [`imported-${Date.now()}-${i}`] *)
Definition fresh_id (prefix : string) (t : N) (i : nat) : jsstring :=
  lit prefix ++ decimal t ++ lit "-" ++ decimal (N.of_nat i).

(** The callback of [data.cards.map] in [parseResponse]. *)
Definition with_card_id (card : value) (index : nat) : M value :=
  t <- now ;;
  ret (VObj (define (lit "id") (VStr (fresh_id "card-" t index)) (spread card))).

Definition parseResponse (text : option jsstring) : M value :=
  match text with
  | None | Some [] => throw (Error "No response from AI"%string)
  | Some jsonText =>
      match JSON_parse jsonText with
      | None => throw SyntaxError
      | Some data =>
          cards <- lift (prop data "cards") ;;
          cardsWithIds <- array_map cards with_card_id ;;
          title <- lift (prop data "title") ;;
          ret (VObj [(lit "title", title); (lit "cards", cardsWithIds)])
      end
  end.

(** [generateDeckFromList]: its [catch] logs and throws the error again. *)
Definition generateDeckFromList (content : jsstring) : M value :=
  response <- generate (list_prompt content) ;;
  parseResponse response.

(* ================================================================= *)
(** ** Deck ingestion ([components/DeckGenerator.tsx]) *)

Definition typeof (v : value) : string :=
  match v with
  | VUndefined => "undefined"
  | VNull => "object"
  | VBool _ => "boolean"
  | VNum _ => "number"
  | VStr _ => "string"
  | VArr _ | VObj _ => "object"
  end.

Definition is_null (v : value) : bool :=
  match v with VNull => true | _ => false end.

Definition isArray (v : value) : bool :=
  match v with VArr _ => true | _ => false end.

Definition isValidDeck (data : value) : bool :=
  String.eqb (typeof data) "object"
  && negb (is_null data)
  && match prop data "title" with
     | inr t => String.eqb (typeof t) "string"
     | inl _ => false
     end
  && match prop data "cards" with
     | inr c => isArray c
     | inl _ => false
     end.

(** [Array.isArray(json) && json.every(item => typeof item === 'string')]:
    the strings of such an array. *)
Fixpoint all_strings (items : list value) : option (list jsstring) :=
  match items with
  | [] => Some []
  | VStr s :: t => match all_strings t with Some l => Some (s :: l) | None => None end
  | _ :: _ => None
  end.

Definition string_array (json : value) : option (list jsstring) :=
  match json with
  | VArr items => all_strings items
  | _ => None
  end.

(** The callback of [c.examples?.map] in [processContent]. *)
Definition import_example (ex : value) (_ : nat) : M value :=
  s <- lift (prop ex "simplified") ;;
  t <- lift (prop ex "traditional") ;;
  c <- lift (prop ex "chinese") ;;
  p <- lift (prop ex "pinyin") ;;
  e <- lift (prop ex "english") ;;
  ret (VObj [(lit "simplified", js_or (js_or s c) (VStr []));
             (lit "traditional", js_or (js_or t c) (VStr []));
             (lit "pinyin", p);
             (lit "english", e)]).

(** [c.id || `imported-${Date.now()}-${i}`] *)
Definition id_or_fresh (cid : value) (i : nat) : M value :=
  if truthy cid then ret cid
  else t <- now ;; ret (VStr (fresh_id "imported-" t i)).

(** The callback of [json.cards.map] in [processContent]. *)
Definition import_card (c : value) (i : nat) : M value :=
  ex <- lift (prop c "examples") ;;
  mapped <- match ex with
            | VUndefined | VNull => ret VUndefined
            | _ => array_map ex import_example
            end ;;
  let examples := js_or mapped (VArr []) in
  cid <- lift (prop c "id") ;;
  id <- id_or_fresh cid i ;;
  ret (VObj (define (lit "id") id (define (lit "examples") examples (spread c)))).

(** [!content || !content.trim()] *)
Definition is_blank (content : jsstring) : bool :=
  match content with
  | [] => true
  | _ => match trim content with [] => true | _ => false end
  end.

Definition processContent_error : string :=
  "Failed to process content. Ensure it is a valid JSON deck or a list of words.".

(** The JSON branches of [processContent]: [Some true] when one of them
    returned, [None] when control falls through to the text branch. *)
Definition processContent_json (content : jsstring) : M (option bool) :=
  match JSON_parse content with
  | None => ret None
  | Some json =>
      if truthy json then
        if isValidDeck json then
          cs <- lift (prop json "cards") ;;
          cards <- array_map cs import_card ;;
          onDeckGenerated (VObj (define (lit "cards") cards (spread json))) ;;;
          ret (Some true)
        else
          match string_array json with
          | Some strs =>
              d <- generateDeckFromList (join nl strs) ;;
              onDeckGenerated d ;;;
              ret (Some true)
          | None => ret None
          end
      else ret None
  end.

(** The unified content processor. *)
Definition processContent (content : jsstring) : M bool :=
  try_catch
    (r <- processContent_json content ;;
     match r with
     | Some b => ret b
     | None =>
         if is_blank content then throw (Error "Content is empty"%string)
         else
           d <- generateDeckFromList content ;;
           onDeckGenerated d ;;;
           ret true
     end)
    (fun _ => setError (Some processContent_error) ;;; ret false).

(** The callback of [json.cards.map] in [processJsonContent]. *)
Definition import_card_id (c : value) (i : nat) : M value :=
  cid <- lift (prop c "id") ;;
  id <- id_or_fresh cid i ;;
  ret (VObj (define (lit "id") id (spread c))).

Definition invalid_format_error : string :=
  "Invalid JSON format. Please upload a saved Deck file or a list of words (array of strings).".

(** The importer of the earlier revision of the component: JSON only. *)
Definition processJsonContent (content : jsstring) : M bool :=
  try_catch
    (match JSON_parse content with
     | None => throw SyntaxError
     | Some json =>
         if isValidDeck json then
           cs <- lift (prop json "cards") ;;
           cards <- array_map cs import_card_id ;;
           onDeckGenerated (VObj (define (lit "cards") cards (spread json))) ;;;
           ret true
         else
           match string_array json with
           | Some strs =>
               d <- generateDeckFromList (join nl strs) ;;
               onDeckGenerated d ;;;
               ret true
           | None => setError (Some invalid_format_error) ;;; ret false
           end
     end)
    (fun _ => setError (Some "Failed to parse JSON content."%string) ;;; ret false).

(** [handleManualSubmit] *)
Definition handleManualSubmit : M unit :=
  fun w =>
    match trim (inputValue w) with
    | [] => (inr tt, w)
    | _ =>
        finally
          (setError None ;;;
           try_catch
             (d <- generateDeckFromList (inputValue w) ;;
              onDeckGenerated d)
             (fun _ => setError (Some "Failed to generate deck. Please try again."%string)))
          (setIsLoading false)
          (setIsLoading true w)
    end.

(** [handleUrlSubmit] *)
Definition handleUrlSubmit : M unit :=
  fun w =>
    match trim (inputValue w) with
    | [] => (inr tt, w)
    | _ =>
        finally
          (setError None ;;;
           try_catch
             (match fetch_text (inputValue w) with
              | None => throw Rejected
              | Some text => processContent text ;;; ret tt
              end)
             (fun _ => setError (Some "Failed to fetch from URL. Note: The URL must be public and allow CORS (e.g. GitHub Raw Gist)."%string)))
          (setIsLoading false)
          (setIsLoading true w)
    end.

(** [handleFileUpload]: [file] is [None] when no file was chosen, else what
    the reader ends with: the text, or [None] on a read error. *)
Definition handleFileUpload (file : option (option jsstring)) : M unit :=
  match file with
  | None => ret tt
  | Some outcome =>
      modify (setIsLoading true) ;;;
      setError None ;;;
      match outcome with
      | Some content =>
          processContent content ;;; modify (setIsLoading false)
      | None =>
          setError (Some "Failed to read file."%string) ;;;
          modify (setIsLoading false)
      end
  end.

(** [fetchDriveFile] *)
Definition fetchDriveFile (fileId accessToken : jsstring) : M unit :=
  finally
    (try_catch
       (match drive_text fileId accessToken with
        | None => throw (Error "Failed to download file"%string)
        | Some text => processContent text ;;; ret tt
        end)
       (fun _ => setError (Some "Failed to read file from Google Drive."%string)))
    (setIsLoading false).

(** The ingestion actions a user can trigger. *)
Inductive Action :=
| ManualSubmit
| UrlSubmit
| FileUpload (file : option (option jsstring))
| DriveFile (fileId accessToken : jsstring)
| ImportContent (content : jsstring)
| ImportJsonContent (content : jsstring).

Definition run (a : Action) : M unit :=
  match a with
  | ManualSubmit => handleManualSubmit
  | UrlSubmit => handleUrlSubmit
  | FileUpload file => handleFileUpload file
  | DriveFile fileId accessToken => fetchDriveFile fileId accessToken
  | ImportContent content => processContent content ;;; ret tt
  | ImportJsonContent content => processJsonContent content ;;; ret tt
  end.

(* ================================================================= *)
(** ** States of a session *)

(** The states of a session each of whose timers has expired before the
    next event: it starts with no deck, and moves by the handlers and by a
    deck being delivered, the index moving at the press ([handleNext] and
    [handlePrev] above).  The session with its timers pending, where a deck
    can be delivered before a timer expires, is [Timed] and [session_step]
    below. *)
Inductive reachable : AppState -> Prop :=
| reach_initial : reachable initial_app
| reach_deck s d : reachable s -> reachable (handleDeckGenerated d s)
| reach_next s : reachable s -> reachable (handleNext s)
| reach_prev s : reachable s -> reachable (handlePrev s)
| reach_flip s : reachable s -> deck s <> None -> reachable (handleFlip s)
| reach_reset s : reachable s -> reachable (resetDeck s)
| reach_toggle s : reachable s -> reachable (toggleScriptMode s).

(** The canonical deck shape in the words of the specification: a string
    title and a list of card records, each with string [simplified],
    [traditional], [pinyin] and [english] fields and a list of example
    records. *)
Definition is_string (v : value) : bool :=
  match v with VStr _ => true | _ => false end.

Definition has_string (ps : props_t) (k : string) : bool :=
  match lookup (lit k) ps with Some v => is_string v | None => false end.

Definition spec_example_shape (v : value) : bool :=
  match v with VObj _ => true | _ => false end.

Definition spec_card_shape (v : value) : bool :=
  match v with
  | VObj ps =>
      has_string ps "simplified" && has_string ps "traditional"
      && has_string ps "pinyin" && has_string ps "english"
      && match lookup (lit "examples") ps with
         | Some (VArr exs) => forallb spec_example_shape exs
         | _ => false
         end
  | _ => false
  end.

Definition spec_deck_shape (v : value) : bool :=
  match v with
  | VObj ps =>
      has_string ps "title"
      && match lookup (lit "cards") ps with
         | Some (VArr cards) => forallb spec_card_shape cards
         | _ => false
         end
  | _ => false
  end.

(** An example record of the older format: one [chinese] text and neither
    [simplified] nor [traditional]. *)
Definition legacy_example (ex : value) (text : jsstring) : Prop :=
  exists ps,
    ex = VObj ps /\ lookup (lit "simplified") ps = None
    /\ lookup (lit "traditional") ps = None
    /\ lookup (lit "chinese") ps = Some (VStr text).

(** [c.id] of a card that is not [null]. *)
Definition id_of (c : value) : value :=
  match prop c "id" with
  | inr v => v
  | inl _ => VUndefined
  end.

(** What the import does to the ids of a batch: a truthy id stays, any
    other is replaced by a fresh one made of a clock reading and the
    position of the card. *)
Definition ids_kept_or_fresh (items cards : list value) : Prop :=
  List.length cards = List.length items /\
  forall k c c',
    nth_error items k = Some c -> nth_error cards k = Some c' ->
    truthy (id_of c') = true
    /\ (truthy (id_of c) = true -> id_of c' = id_of c)
    /\ (truthy (id_of c) = false ->
        exists t, id_of c' = VStr (fresh_id "imported-" t k)).

(** What [parseResponse] does: every card gets a fresh id. *)
Definition ids_all_fresh (cards : list value) : Prop :=
  forall k c',
    nth_error cards k = Some c' ->
    exists t, id_of c' = VStr (fresh_id "card-" t k).

(* ================================================================= *)
(** ** The canonical deck ([types.ts]) and its objects *)

Definition opt_string (o : option jsstring) : value :=
  match o with
  | Some p => VStr p
  | None => VUndefined
  end.

(** The object of an [Example]; an absent [pinyin] reads [undefined]. *)
Definition example_value (e : Example) : value :=
  VObj [(lit "simplified", VStr (ex_simplified e));
        (lit "traditional", VStr (ex_traditional e));
        (lit "pinyin", opt_string (ex_pinyin e));
        (lit "english", VStr (ex_english e))].

Definition card_value (c : FlashcardData) : value :=
  VObj [(lit "id", VStr (card_id c));
        (lit "simplified", VStr (card_simplified c));
        (lit "traditional", VStr (card_traditional c));
        (lit "pinyin", VStr (card_pinyin c));
        (lit "english", VStr (card_english c));
        (lit "examples", VArr (map example_value (card_examples c)))].

Definition deck_value (d : Deck) : value :=
  VObj [(lit "title", VStr (deck_title d));
        (lit "cards", VArr (map card_value (deck_cards d)))].

(** What [JSON.parse] gives back for what [JSON.stringify] wrote: a property
    that is [undefined] is gone, an element that is [undefined] is [null]. *)
Fixpoint clean (v : value) : value :=
  match v with
  | VArr items =>
      VArr (map (fun x => match x with
                          | VUndefined => VNull
                          | _ => clean x
                          end) items)
  | VObj ps =>
      VObj (flat_map (fun kv => match kv with
                                | (k, x) =>
                                    match x with
                                    | VUndefined => []
                                    | _ => [(k, clean x)]
                                    end
                                end) ps)
  | _ => v
  end.

Fixpoint distinct_keys (ps : props_t) : bool :=
  match ps with
  | [] => true
  | (k, _) :: t =>
      match lookup k t with
      | Some _ => false
      | None => distinct_keys t
      end
  end.

(** Values for which the round trip through JSON text is stated: no
    numbers (their printing is the host's) and no repeated key. *)
Fixpoint json_safe (v : value) : bool :=
  match v with
  | VNum _ => false
  | VArr items => forallb json_safe items
  | VObj ps =>
      forallb (fun kv => match kv with (_, x) => json_safe x end) ps
      && distinct_keys ps
  | _ => true
  end.

(** A bound on the fuel the reader needs for what was written. *)
Fixpoint weight (v : value) : nat :=
  match v with
  | VArr items => S (fold_right (fun x n => (weight x + n)%nat) 0%nat items)
  | VObj ps =>
      S (fold_right (fun kv n => match kv with
                                 | (_, VUndefined) => n
                                 | (_, x) => (weight x + n)%nat
                                 end) 0%nat ps)
  | _ => 1%nat
  end.

(** The pieces [serialize] joins: the text of an array element and of an
    object member, and the values the reader makes of them. *)
Definition elem_text (indent : nat) (x : value) : jsstring :=
  match serialize indent x with
  | Some t => t
  | None => lit "null"
  end.

Definition member_text (indent : nat) (kv : jsstring * value) : jsstring :=
  quote (fst kv) ++ 58%N :: 32%N :: elem_text indent (snd kv).

Definition clean_elem (x : value) : value :=
  match x with
  | VUndefined => VNull
  | _ => clean x
  end.

Definition is_undefined (v : value) : bool :=
  match v with VUndefined => true | _ => false end.

(** The members of an object that are written. *)
Definition live (ps : props_t) : props_t :=
  filter (fun kv => negb (is_undefined (snd kv))) ps.

Definition is_value_start (h : N) : bool :=
  ((h =? 34) || (h =? 91) || (h =? 123) || (h =? 110) || (h =? 116)
   || (h =? 102))%N.

Definition separator (indent : nat) : jsstring := 44%N :: 10%N :: spaces indent.

(** The reader gives back what was written for [x], with fuel enough for
    its weight. *)
Definition reads_back (x : value) : Prop :=
  json_safe x = true ->
  forall indent fuel s rest,
    (weight x <= fuel)%nat ->
    skip_ws s = elem_text indent x ++ rest ->
    parse_value fuel s = POk (clean_elem x) rest.

(** The objects [JSON.parse] makes of an exported deck: as [deck_value], but
    an absent [pinyin] is an absent property. *)
Definition example_json (e : Example) : value :=
  VObj ((lit "simplified", VStr (ex_simplified e))
        :: (lit "traditional", VStr (ex_traditional e))
        :: match ex_pinyin e with
           | Some p => [(lit "pinyin", VStr p)]
           | None => []
           end
        ++ [(lit "english", VStr (ex_english e))]).

Definition card_json (c : FlashcardData) : value :=
  VObj [(lit "id", VStr (card_id c));
        (lit "simplified", VStr (card_simplified c));
        (lit "traditional", VStr (card_traditional c));
        (lit "pinyin", VStr (card_pinyin c));
        (lit "english", VStr (card_english c));
        (lit "examples", VArr (map example_json (card_examples c)))].

Definition deck_json (d : Deck) : value :=
  VObj [(lit "title", VStr (deck_title d));
        (lit "cards", VArr (map card_json (deck_cards d)))].

(** The world after [onDeckGenerated(d)]. *)
Definition deliver (d : value) (w : World) : World :=
  mkWorld (handleDeckGenerated d (app w)) (error w) (isLoading w) (inputValue w)
    (requests w) (delivered w ++ [d]) (shown w) (clock w).

(* ================================================================= *)
(** ** Vocabulary of the properties *)

(** Induction on values, through the lists of elements and members. *)
Section ValueInduction.

Variable P : value -> Prop.
Hypothesis P_undefined : P VUndefined.
Hypothesis P_null : P VNull.
Hypothesis P_bool : forall b, P (VBool b).
Hypothesis P_num : forall n, P (VNum n).
Hypothesis P_str : forall s, P (VStr s).
Hypothesis P_arr : forall items, Forall P items -> P (VArr items).
Hypothesis P_obj : forall ps, Forall (fun kv => P (snd kv)) ps -> P (VObj ps).

Fixpoint value_nested_ind (v : value) : P v :=
  match v with
  | VUndefined => P_undefined
  | VNull => P_null
  | VBool b => P_bool b
  | VNum n => P_num n
  | VStr s => P_str s
  | VArr items =>
      P_arr
        ((fix all (l : list value) : Forall P l :=
            match l with
            | [] => Forall_nil P
            | x :: t => Forall_cons x (value_nested_ind x) (all t)
            end) items)
  | VObj ps =>
      P_obj
        ((fix all (l : props_t) : Forall (fun kv => P (snd kv)) l :=
            match l with
            | [] => Forall_nil _
            | kv :: t =>
                Forall_cons kv
                  (match kv return P (snd kv) with
                   | (k, x) => value_nested_ind x
                   end) (all t)
            end) ps)
  end.

End ValueInduction.

(** A computation keeps a relation between the world before and after. *)
Definition keeps {A} (R : World -> World -> Prop) (m : M A) : Prop :=
  forall w r w', m w = (r, w') -> R w w'.

(** What is left alone by a computation that only talks to the generation
    service and reads the clock. *)
Definition same_session (w w' : World) : Prop :=
  app w' = app w /\ error w' = error w /\ isLoading w' = isLoading w
  /\ inputValue w' = inputValue w /\ delivered w' = delivered w
  /\ shown w' = shown w.

Definition quiet {A} (m : M A) : Prop := keeps same_session m.

(** No request goes out. *)
Definition same_requests (w w' : World) : Prop := requests w' = requests w.

Definition offline {A} (m : M A) : Prop := keeps same_requests m.

(** Steps around an ingestion that touch neither the session nor the logs. *)
Definition same_log (w w' : World) : Prop :=
  app w' = app w /\ delivered w' = delivered w /\ shown w' = shown w.

(** A deck object whose [cards] is an array. *)
Definition has_cards (d : value) : Prop :=
  exists items, prop d "cards" = inr (VArr items).

(** How an ingestion step ends. *)
Inductive outcome (w w' : World) : Prop :=
| Delivered d :
    has_cards d ->
    app w' = handleDeckGenerated d (app w) ->
    delivered w' = delivered w ++ [d] ->
    shown w' = shown w ->
    outcome w w'
| Failed msg :
    app w' = app w ->
    delivered w' = delivered w ->
    shown w' = shown w ++ [msg] ->
    error w' = Some msg ->
    outcome w w'
| Ignored :
    app w' = app w ->
    delivered w' = delivered w ->
    shown w' = shown w ->
    outcome w w'.

(* ================================================================= *)
(** ** Keyboard and display ([App.tsx]) *)

(** The [keydown] listener of [App]: [in_field] says whether the target of
    the event is a text area or an input, [code] is [e.code]. *)
Definition handleKeyDown (in_field : bool) (code : string) (s : AppState) : AppState :=
  if in_field then s
  else if (String.eqb code "Space" || String.eqb code "ArrowUp"
           || String.eqb code "ArrowDown")%bool then handleFlip s
  else if String.eqb code "ArrowRight" then handleNext s
  else if String.eqb code "ArrowLeft" then handlePrev s
  else s.

(** The effect installs the listener only while a deck is loaded. *)
Definition keydown (in_field : bool) (code : string) (s : AppState) : AppState :=
  match deck s with
  | None => s
  | Some _ => handleKeyDown in_field code s
  end.

(** [items[i]]: the element at a position of the array, [undefined] for
    every other index. *)
Definition element_at (items : list value) (i : jsnum) : value :=
  match i with
  | Fin z => if (z <? 0)%Z then VUndefined else nth (Z.to_nat z) items VUndefined
  | NaN => VUndefined
  end.

(** [deck.cards[currentCardIndex]], the [data] handed to [Flashcard]; as
    [cards_length], for a deck whose [cards] is an array. *)
Definition current_card (s : AppState) : option value :=
  match deck s with
  | Some d =>
      match prop d "cards" with
      | inr (VArr items) => Some (element_at items (currentCardIndex s))
      | _ => None
      end
  | None => None
  end.

(** The counter of the header: [currentCardIndex + 1] and
    [deck.cards.length]. *)
Definition counter (s : AppState) : option (jsnum * jsnum) :=
  match deck s with
  | Some d =>
      match cards_length d with
      | Some len => Some (js_add (currentCardIndex s) (Fin 1), len)
      | None => None
      end
  | None => None
  end.

(* ================================================================= *)
(** ** The timers of the navigation ([App.tsx])

    [handleNext] and [handlePrev] clear the flip state at once and leave the
    move of the index to a timer of 150 ms.  The callback of the timer holds
    the deck of the render that made it, and updates the index the state has
    when it runs.  Timers of one delay run in the order they were set. *)

Inductive Pending :=
| PendingNext (d : value)
| PendingPrev (d : value).

Record Timed := mkTimed {
  current : AppState;
  timers : list Pending
}.

Definition press_next (t : Timed) : Timed :=
  match deck (current t) with
  | None => t
  | Some d =>
      mkTimed (setIsFlipped (fun _ => false) (current t))
        (timers t ++ [PendingNext d])
  end.

Definition press_prev (t : Timed) : Timed :=
  match deck (current t) with
  | None => t
  | Some d =>
      mkTimed (setIsFlipped (fun _ => false) (current t))
        (timers t ++ [PendingPrev d])
  end.

(** The callback of a timer. *)
Definition run_pending (p : Pending) (s : AppState) : AppState :=
  match p with
  | PendingNext d =>
      match cards_length d with
      | Some len =>
          setCurrentCardIndex (fun prev => js_rem (js_add prev (Fin 1)) len) s
      | None => s
      end
  | PendingPrev d =>
      match cards_length d with
      | Some len =>
          setCurrentCardIndex
            (fun prev => js_rem (js_add (js_sub prev (Fin 1)) len) len) s
      | None => s
      end
  end.

(** The oldest timer expires. *)
Definition fire (t : Timed) : Timed :=
  match timers t with
  | [] => t
  | p :: rest => mkTimed (run_pending p (current t)) rest
  end.

(** A handler without a timer ([handleFlip], [toggleScriptMode], ...). *)
Definition at_once (f : AppState -> AppState) (t : Timed) : Timed :=
  mkTimed (f (current t)) (timers t).

(** What the user does to a session with a deck, and a timer expiring. *)
Inductive Event :=
| PressNext
| PressPrev
| PressFlip
| PressToggle
| Expire.

(** The session with its timers. *)
Definition timed_step (t : Timed) (e : Event) : Timed :=
  match e with
  | PressNext => press_next t
  | PressPrev => press_prev t
  | PressFlip => at_once handleFlip t
  | PressToggle => at_once toggleScriptMode t
  | Expire => fire t
  end.

(** The session when every move of the index is taken at the press. *)
Definition atomic_step (s : AppState) (e : Event) : AppState :=
  match e with
  | PressNext => handleNext s
  | PressPrev => handlePrev s
  | PressFlip => handleFlip s
  | PressToggle => toggleScriptMode s
  | Expire => s
  end.

(** All the timers left expire. *)
Definition settle (t : Timed) : Timed := Nat.iter (List.length (timers t)) fire t.

(* ================================================================= *)
(** ** The card ([components/Flashcard.tsx], [components/HanziWriterPlayer.tsx]) *)

Definition script_name (m : Script) : string :=
  match m with
  | Simplified => "simplified"
  | Traditional => "traditional"
  end.

(** [`${data.id}-${scriptMode}`], the key of the card, for a card whose id is
    the string [id]. *)
Definition flashcard_key (id : jsstring) (m : Script) : jsstring :=
  id ++ lit "-" ++ lit (script_name m).

(** What the body of [Flashcard] computes from its properties, and puts in
    the element it returns.  What React and the stroke order player make of
    them is [show_card] below. *)
Record CardView := mkView {
  mainChar : value;
  secondaryChar : value;
  secondaryLabel : string;
  mainFontClass : string;
  secondaryFontClass : string;
  view_pinyin : value;
  view_english : value;
  (* the sentence, the pinyin and the translation of each example *)
  view_examples : list (value * value * value);
  (* the text of the stroke order player, mounted when the card is flipped *)
  view_player : option value
}.

Definition and_then {A B} (r : exn + A) (k : A -> exn + B) : exn + B :=
  match r with
  | inr a => k a
  | inl e => inl e
  end.

(** [isSimplified ? ex.simplified : ex.traditional] *)
Definition example_line (m : Script) (ex : value) : exn + value :=
  match m with
  | Simplified => prop ex "simplified"
  | Traditional => prop ex "traditional"
  end.

Definition example_row (m : Script) (ex : value) : exn + (value * value * value) :=
  and_then (example_line m ex) (fun line =>
  and_then (prop ex "pinyin") (fun p =>
  and_then (prop ex "english") (fun e => inr (line, p, e)))).

Fixpoint rows (m : Script) (exs : list value) : exn + list (value * value * value) :=
  match exs with
  | [] => inr []
  | ex :: t =>
      and_then (example_row m ex) (fun r =>
      and_then (rows m t) (fun rs => inr (r :: rs)))
  end.

Definition Flashcard (data : value) (flipped : bool) (m : Script) : exn + CardView :=
  and_then (prop data "simplified") (fun simplified =>
  and_then (prop data "traditional") (fun traditional =>
  and_then (prop data "pinyin") (fun pinyin =>
  and_then (prop data "english") (fun english =>
  and_then (prop data "examples") (fun examples =>
  let main := match m with Simplified => simplified | Traditional => traditional end in
  match examples with
  | VArr exs =>
      and_then (rows m exs) (fun rs =>
      inr (mkView main
             (match m with Simplified => traditional | Traditional => simplified end)
             (match m with Simplified => "Traditional" | Traditional => "Simplified" end)
             (match m with Simplified => "hanzi-sc" | Traditional => "hanzi-tc" end)
             (match m with Simplified => "hanzi-tc" | Traditional => "hanzi-sc" end)
             pinyin english rs
             (if flipped then Some main else None)))
  | _ => inl TypeError
  end))))).

(** [text.split('')]: one string for each code unit. *)
Definition split_units (s : jsstring) : list jsstring := map (fun c => [c]) s.

(** The effect of [HanziWriterPlayer]: the characters it creates a writer
    for, in order; [ready] says that the container is mounted and the
    library is loaded. *)
Definition player_writers (ready : bool) (text : value) : exn + list jsstring :=
  if ready then
    match text with
    | VStr s => inr (split_units s)
    | _ => inl TypeError
    end
  else inr [].

(** The code units of a code point. *)
Definition utf16 (cp : N) : jsstring :=
  (if cp <? 65536 then [cp]
   else [55296 + (cp - 65536) / 1024; 56320 + (cp - 65536) mod 1024])%N.

(* ================================================================= *)
(** ** Generation from a topic ([services/geminiService.ts]) *)

Definition topic_prompt (topic : jsstring) : jsstring :=
  lit "Generate a list of 10-15 vocabulary words related to the topic: "
  ++ dq ++ topic ++ dq ++ lit ".".

(** [generateDeck]: as [generateDeckFromList], its [catch] logs and throws
    the error again. *)
Definition generateDeck (topic : jsstring) : M value :=
  response <- generate (topic_prompt topic) ;;
  parseResponse response.

(** The world after [setError(msg)]. *)
Definition failed (msg : string) (w : World) : World :=
  mkWorld (app w) (Some msg) (isLoading w) (inputValue w) (requests w)
    (delivered w) (shown w ++ [msg]) (clock w).

(* ================================================================= *)
(** ** Cards a deck file may hold *)

(** The examples and the cards on which the callbacks of [processContent] do
    not throw: an example is any value but [null] and [undefined]; so is a
    card, provided its [examples] is absent, [null] or an array of such
    examples. *)
Definition example_importable (ex : value) : bool :=
  match ex with
  | VUndefined | VNull => false
  | _ => true
  end.

Definition card_importable (c : value) : bool :=
  match prop c "examples" with
  | inl _ => false
  | inr (VUndefined | VNull) => true
  | inr (VArr exs) => forallb example_importable exs
  | inr _ => false
  end.

(* ================================================================= *)
(** ** The earlier revision of the component ([components/DeckGenerator.tsx])

    The component had two modes, imported JSON only ([processJsonContent])
    and took a Drive file from a link to it. *)

Inductive Mode := manual | upload.

(** [handleSubmit]: after the test of the mode, the handler is
    [handleManualSubmit] word for word. *)
Definition handleSubmit (mode : Mode) : M unit :=
  match mode with
  | upload => ret tt
  | manual => handleManualSubmit
  end.

(** [handleFileUpload] of the earlier revision. *)
Definition handleFileUpload_json (file : option (option jsstring)) : M unit :=
  match file with
  | None => ret tt
  | Some outcome =>
      modify (setIsLoading true) ;;;
      setError None ;;;
      match outcome with
      | Some content =>
          processJsonContent content ;;; modify (setIsLoading false)
      | None =>
          setError (Some "Failed to read file."%string) ;;;
          modify (setIsLoading false)
      end
  end.

(** The class [[a-zA-Z0-9_-]] of the two patterns for a file id. *)
Definition is_id_unit (c : N) : bool :=
  (((97 <=? c) && (c <=? 122)) || ((65 <=? c) && (c <=? 90))
   || ((48 <=? c) && (c <=? 57)) || (c =? 95) || (c =? 45))%N.

(** The longest run of id characters at the head of a string, and the rest. *)
Fixpoint span_id (s : jsstring) : jsstring * jsstring :=
  match s with
  | c :: t =>
      if is_id_unit c then let (run, rest) := span_id t in (c :: run, rest)
      else ([], s)
  | [] => ([], [])
  end.

(** A match of the pattern [pat([a-zA-Z0-9_-]+)] at the head of [s]: its
    group. *)
Definition match_id_here (pat s : jsstring) : option jsstring :=
  match strip_prefix pat s with
  | Some rest =>
      match fst (span_id rest) with
      | [] => None
      | id => Some id
      end
  | None => None
  end.

(** [s.match(/pat([a-zA-Z0-9_-]+)/)]: the group of the first match. *)
Fixpoint match_id_after (pat s : jsstring) : option jsstring :=
  match match_id_here pat s with
  | Some id => Some id
  | None =>
      match s with
      | [] => None
      | _ :: t => match_id_after pat t
      end
  end.

(** [driveLink.match(/\/d\/(...)/) || driveLink.match(/id=(...)/)], then
    [idMatch[1]]. *)
Definition drive_file_id (driveLink : jsstring) : option jsstring :=
  match match_id_after (lit "/d/") driveLink with
  | Some id => Some id
  | None => match_id_after (lit "id=") driveLink
  end.

(** [encodeURIComponent]: the characters it keeps, and the escapes of the
    bytes of the others in UTF-8; [None] is the [URIError] on a surrogate
    without its pair. *)
Definition uri_unreserved (c : N) : bool :=
  (((97 <=? c) && (c <=? 122)) || ((65 <=? c) && (c <=? 90))
   || ((48 <=? c) && (c <=? 57))
   || (c =? 45) || (c =? 95) || (c =? 46) || (c =? 33) || (c =? 126)
   || (c =? 42) || (c =? 39) || (c =? 40) || (c =? 41))%N.

Definition hex_upper (n : N) : N := (if n <? 10 then 48 + n else 55 + n)%N.

Definition percent (b : N) : jsstring :=
  [37; hex_upper (b / 16); hex_upper (b mod 16)]%N.

Definition utf8 (cp : N) : list N :=
  (if cp <? 128 then [cp]
   else if cp <? 2048 then [192 + cp / 64; 128 + cp mod 64]
   else if cp <? 65536 then
     [224 + cp / 4096; 128 + (cp / 64) mod 64; 128 + cp mod 64]
   else [240 + cp / 262144; 128 + (cp / 4096) mod 64; 128 + (cp / 64) mod 64;
         128 + cp mod 64])%N.

Fixpoint encodeURIComponent (s : jsstring) : option jsstring :=
  match s with
  | [] => Some []
  | c :: t =>
      if uri_unreserved c then option_map (cons c) (encodeURIComponent t)
      else if is_low_surrogate c then None
      else if is_high_surrogate c then
        match t with
        | lo :: t' =>
            if is_low_surrogate lo then
              option_map
                (List.app (flat_map percent
                             (utf8 (65536 + (c - 55296) * 1024 + (lo - 56320))%N)))
                (encodeURIComponent t')
            else None
        | [] => None
        end
      else option_map (List.app (flat_map percent (utf8 c))) (encodeURIComponent t)
  end.

Definition direct_url (fileId : jsstring) : jsstring :=
  lit "https://drive.google.com/uc?export=download&id=" ++ fileId.

Definition proxy_url (encoded : jsstring) : jsstring :=
  lit "https://api.allorigins.win/raw?url=" ++ encoded.

Definition no_file_id_error : string :=
  "Could not find a valid Google Drive File ID in the link.".

Definition drive_download_error : string :=
  "Could not download file. Ensure the file link is set to 'Anyone with the link' can view. If it still fails, please download the file manually and use the upload box above.".

(** [handleDriveImport], for the link in the form.  The address is made
    before the [try]: a [URIError] would leave the handler as it is. *)
Definition handleDriveImport (driveLink : jsstring) : M unit :=
  match trim driveLink with
  | [] => ret tt
  | _ =>
      modify (setIsLoading true) ;;;
      setError None ;;;
      match drive_file_id driveLink with
      | None =>
          setError (Some no_file_id_error) ;;;
          modify (setIsLoading false)
      | Some fileId =>
          match encodeURIComponent (direct_url fileId) with
          | None => throw (Error "URI malformed"%string)
          | Some encoded =>
              finally
                (try_catch
                   (match fetch_text (proxy_url encoded) with
                    | None => throw (Error "Network response was not ok"%string)
                    | Some text => processJsonContent text ;;; ret tt
                    end)
                   (fun _ => setError (Some drive_download_error)))
                (setIsLoading false)
          end
      end
  end.

(** The ingestion actions of the earlier revision. *)
Inductive EarlierAction :=
| Submit (mode : Mode)
| UploadJson (file : option (option jsstring))
| DriveImport (driveLink : jsstring).

Definition run_earlier (a : EarlierAction) : M unit :=
  match a with
  | Submit mode => handleSubmit mode
  | UploadJson file => handleFileUpload_json file
  | DriveImport driveLink => handleDriveImport driveLink
  end.

(** [pat] occurs in [s]. *)
Fixpoint occurs (pat s : jsstring) : bool :=
  match strip_prefix pat s with
  | Some _ => true
  | None =>
      match s with
      | [] => false
      | _ :: t => occurs pat t
      end
  end.

(* ================================================================= *)
(** ** The client id of the Drive picker ([components/DeckGenerator.tsx]) *)

(** [localStorage]: keys and their strings. *)
Definition Storage := list (jsstring * jsstring).

Fixpoint getItem (k : jsstring) (st : Storage) : option jsstring :=
  match st with
  | [] => None
  | (k', v) :: t => if jsstring_eqb k k' then Some v else getItem k t
  end.

Fixpoint setItem (k v : jsstring) (st : Storage) : Storage :=
  match st with
  | [] => [(k, v)]
  | (k', v') :: t =>
      if jsstring_eqb k k' then (k', v) :: t else (k', v') :: setItem k v t
  end.

Fixpoint removeItem (k : jsstring) (st : Storage) : Storage :=
  match st with
  | [] => []
  | (k', v') :: t =>
      if jsstring_eqb k k' then removeItem k t else (k', v') :: removeItem k t
  end.

Definition client_id_key : jsstring := lit "hanzi_client_id".

(** [x || ''] on a string or [null]. *)
Definition or_empty (o : option jsstring) : jsstring :=
  match o with
  | Some s => s
  | None => []
  end.

(** The initial [manualClientId]: [param] is
    [params.get('client_id')], [in_browser] says that [window] is defined. *)
Definition initial_manualClientId (in_browser : bool) (param : option jsstring)
    (st : Storage) : jsstring :=
  if in_browser then
    match param with
    | Some (_ :: _) => or_empty param
    | _ => or_empty (getItem client_id_key st)
    end
  else [].

(** The effect that saves [manualClientId] when it changes. *)
Definition save_manualClientId (manualClientId : jsstring) (st : Storage) : Storage :=
  match manualClientId with
  | [] => removeItem client_id_key st
  | _ => setItem client_id_key manualClientId st
  end.

(** [ENV_CLIENT_ID || manualClientId] *)
Definition CLIENT_ID (ENV_CLIENT_ID manualClientId : jsstring) : jsstring :=
  match ENV_CLIENT_ID with
  | [] => manualClientId
  | _ => ENV_CLIENT_ID
  end.

(* ================================================================= *)
(** ** Failures of an ingestion action

    What makes an action fail, read off the places where the handlers throw
    or are thrown at: the content cannot be classified (it is blank, or it is
    a deck file one of whose cards the importer cannot read), the generation
    fails (the service rejects the request, or [parseResponse] throws on its
    response), the file cannot be read, the address cannot be fetched. *)

Inductive Failure := Classification | Generation | FileRead | Fetch.

(** The responses on which [parseResponse] does not throw: a text that is
    not empty and parses to a value with an array under [cards]. *)
Definition response_usable (text : option jsstring) : bool :=
  match text with
  | Some (u :: t) =>
      match JSON_parse (u :: t) with
      | Some data =>
          match prop data "cards" with
          | inr (VArr _) => true
          | _ => false
          end
      | None => false
      end
  | _ => false
  end.

(** [generateDeckFromList(content)] throws: the service rejects the request,
    or answers with a response that is not usable
    ([generateDeckFromList_by_failure]). *)
Definition generation_fails (content : jsstring) : bool :=
  match generateContent (list_prompt content) with
  | Some text => negb (response_usable text)
  | None => true
  end.

(** The text branch of [processContent]. *)
Definition text_failure (content : jsstring) : option Failure :=
  if is_blank content then Some Classification
  else if generation_fails content then Some Generation
  else None.

(** Why [processContent(content)] fails, if it does: the branches are those
    of [processContent_json] and [processContent], each with what makes it
    throw ([processContent_by_failure]). *)
Definition content_failure (content : jsstring) : option Failure :=
  match JSON_parse content with
  | Some json =>
      if truthy json then
        if isValidDeck json then
          match prop json "cards" with
          | inr (VArr items) =>
              if forallb card_importable items then None else Some Classification
          | _ => Some Classification
          end
        else
          match string_array json with
          | Some strs =>
              if generation_fails (join nl strs) then Some Generation else None
          | None => text_failure content
          end
      else text_failure content
  | None => text_failure content
  end.

(** The cards on which the callback of [processJsonContent] does not throw:
    every value but [null] and [undefined]. *)
Definition card_id_importable (c : value) : bool :=
  match prop c "id" with
  | inl _ => false
  | inr _ => true
  end.

(** Why [processJsonContent(content)] fails, if it does
    ([processJsonContent_by_failure]). *)
Definition json_content_failure (content : jsstring) : option Failure :=
  match JSON_parse content with
  | Some json =>
      if isValidDeck json then
        match prop json "cards" with
        | inr (VArr items) =>
            if forallb card_id_importable items then None else Some Classification
        | _ => Some Classification
        end
      else
        match string_array json with
        | Some strs =>
            if generation_fails (join nl strs) then Some Generation else None
        | None => Some Classification
        end
  | None => Some Classification
  end.

(** Why an action fails, if it does: the download or the reading of the file
    fails ([fetch_text], [drive_text] and the reader give nothing), or the
    content does.  An action that returns at once (an empty form, no file
    chosen) does not fail. *)
Definition failure (a : Action) (w : World) : option Failure :=
  match a with
  | ManualSubmit =>
      match trim (inputValue w) with
      | [] => None
      | _ => if generation_fails (inputValue w) then Some Generation else None
      end
  | UrlSubmit =>
      match trim (inputValue w) with
      | [] => None
      | _ =>
          match fetch_text (inputValue w) with
          | Some text => content_failure text
          | None => Some Fetch
          end
      end
  | FileUpload None => None
  | FileUpload (Some None) => Some FileRead
  | FileUpload (Some (Some content)) => content_failure content
  | DriveFile fileId accessToken =>
      match drive_text fileId accessToken with
      | Some text => content_failure text
      | None => Some Fetch
      end
  | ImportContent content => content_failure content
  | ImportJsonContent content => json_content_failure content
  end.

(** The action met no failure. *)
Definition succeeds (f : option Failure) : bool :=
  match f with
  | None => true
  | Some _ => false
  end.

(* ================================================================= *)
(** ** The whole session, with its timers ([App.tsx])

    Besides the presses and the expiry of timers, a session sees a deck
    delivered ([handleDeckGenerated], at any time an ingestion ends), the
    reset of the header ([resetDeck]) and the keys of the listener.  A timer
    is never cancelled: it outlives the deck it was set for. *)

(** The [keydown] listener, with the timers of the handlers it calls. *)
Definition timed_keydown (in_field : bool) (code : string) (t : Timed) : Timed :=
  match deck (current t) with
  | None => t
  | Some _ =>
      if in_field then t
      else if (String.eqb code "Space" || String.eqb code "ArrowUp"
               || String.eqb code "ArrowDown")%bool then at_once handleFlip t
      else if String.eqb code "ArrowRight" then press_next t
      else if String.eqb code "ArrowLeft" then press_prev t
      else t
  end.

(** What happens to a session: an ingestion delivers a deck
    ([onDeckGenerated]), the user clicks the title of the header
    ([resetDeck]) or presses a key, and the events of a loaded deck (the
    buttons of the card, the expiry of a timer). *)
Inductive SessionEvent :=
| Deliver (d : value)
| Reset
| Key (in_field : bool) (code : string)
| Do (e : Event).

Definition session_step (t : Timed) (e : SessionEvent) : Timed :=
  match e with
  | Deliver d => at_once (handleDeckGenerated d) t
  | Reset => at_once resetDeck t
  | Key in_field code => timed_keydown in_field code t
  | Do e => timed_step t e
  end.

(** The session at its start. *)
Definition initial_session : Timed := mkTimed initial_app [].

(** The session after a list of events, the oldest first. *)
Definition session_after (evs : list SessionEvent) : Timed :=
  fold_left session_step evs initial_session.

(** A deck with an array of cards, as every deck of the ingestion is
    ([delivered_cards_array]). *)
Definition deliverable (d : value) : bool :=
  match cards_length d with
  | Some _ => true
  | None => false
  end.

(** The decks delivered are such decks, and none is delivered while a timer
    is pending. *)
Fixpoint loads_settled (t : Timed) (evs : list SessionEvent) : bool :=
  match evs with
  | [] => true
  | e :: rest =>
      match e with
      | Deliver d =>
          match timers t with
          | [] => deliverable d && loads_settled (session_step t e) rest
          | _ :: _ => false
          end
      | _ => loads_settled (session_step t e) rest
      end
  end.

(** The deck a timer holds. *)
Definition pending_deck (p : Pending) : value :=
  match p with
  | PendingNext d | PendingPrev d => d
  end.

(** What holds of a session as long as no deck is delivered while a timer
    is pending: the timers hold the deck of the session, and the index is a
    position of it. *)
Definition in_step (t : Timed) : Prop :=
  forall d,
    deck (current t) = Some d ->
    Forall (fun p => pending_deck p = d) (timers t)
    /\ forall items,
         prop d "cards" = inr (VArr items) -> items <> [] ->
         exists i, (0 <= i < Z.of_nat (List.length items))%Z
                   /\ currentCardIndex (current t) = Fin i.

(* ================================================================= *)
(** ** The card on the page ([components/Flashcard.tsx],
       [components/HanziWriterPlayer.tsx])

    [Flashcard] above is the body of the component: the values it puts in
    the element it returns.  React then makes the page of that element, and
    refuses an object given as a child; once the page is made the effect of
    the stroke order player runs, if the card is flipped. *)

(** A value React accepts as a child: a string or a number (a text), a
    boolean, [null] or [undefined] (nothing), an array of such.  An object
    that is not an element is refused, and no value read from JSON is an
    element. *)
Fixpoint child_ok (v : value) : bool :=
  match v with
  | VObj _ => false
  | VArr items => forallb child_ok items
  | _ => true
  end.

(** The values the element of a card holds as children, in the order of the
    page: the secondary character and the main one on the front; the pinyin,
    the secondary character, the translation, the pinyin again and the
    lines of the examples on the back. *)
Definition view_children (v : CardView) : list value :=
  [secondaryChar v; mainChar v; view_pinyin v; secondaryChar v; view_english v;
   view_pinyin v]
  ++ flat_map (fun r => match r with (line, p, e) => [line; p; e] end)
       (view_examples v).

(** What showing a card ends with. *)
Inductive display :=
| Displayed (view : CardView) (writers : list jsstring)
| Thrown (e : exn)     (* by the body of the component or by the effect *)
| Refused.             (* by React: an object was given as a child *)

(** Showing a card: the body of [Flashcard], the page React makes of its
    element, the effect of [HanziWriterPlayer] on the main character when
    the card is flipped.  [ready] says that the stroke order library is
    loaded. *)
Definition show_card (ready : bool) (data : value) (flipped : bool) (m : Script)
  : display :=
  match Flashcard data flipped m with
  | inl e => Thrown e
  | inr v =>
      if forallb child_ok (view_children v) then
        match view_player v with
        | Some text =>
            match player_writers ready text with
            | inr ws => Displayed v ws
            | inl e => Thrown e
            end
        | None => Displayed v []
        end
      else Refused
  end.

(** The cards that can be shown in every state of the session: the two
    characters are strings, and neither the pinyin, the translation nor a
    text of an example is an object. *)
Definition example_showable (ex : value) : bool :=
  match prop ex "simplified", prop ex "traditional", prop ex "pinyin",
        prop ex "english" with
  | inr s, inr t, inr p, inr e =>
      child_ok s && child_ok t && child_ok p && child_ok e
  | _, _, _, _ => false
  end.

Definition card_showable (c : value) : bool :=
  match prop c "simplified", prop c "traditional", prop c "pinyin",
        prop c "english", prop c "examples" with
  | inr (VStr _), inr (VStr _), inr p, inr e, inr (VArr exs) =>
      child_ok p && child_ok e && forallb example_showable exs
  | _, _, _, _, _ => false
  end.

(* ================================================================= *)
(** ** The typed deck a value stands for ([types.ts])

    A deck of the session is an object; the typed deck it stands for is read
    off its properties, whatever their order.  (The generation client puts
    the [id] of a card last, a deck file puts it where its author did.)  The
    object of a canonical deck has the properties of the interface and no
    other. *)

(** [ps.k], [undefined] when there is no such property. *)
Definition field (ps : props_t) (k : string) : value :=
  match lookup (lit k) ps with
  | Some x => x
  | None => VUndefined
  end.

(** The keys of the object are among [names], each at most once. *)
Definition only_keys (names : list string) (ps : props_t) : bool :=
  forallb (fun kv => existsb (fun n => jsstring_eqb (fst kv) (lit n)) names) ps
  && distinct_keys ps.

(** The values of a list of options, when none is missing. *)
Fixpoint all_some {A} (l : list (option A)) : option (list A) :=
  match l with
  | [] => Some []
  | Some a :: t =>
      match all_some t with
      | Some r => Some (a :: r)
      | None => None
      end
  | None :: _ => None
  end.

(** The properties of [Example], [FlashcardData] and [Deck]. *)
Definition example_keys : list string :=
  ["simplified"; "traditional"; "pinyin"; "english"]%string.
Definition card_keys : list string :=
  ["id"; "simplified"; "traditional"; "pinyin"; "english"; "examples"]%string.
Definition deck_keys : list string := ["title"; "cards"]%string.

(** The example an object stands for: its [pinyin] is a string or is
    missing ([undefined] or not there at all). *)
Definition example_of (v : value) : option Example :=
  match v with
  | VObj ps =>
      if only_keys example_keys ps then
        match field ps "simplified", field ps "traditional", field ps "english" with
        | VStr s, VStr t, VStr e =>
            match field ps "pinyin" with
            | VStr p => Some (mkExample s t (Some p) e)
            | VUndefined => Some (mkExample s t None e)
            | _ => None
            end
        | _, _, _ => None
        end
      else None
  | _ => None
  end.

(** The card an object stands for: the five texts are strings, [examples]
    is an array of examples. *)
Definition card_of (v : value) : option FlashcardData :=
  match v with
  | VObj ps =>
      if only_keys card_keys ps then
        match field ps "id", field ps "simplified", field ps "traditional",
              field ps "pinyin", field ps "english", field ps "examples" with
        | VStr i, VStr s, VStr t, VStr p, VStr e, VArr exs =>
            match all_some (map example_of exs) with
            | Some es => Some (mkCard i s t p e es)
            | None => None
            end
        | _, _, _, _, _, _ => None
        end
      else None
  | _ => None
  end.

(** The deck an object stands for. *)
Definition deck_of (v : value) : option Deck :=
  match v with
  | VObj ps =>
      if only_keys deck_keys ps then
        match field ps "title", field ps "cards" with
        | VStr t, VArr cs =>
            match all_some (map card_of cs) with
            | Some l => Some (mkDeck t l)
            | None => None
            end
        | _, _ => None
        end
      else None
  | _ => None
  end.

(** A deck whose cards all have an id that is not falsy. *)
Definition with_ids (v : value) : Prop :=
  exists items,
    prop v "cards" = inr (VArr items)
    /\ Forall (fun c => truthy (id_of c) = true) items.

End Program.

Notation "x <- m ;; k" := (bind m (fun x => k))
  (at level 61, m at next level, right associativity).
Notation "m ;;; k" := (bind m (fun _ => k))
  (at level 61, right associativity).

(** A host to run the program on: numbers are kept as their tokens, the clock
    stands still and the network is down. *)
Module Demo.

Definition all_zero (s : jsstring) : bool := forallb (fun c => (c =? 48)%N) s.

Definition print_numlit (n : numlit) : jsstring :=
  (if nl_neg n then [45%N] else [])
  ++ nl_int n
  ++ match nl_frac n with Some f => 46%N :: f | None => [] end
  ++ match nl_exp n with
     | Some (neg, e) => 101%N :: (if neg then [45%N] else []) ++ e
     | None => []
     end.

#[export] Instance host : Host := {|
  number := numlit;
  number_of_literal := fun n => n;
  number_truthy := fun n =>
    negb (all_zero (nl_int n)
          && match nl_frac n with Some f => all_zero f | None => true end);
  number_to_json := print_numlit;
  Date_now := fun _ => 1700000000000%N;
  generateContent := fun _ => None;
  fetch_text := fun _ => None;
  drive_text := fun _ _ => None
|}.



Definition w0 : World := mkWorld initial_app None false [] [] [] [] 0.

(** JSON texts are written with an apostrophe where the text has a double
    quote. *)
Definition text (s : string) : jsstring :=
  map (fun c => if (c =? 39)%N then 34%N else c) (lit s).

(** A deck of two cards; the example of the second has no pinyin. *)
Definition apple : FlashcardData :=
  mkCard (lit "card-1700000000000-0") [33529; 26524]%N [34315; 26524]%N
    (lit "ping guo") (lit "apple")
    [mkExample [25105; 29233; 21507; 33529; 26524]%N
       [25105; 24859; 21507; 34315; 26524]%N
       (Some (lit "wo ai chi ping guo")) (lit "I love eating apples")].

Definition thanks : FlashcardData :=
  mkCard (lit "card-1700000000000-1") [35874; 35874]%N [35613; 35613]%N
    (lit "xie xie") (lit "thank you")
    [mkExample [35874; 35874; 20320]%N [35613; 35613; 20320]%N None
       (lit "Thank you")].

Definition fruit_deck : Deck := mkDeck (lit "Fruit & Manners") [apple; thanks].

Definition loaded : AppState :=
  handleDeckGenerated (deck_value fruit_deck) initial_app.

(** The session on the second card, flipped. *)
Definition on_second_card : AppState :=
  handleFlip (handleNext loaded).

(** A world with the deck loaded and a word typed in the form. *)
Definition w_typed : World :=
  mkWorld on_second_card None false (lit "ni hao") [] [] [] 0.

(** A deck whose only card has the empty string for id. *)
Definition nameless_deck : Deck :=
  mkDeck (lit "T")
    [mkCard [] (lit "a") (lit "b") (lit "c") (lit "d") []].

Definition renamed_deck : Deck :=
  mkDeck (lit "T")
    [mkCard (lit "imported-1700000000000-0") (lit "a") (lit "b") (lit "c")
       (lit "d") []].

(** A deck file whose card has none of the card fields. *)
Definition hollow_deck : value :=
  VObj [(lit "title", VStr (lit "t")); (lit "cards", VArr [VObj []])].

(** A card of the older format. *)
Definition legacy_card : props_t :=
  [(lit "simplified", VStr [20320; 22909]%N);
   (lit "examples",
    VArr [VObj [(lit "chinese", VStr [20320; 22909; 21527]%N);
                (lit "english", VStr (lit "How are you?"))]])].

(** A response of the generation service whose card carries an id. *)
Definition response_with_id : jsstring :=
  text "{'title':'t','cards':[{'id':'keep','simplified':'a'}]}".

End Demo.

(** A host whose generation service answers every prompt with the same deck
    of two cards. *)
Module Online.

Definition answer : jsstring :=
  Demo.text "{'title':'Greetings','cards':[{'simplified':'A','traditional':'B','pinyin':'a','english':'hello','examples':[]},{'simplified':'C','traditional':'D','pinyin':'c','english':'thanks','examples':[]}]}".

Definition host : Host := {|
  number := numlit;
  number_of_literal := fun n => n;
  number_truthy := @number_truthy Demo.host;
  number_to_json := Demo.print_numlit;
  Date_now := fun _ => 1700000000000%N;
  generateContent := fun _ => Some (Some answer);
  fetch_text := fun _ => None;
  drive_text := fun _ _ => None
|}.

Definition w0 : @World host := mkWorld (@initial_app host) None false [] [] [] [] 0.

(** The deck [parseResponse] makes of the answer. *)
Definition greetings : @value host :=
  VObj [(lit "title", VStr (lit "Greetings"));
        (lit "cards",
         VArr [VObj [(lit "simplified", VStr (lit "A"));
                     (lit "traditional", VStr (lit "B"));
                     (lit "pinyin", VStr (lit "a"));
                     (lit "english", VStr (lit "hello"));
                     (lit "examples", VArr []);
                     (lit "id", VStr (lit "card-1700000000000-0"))];
               VObj [(lit "simplified", VStr (lit "C"));
                     (lit "traditional", VStr (lit "D"));
                     (lit "pinyin", VStr (lit "c"));
                     (lit "english", VStr (lit "thanks"));
                     (lit "examples", VArr []);
                     (lit "id", VStr (lit "card-1700000000000-1"))]])].

(** The JSON text of the array of the two words ni hao and xie xie. *)
Definition two_words : jsstring :=
  [91; 34; 20320; 22909; 34; 44; 32; 34; 35874; 35874; 34; 93]%N.


(** The typed deck of it. *)
Definition greetings_deck : Deck :=
  mkDeck (lit "Greetings")
    [mkCard (lit "card-1700000000000-0") (lit "A") (lit "B") (lit "a")
       (lit "hello") [];
     mkCard (lit "card-1700000000000-1") (lit "C") (lit "D") (lit "c")
       (lit "thanks") []].

(** The form with a word typed in, before any deck is loaded. *)
Definition w_form : @World host :=
  mkWorld (@initial_app host) None false (lit "ni hao") [] [] [] 0.

End Online.

(** More decks, files and links to run the program on. *)
Module Cases.

Import Demo.

(** A deck without cards, and the session that holds it. *)
Definition empty_deck : value :=
  VObj [(lit "title", VStr (lit "Nothing")); (lit "cards", VArr [])].

Definition emptied : AppState := handleDeckGenerated empty_deck initial_app.

(** A deck file of the older format. *)
Definition legacy_file : jsstring :=
  text "{'title':'Old','cards':[{'simplified':'A','examples':[{'chinese':'X','english':'x'}]}]}".

Definition legacy_file_json : value :=
  VObj [(lit "title", VStr (lit "Old"));
        (lit "cards",
         VArr [VObj [(lit "simplified", VStr (lit "A"));
                     (lit "examples",
                      VArr [VObj [(lit "chinese", VStr (lit "X"));
                                  (lit "english", VStr (lit "x"))]])]])].

(** A deck file with properties the application does not know. *)
Definition annotated_file : jsstring :=
  text "{'title':'Old','author':'me','cards':[{'simplified':'A','note':'n'}]}".

Definition annotated_file_json : value :=
  VObj [(lit "title", VStr (lit "Old"));
        (lit "author", VStr (lit "me"));
        (lit "cards",
         VArr [VObj [(lit "simplified", VStr (lit "A"));
                     (lit "note", VStr (lit "n"))]])].

(** The exported file of the deck of two cards. *)
Definition fruit_file : jsstring := elem_text 0 (deck_value fruit_deck).

(** The parsed response whose card carries an id and no examples. *)
Definition response_with_id_json : value :=
  VObj [(lit "title", VStr (lit "t"));
        (lit "cards",
         VArr [VObj [(lit "id", VStr (lit "keep"));
                     (lit "simplified", VStr (lit "a"))]])].

(** A response without a title. *)
Definition untitled_response : jsstring := text "{'cards':[]}".

(** The JSON text of an array of two words. *)
Definition two_words_json : value :=
  VArr [VStr [20320; 22909]%N; VStr [35874; 35874]%N].

(** A link to a Drive file, as the browser shows it. *)
Definition drive_link_prefix : jsstring := lit "https://drive.google.com/file".
Definition drive_link_id : jsstring := lit "1AbC_d-9".
Definition drive_link_rest : jsstring := lit "/view?usp=sharing".

(** An example of the older format. *)
Definition legacy_example_value : value :=
  VObj [(lit "chinese", VStr [20320; 22909; 21527]%N);
        (lit "english", VStr (lit "How are you?"))].

(** The form with a word typed in, before any deck is loaded. *)
Definition w_form : World :=
  mkWorld initial_app None false (lit "ni hao") [] [] [] 0.

(** A deck file that names its properties in an order of its own; the
    example has no pinyin. *)
Definition mixed_file : jsstring :=
  text "{'cards':[{'english':'x','simplified':'A','examples':[{'english':'e','traditional':'t','simplified':'s'}],'pinyin':'a','id':'k1','traditional':'B'}],'title':'Mixed'}".

Definition mixed_deck : Deck :=
  mkDeck (lit "Mixed")
    [mkCard (lit "k1") (lit "A") (lit "B") (lit "a") (lit "x")
       [mkExample (lit "s") (lit "t") None (lit "e")]].

(** A session: a deck is loaded, the user moves on and flips, goes back to
    the start of the application before the timer has expired, loads the
    deck again once it has, and moves on with the right arrow. *)
Definition back_at_the_deck : list SessionEvent :=
  [Deliver (deck_value fruit_deck); Do PressNext; Do PressFlip; Reset;
   Do Expire; Deliver (deck_value fruit_deck); Key false "ArrowRight";
   Do Expire].

(** A hasty session: the user moves on, goes back to the start and has a
    deck of one card loaded before the timer of the move has expired. *)
Definition hasty : list SessionEvent :=
  [Deliver (deck_value fruit_deck); Do PressNext; Reset;
   Deliver (deck_value renamed_deck); Do Expire].

(** The card the importer makes of the card of [legacy_file]. *)
Definition legacy_imported_card : value :=
  VObj [(lit "simplified", VStr (lit "A"));
        (lit "examples",
         VArr [VObj [(lit "simplified", VStr (lit "X"));
                     (lit "traditional", VStr (lit "X"));
                     (lit "pinyin", VUndefined);
                     (lit "english", VStr (lit "x"))]]);
        (lit "id", VStr (lit "imported-1700000000000-0"))].

End Cases.

(* ================================================================= *)
(** * Properties *)

Unset Implicit Arguments.

Section Properties.

Context {host : Host}.

(** ** Equality of strings *)

Lemma jsstring_eqb_eq (a b : jsstring) : jsstring_eqb a b = true <-> a = b.
Proof.
  unfold jsstring_eqb. destruct (jsstring_eq_dec a b); split; congruence.
Qed.

Lemma jsstring_eqb_refl (a : jsstring) : jsstring_eqb a a = true.
Proof. now apply jsstring_eqb_eq. Qed.

Lemma jsstring_eqb_neq (a b : jsstring) : a <> b -> jsstring_eqb a b = false.
Proof.
  unfold jsstring_eqb. destruct (jsstring_eq_dec a b); congruence.
Qed.

(** ** Review session *)

Lemma js_next_in_range (n i : Z) :
  (0 <= i < n)%Z ->
  js_rem (js_add (Fin i) (Fin 1)) (Fin n) = Fin ((i + 1) mod n).
Proof.
  intros Hi. simpl.
  destruct (Z.eqb_spec n 0) as [->|Hn]; [lia|].
  rewrite Z.rem_mod_nonneg by lia. reflexivity.
Qed.

Lemma js_prev_in_range (n i : Z) :
  (0 <= i < n)%Z ->
  js_rem (js_add (js_sub (Fin i) (Fin 1)) (Fin n)) (Fin n) = Fin ((i - 1) mod n).
Proof.
  intros Hi. simpl.
  destruct (Z.eqb_spec n 0) as [->|Hn]; [lia|].
  rewrite Z.rem_mod_nonneg by lia.
  f_equal. rewrite <- (Z.mod_add (i - 1) 1 n) by lia. f_equal. lia.
Qed.

Section Navigation.

Variables (d : value) (items : list value).
Hypothesis Hcards : prop d "cards" = inr (VArr items).
Hypothesis Hitems : items <> [].

Let n := Z.of_nat (List.length items).

Lemma cards_length_items : cards_length d = Some (Fin n).
Proof. unfold cards_length. now rewrite Hcards. Qed.

Lemma n_pos : (0 < n)%Z.
Proof. subst n. destruct items; [congruence | simpl; lia]. Qed.

Lemma handleNext_loaded (s : AppState) :
  deck s = Some d ->
  handleNext s
  = mkApp (Some d) (js_rem (js_add (currentCardIndex s) (Fin 1)) (Fin n)) false
      (scriptMode s).
Proof.
  intros Hd. unfold handleNext. rewrite Hd, cards_length_items.
  unfold setCurrentCardIndex, setIsFlipped. cbn. now rewrite Hd.
Qed.

Lemma handlePrev_loaded (s : AppState) :
  deck s = Some d ->
  handlePrev s
  = mkApp (Some d)
      (js_rem (js_add (js_sub (currentCardIndex s) (Fin 1)) (Fin n)) (Fin n)) false
      (scriptMode s).
Proof.
  intros Hd. unfold handlePrev. rewrite Hd, cards_length_items.
  unfold setCurrentCardIndex, setIsFlipped. cbn. now rewrite Hd.
Qed.

Lemma handleNext_iter (k : nat) (s : AppState) (i : Z) :
  deck s = Some d -> currentCardIndex s = Fin i -> (0 <= i < n)%Z ->
  deck (Nat.iter k handleNext s) = Some d /\
  currentCardIndex (Nat.iter k handleNext s) = Fin ((i + Z.of_nat k) mod n).
Proof.
  intros Hd Hi Hr. pose proof n_pos as Hn. induction k as [|k [IHd IHi]].
  - simpl. split; [assumption|]. rewrite Hi, Z.add_0_r, Z.mod_small by lia. reflexivity.
  - rewrite !Nat.iter_succ, (handleNext_loaded _ IHd). cbn [deck currentCardIndex].
    split; [reflexivity|]. rewrite IHi.
    rewrite js_next_in_range by (apply Z.mod_pos_bound; lia).
    f_equal. rewrite Zplus_mod_idemp_l. f_equal. lia.
Qed.

Lemma handlePrev_iter (k : nat) (s : AppState) (i : Z) :
  deck s = Some d -> currentCardIndex s = Fin i -> (0 <= i < n)%Z ->
  deck (Nat.iter k handlePrev s) = Some d /\
  currentCardIndex (Nat.iter k handlePrev s) = Fin ((i - Z.of_nat k) mod n).
Proof.
  intros Hd Hi Hr. pose proof n_pos as Hn. induction k as [|k [IHd IHi]].
  - simpl. split; [assumption|]. rewrite Hi, Z.sub_0_r, Z.mod_small by lia. reflexivity.
  - rewrite !Nat.iter_succ, (handlePrev_loaded _ IHd). cbn [deck currentCardIndex].
    split; [reflexivity|]. rewrite IHi.
    rewrite js_prev_in_range by (apply Z.mod_pos_bound; lia).
    f_equal. rewrite Zminus_mod_idemp_l. f_equal. lia.
Qed.

End Navigation.

(** C5. In a deck of N >= 1 cards, from every position of the deck, N
    presses of next bring [currentCardIndex] back to where it started, and
    so do N presses of previous. *)
Theorem next_prev_full_cycle (s : AppState) (d : value) (items : list value) (i : Z) :
  deck s = Some d ->
  prop d "cards" = inr (VArr items) ->
  items <> [] ->
  currentCardIndex s = Fin i ->
  (0 <= i < Z.of_nat (List.length items))%Z ->
  currentCardIndex (Nat.iter (List.length items) handleNext s) = currentCardIndex s /\
  currentCardIndex (Nat.iter (List.length items) handlePrev s) = currentCardIndex s.
Proof.
  intros Hd Hc Hne Hi Hr.
  assert (Hn : (0 < Z.of_nat (List.length items))%Z) by (eapply n_pos; eassumption).
  destruct (handleNext_iter d items Hc Hne (List.length items) s i Hd Hi Hr) as [_ Hnext].
  destruct (handlePrev_iter d items Hc Hne (List.length items) s i Hd Hi Hr) as [_ Hprev].
  rewrite Hnext, Hprev, Hi. split; f_equal.
  - rewrite <- (Z.mul_1_l (Z.of_nat (List.length items))) at 1.
    rewrite Z.mod_add by lia. apply Z.mod_small; lia.
  - replace (i - Z.of_nat (List.length items))%Z
      with (i + (-1) * Z.of_nat (List.length items))%Z by lia.
    rewrite Z.mod_add by lia. apply Z.mod_small; lia.
Qed.

Lemma handleNext_deck (s : AppState) : deck (handleNext s) = deck s.
Proof.
  unfold handleNext. destruct (deck s) as [d|] eqn:E; [|exact E].
  destruct (cards_length d); exact E.
Qed.

Lemma handlePrev_deck (s : AppState) : deck (handlePrev s) = deck s.
Proof.
  unfold handlePrev. destruct (deck s) as [d|] eqn:E; [|exact E].
  destruct (cards_length d); exact E.
Qed.

(** In every state the application reaches with a deck of at least one card,
    the card index is a position of the deck. *)
Lemma reachable_index_in_range (s : AppState) :
  reachable s ->
  forall d items,
    deck s = Some d -> prop d "cards" = inr (VArr items) -> items <> [] ->
    exists i, currentCardIndex s = Fin i
              /\ (0 <= i < Z.of_nat (List.length items))%Z.
Proof.
  induction 1 as [|s d' Hs IH|s Hs IH|s Hs IH|s Hs IH Hd|s Hs IH|s Hs IH];
    intros d items Hdeck Hcards Hne.
  - discriminate.
  - exists 0%Z. split; [reflexivity|].
    destruct items; [congruence | cbn [List.length]; lia].
  - rewrite handleNext_deck in Hdeck.
    destruct (IH d items Hdeck Hcards Hne) as (i & Hi & Hr).
    rewrite (handleNext_loaded d items Hcards s Hdeck). cbn [currentCardIndex].
    rewrite Hi, js_next_in_range by exact Hr.
    eexists. split; [reflexivity|]. apply Z.mod_pos_bound. lia.
  - rewrite handlePrev_deck in Hdeck.
    destruct (IH d items Hdeck Hcards Hne) as (i & Hi & Hr).
    rewrite (handlePrev_loaded d items Hcards s Hdeck). cbn [currentCardIndex].
    rewrite Hi, js_prev_in_range by exact Hr.
    eexists. split; [reflexivity|]. apply Z.mod_pos_bound. lia.
  - apply (IH d items Hdeck Hcards Hne).
  - discriminate.
  - apply (IH d items Hdeck Hcards Hne).
Qed.

(** With no deck loaded the card is never flipped. *)
Lemma reachable_no_deck_unflipped (s : AppState) :
  reachable s -> deck s = None -> isFlipped s = false.
Proof.
  induction 1; intros Hnone; try reflexivity; cbn in *; try congruence.
  - unfold handleNext in *. destruct (deck s) eqn:E; [|auto].
    destruct (cards_length v); reflexivity.
  - unfold handlePrev in *. destruct (deck s) eqn:E; [|auto].
    destruct (cards_length v); reflexivity.
  - auto.
Qed.

Lemma handleNext_unflips (s : AppState) :
  deck s <> None -> isFlipped (handleNext s) = false.
Proof.
  unfold handleNext. destruct (deck s) as [d|]; [intros _|congruence].
  destruct (cards_length d); reflexivity.
Qed.

Lemma handlePrev_unflips (s : AppState) :
  deck s <> None -> isFlipped (handlePrev s) = false.
Proof.
  unfold handlePrev. destruct (deck s) as [d|]; [intros _|congruence].
  destruct (cards_length d); reflexivity.
Qed.

(** C6. Two flips in a row give back the flip state they started from; and
    in every state of a session (a state with a deck loaded, or any state the
    application reaches) next and previous leave the card unflipped, whatever
    the flip state was. *)
Theorem flip_involutive_nav_unflips (s : AppState) :
  deck s <> None \/ reachable s ->
  isFlipped (handleFlip (handleFlip s)) = isFlipped s /\
  isFlipped (handleNext s) = false /\
  isFlipped (handlePrev s) = false.
Proof.
  intros Hs. split; [apply negb_involutive|].
  destruct (deck s) as [d|] eqn:Hd.
  - split; [apply handleNext_unflips | apply handlePrev_unflips]; congruence.
  - destruct Hs as [Hs|Hs]; [congruence|].
    unfold handleNext, handlePrev. rewrite Hd.
    split; apply reachable_no_deck_unflipped; assumption.
Qed.

(** C9. [toggleScriptMode] switches the script preference to the other
    script and touches nothing else: the card index, the deck and the flip
    state stay; applied twice it gives the state back. *)
Theorem toggleScriptMode_frame (s : AppState) :
  scriptMode (toggleScriptMode s)
    = match scriptMode s with Simplified => Traditional | Traditional => Simplified end /\
  scriptMode (toggleScriptMode s) <> scriptMode s /\
  currentCardIndex (toggleScriptMode s) = currentCardIndex s /\
  deck (toggleScriptMode s) = deck s /\
  isFlipped (toggleScriptMode s) = isFlipped s /\
  toggleScriptMode (toggleScriptMode s) = s.
Proof.
  destruct s as [d i f m]. cbn. destruct m; repeat split; congruence.
Qed.

(** ** Deck schema validator *)

Lemma has_string_lookup (ps : props_t) (k : string) :
  has_string ps k = true <-> exists t, lookup (lit k) ps = Some (VStr t).
Proof.
  unfold has_string. destruct (lookup (lit k) ps) as [[]|]; cbn; split;
    try discriminate; try (intros [t Ht]; discriminate); eauto.
Qed.

(** What [isValidDeck] looks at: the value is an object, its [title] is a
    string and its [cards] is an array. *)
Lemma isValidDeck_iff (v : value) :
  isValidDeck v = true <->
  exists ps t items,
    v = VObj ps /\ lookup (lit "title") ps = Some (VStr t)
    /\ lookup (lit "cards") ps = Some (VArr items).
Proof.
  split.
  - unfold isValidDeck. destruct v; cbn; try discriminate.
    destruct (lookup (lit "title") props) as [[]|] eqn:Ht; try discriminate.
    destruct (lookup (lit "cards") props) as [[]|] eqn:Hc; try discriminate.
    intros _. eauto 6.
  - intros (ps & t & items & -> & Ht & Hc). unfold isValidDeck. cbn.
    now rewrite Ht, Hc.
Qed.

(** C3 (as the code has it). [isValidDeck] accepts exactly the objects with
    a string [title] and an array [cards]; it does not look inside the cards.
    Every value of the canonical deck shape is accepted, and so are values
    whose cards lack fields. *)
Theorem isValidDeck_checks_title_and_cards (v : value) :
  (isValidDeck v = true <->
   exists ps t items,
     v = VObj ps /\ lookup (lit "title") ps = Some (VStr t)
     /\ lookup (lit "cards") ps = Some (VArr items))
  /\ (spec_deck_shape v = true -> isValidDeck v = true)
  /\ (forall ps t items,
        lookup (lit "title") ps = Some (VStr t) ->
        isValidDeck (VObj (define (lit "cards") (VArr items) ps)) = true).
Proof.
  split; [apply isValidDeck_iff|]. split.
  - destruct v; try discriminate. cbn.
    intros H. apply andb_prop in H as [Ht Hc].
    apply has_string_lookup in Ht as [t Ht].
    destruct (lookup (lit "cards") props) as [[]|] eqn:E; try discriminate.
    apply isValidDeck_iff. eauto 6.
  - intros ps t items Ht. apply isValidDeck_iff.
    exists (define (lit "cards") (VArr items) ps), t, items.
    split; [reflexivity|]. split.
    + clear -Ht. induction ps as [|[k x] ps IH]; [discriminate|].
      cbn in *. destruct (jsstring_eqb (lit "cards") k) eqn:Ek.
      * cbn. apply jsstring_eqb_eq in Ek. subst k. exact Ht.
      * cbn. destruct (jsstring_eqb (lit "title") k); [assumption | auto].
    + clear. induction ps as [|[k x] ps IH]; [reflexivity|].
      cbn. destruct (jsstring_eqb (lit "cards") k) eqn:Ek; cbn; rewrite Ek; auto.
Qed.

(** ** Properties of objects *)

Lemma lookup_define_same k v (ps : props_t) : lookup k (define k v ps) = Some v.
Proof.
  induction ps as [|[k' x] ps IH]; cbn.
  - now rewrite jsstring_eqb_refl.
  - destruct (jsstring_eqb k k') eqn:E; cbn; rewrite E; auto.
Qed.

Lemma lookup_define_other k k' v (ps : props_t) :
  jsstring_eqb k k' = false -> lookup k (define k' v ps) = lookup k ps.
Proof.
  intros Hk. induction ps as [|[k2 x] ps IH]; cbn.
  - now rewrite Hk.
  - destruct (jsstring_eqb k' k2) eqn:E; cbn.
    + apply jsstring_eqb_eq in E. subst k2. now rewrite Hk.
    + destruct (jsstring_eqb k k2); auto.
Qed.

Lemma has_cards_define ys (ps : props_t) :
  has_cards (VObj (define (lit "cards") (VArr ys) ps)).
Proof. exists ys. unfold prop. now rewrite lookup_define_same. Qed.

(** ** Effects of the ingestion *)

Lemma bind_inv {A B} (m : M A) (k : A -> M B) w r w' :
  bind m k w = (r, w') ->
  (exists a w1, m w = (inr a, w1) /\ k a w1 = (r, w'))
  \/ (exists e, m w = (inl e, w') /\ r = inl e).
Proof.
  unfold bind. destruct (m w) as [[e|a] w1]; intros H.
  - right. inversion H; subst. eauto.
  - left. eauto.
Qed.

(** Computations that keep a relation between the world before and after:
    the parts of the ingestion that only compute and read the clock keep
    every relation that reading the clock keeps. *)
Section Frame.

Variable R : World -> World -> Prop.
Hypothesis R_refl : forall w, R w w.
Hypothesis R_trans : forall w1 w2 w3, R w1 w2 -> R w2 w3 -> R w1 w3.
Hypothesis R_tick : forall w, R w (snd (now w)).

Lemma keeps_ret {A} (a : A) : keeps R (ret a).
Proof. intros w r w' H. inversion H; subst. apply R_refl. Qed.

Lemma keeps_throw {A} (e : exn) : keeps R (throw e : M A).
Proof. intros w r w' H. inversion H; subst. apply R_refl. Qed.

Lemma keeps_lift {A} (x : exn + A) : keeps R (lift x).
Proof. intros w r w' H. inversion H; subst. apply R_refl. Qed.

Lemma keeps_bind {A B} (m : M A) (k : A -> M B) :
  keeps R m -> (forall a, keeps R (k a)) -> keeps R (bind m k).
Proof.
  intros Hm Hk w r w' H. apply bind_inv in H as [(a & w1 & H1 & H2)|(e & H1 & _)].
  - eapply R_trans; [eapply Hm | eapply Hk]; eassumption.
  - eapply Hm; eassumption.
Qed.

Lemma keeps_now : keeps R now.
Proof. intros w r w' H. specialize (R_tick w). now rewrite H in R_tick. Qed.

Lemma keeps_map_from {A} (f : value -> nat -> M A) items :
  (forall x i, keeps R (f x i)) -> forall i, keeps R (map_from i f items).
Proof.
  intros Hf. induction items as [|x t IH]; intros i; cbn.
  - apply keeps_ret.
  - apply keeps_bind; [apply Hf|]. intros y.
    apply keeps_bind; [apply IH|]. intros ys. apply keeps_ret.
Qed.

Lemma keeps_array_map v f :
  (forall x i, keeps R (f x i)) -> keeps R (array_map v f).
Proof.
  intros Hf. destruct v; cbn; try apply keeps_throw.
  apply keeps_bind; [now apply keeps_map_from|]. intros. apply keeps_ret.
Qed.

Ltac keeps_step :=
  lazymatch goal with
  | |- keeps _ (ret _) => apply keeps_ret
  | |- keeps _ (throw _) => apply keeps_throw
  | |- keeps _ (lift _) => apply keeps_lift
  | |- keeps _ now => apply keeps_now
  | |- keeps _ (bind _ _) => apply keeps_bind; [|intros ?]
  | |- keeps _ (array_map _ _) => apply keeps_array_map; intros ? ?
  end.

Lemma keeps_with_card_id card index : keeps R (with_card_id card index).
Proof. unfold with_card_id. repeat keeps_step. Qed.

Lemma keeps_parseResponse text : keeps R (parseResponse text).
Proof.
  unfold parseResponse. destruct text as [[|c t]|]; try apply keeps_throw.
  destruct (JSON_parse (c :: t)); [|apply keeps_throw].
  repeat keeps_step. apply keeps_with_card_id.
Qed.

Lemma keeps_import_example ex i : keeps R (import_example ex i).
Proof. unfold import_example. repeat keeps_step. Qed.

Lemma keeps_id_or_fresh cid i : keeps R (id_or_fresh cid i).
Proof. unfold id_or_fresh. destruct (truthy cid); repeat keeps_step. Qed.

Lemma keeps_import_card c i : keeps R (import_card c i).
Proof.
  unfold import_card. repeat keeps_step.
  - destruct a; repeat keeps_step; apply keeps_import_example.
  - apply keeps_id_or_fresh.
Qed.

Lemma keeps_import_card_id c i : keeps R (import_card_id c i).
Proof. unfold import_card_id. repeat keeps_step. apply keeps_id_or_fresh. Qed.

End Frame.

Lemma same_session_refl w : same_session w w.
Proof. repeat split. Qed.

Lemma same_session_trans w1 w2 w3 :
  same_session w1 w2 -> same_session w2 w3 -> same_session w1 w3.
Proof.
  unfold same_session. intros (?&?&?&?&?&?) (?&?&?&?&?&?).
  repeat split; congruence.
Qed.

Lemma same_session_tick w : same_session w (snd (now w)).
Proof. repeat split. Qed.

Lemma same_requests_trans w1 w2 w3 :
  same_requests w1 w2 -> same_requests w2 w3 -> same_requests w1 w3.
Proof. unfold same_requests. congruence. Qed.

Lemma quiet_generate prompt : quiet (generate prompt).
Proof.
  intros w r w' H. unfold generate in H.
  destruct (generateContent prompt); inversion H; subst; repeat split.
Qed.

Lemma quiet_array_map v f :
  (forall x i, quiet (f x i)) -> quiet (array_map v f).
Proof.
  apply keeps_array_map;
    [apply same_session_refl | apply same_session_trans].
Qed.

Lemma quiet_import_card c i : quiet (import_card c i).
Proof.
  apply keeps_import_card;
    [apply same_session_refl | apply same_session_trans | apply same_session_tick].
Qed.

Lemma quiet_import_card_id c i : quiet (import_card_id c i).
Proof.
  apply keeps_import_card_id;
    [apply same_session_refl | apply same_session_trans | apply same_session_tick].
Qed.

Lemma quiet_parseResponse text : quiet (parseResponse text).
Proof.
  apply keeps_parseResponse;
    [apply same_session_refl | apply same_session_trans | apply same_session_tick].
Qed.

Lemma offline_parseResponse text : offline (parseResponse text).
Proof.
  apply keeps_parseResponse;
    [reflexivity | apply same_requests_trans | reflexivity].
Qed.

Lemma offline_import_cards cs : offline (array_map cs import_card).
Proof.
  apply keeps_array_map; [reflexivity | apply same_requests_trans|].
  intros x i. apply keeps_import_card;
    [reflexivity | apply same_requests_trans | reflexivity].
Qed.

Lemma offline_import_card_ids cs : offline (array_map cs import_card_id).
Proof.
  apply keeps_array_map; [reflexivity | apply same_requests_trans|].
  intros x i. apply keeps_import_card_id;
    [reflexivity | apply same_requests_trans | reflexivity].
Qed.

Lemma quiet_generateDeckFromList content : quiet (generateDeckFromList content).
Proof.
  unfold generateDeckFromList.
  apply keeps_bind; [apply same_session_trans | apply quiet_generate |].
  intros a. apply quiet_parseResponse.
Qed.

Lemma array_map_result v f w r w' :
  array_map v f w = (inr r, w') -> exists ys, r = VArr ys.
Proof.
  destruct v; try discriminate. cbn [array_map]. intros H.
  apply bind_inv in H as [(ys & w1 & _ & H)|(e & _ & He)]; [|discriminate].
  inversion H; subst. eauto.
Qed.

Lemma parseResponse_cards text w d w' :
  parseResponse text w = (inr d, w') -> has_cards d.
Proof.
  unfold parseResponse. destruct text as [[|u text]|]; try discriminate.
  destruct (JSON_parse (u :: text)) as [data|]; [|discriminate]. intros H.
  apply bind_inv in H as [(cs & w1 & _ & H)|(e & _ & He)]; [|discriminate].
  apply bind_inv in H as [(cards & w2 & H2 & H)|(e & _ & He)]; [|discriminate].
  apply bind_inv in H as [(title & w3 & _ & H)|(e & _ & He)]; [|discriminate].
  inversion H; subst d w'.
  apply array_map_result in H2 as [ys ->]. now exists ys.
Qed.

Lemma generateDeckFromList_cards content w d w' :
  generateDeckFromList content w = (inr d, w') -> has_cards d.
Proof.
  unfold generateDeckFromList. intros H.
  apply bind_inv in H as [(text & w1 & _ & H)|(e & _ & He)]; [|discriminate].
  eapply parseResponse_cards; eassumption.
Qed.

(** [generateDeckFromList] sends exactly one request, with the prompt built
    around the content. *)
Lemma generateDeckFromList_requests content w r w' :
  generateDeckFromList content w = (r, w') ->
  requests w' = requests w ++ [list_prompt content].
Proof.
  unfold generateDeckFromList, bind, generate.
  destruct (generateContent (list_prompt content)) as [text|].
  - intros H. apply offline_parseResponse in H. exact H.
  - intros H. inversion H; subst. reflexivity.
Qed.

Lemma deliver_after_quiet (m : M value) (b : bool) w :
  quiet m ->
  match (d <- m ;; onDeckGenerated d ;;; ret b) w with
  | (inr b', w') =>
      b' = b /\ exists d w1,
        m w = (inr d, w1) /\ app w' = handleDeckGenerated d (app w)
        /\ delivered w' = delivered w ++ [d] /\ shown w' = shown w
        /\ error w' = error w /\ requests w' = requests w1
  | (inl e, w') => m w = (inl e, w')
  end.
Proof.
  intros Hq. unfold bind. destruct (m w) as [[e|d] w1] eqn:Hm; [reflexivity|].
  cbn. split; [reflexivity|]. exists d, w1.
  destruct (Hq _ _ _ Hm) as (Ha & He & _ & _ & Hd & Hs).
  rewrite Ha, Hd, Hs, He. repeat split.
Qed.

Lemma processContent_json_cases content w :
  match processContent_json content w with
  | (inr (Some b), w') =>
      b = true /\ exists d,
        app w' = handleDeckGenerated d (app w)
        /\ delivered w' = delivered w ++ [d] /\ shown w' = shown w
        /\ error w' = error w /\ isLoading w' = isLoading w
        /\ has_cards d
  | (inr None, w') => w' = w
  | (inl _, w') => same_session w w'
  end.
Proof.
  unfold processContent_json.
  destruct (JSON_parse content) as [json|]; [|reflexivity].
  destruct (truthy json); [|reflexivity].
  destruct (isValidDeck json).
  - unfold bind at 1. unfold lift.
    destruct (prop json "cards") as [e|cs]; [apply same_session_refl|].
    unfold bind at 1.
    destruct (array_map cs import_card w) as [[e|cards] w1] eqn:Hm;
      pose proof (quiet_array_map cs import_card quiet_import_card _ _ _ Hm) as Hq;
      [exact Hq|].
    apply array_map_result in Hm as [ys ->].
    cbn. destruct Hq as (Ha & He & Hl & _ & Hd & Hs).
    split; [reflexivity|]. eexists. rewrite Ha, Hd, Hs, He, Hl.
    repeat split. apply has_cards_define.
  - destruct (string_array json) as [strs|]; [|reflexivity].
    pose proof (deliver_after_quiet (generateDeckFromList (join nl strs)) true w
                  (quiet_generateDeckFromList _)) as H.
    unfold bind in *.
    destruct (generateDeckFromList (join nl strs) w) as [[e|d] w1] eqn:Hg.
    + eapply quiet_generateDeckFromList; eassumption.
    + cbn in *. destruct H as (_ & d' & w1' & Heq & Ha & Hd & Hs & He & _).
      inversion Heq; subst d' w1'.
      destruct (quiet_generateDeckFromList _ _ _ _ Hg) as (_ & _ & Hl & _).
      split; [reflexivity|]. exists d. cbn.
      repeat split; try assumption. eapply generateDeckFromList_cards; eassumption.
Qed.

(** [processContent] ends in one of two ways: the deck is delivered once and
    no message is shown, or its one message is shown and nothing is delivered. *)
Lemma processContent_cases content w :
  match processContent content w with
  | (inr true, w') =>
      exists d,
        app w' = handleDeckGenerated d (app w)
        /\ delivered w' = delivered w ++ [d] /\ shown w' = shown w
        /\ error w' = error w /\ isLoading w' = isLoading w
        /\ has_cards d
  | (inr false, w') =>
      app w' = app w /\ delivered w' = delivered w
      /\ shown w' = shown w ++ [processContent_error]
      /\ error w' = Some processContent_error /\ isLoading w' = isLoading w
  | (inl _, _) => False
  end.
Proof.
  unfold processContent, try_catch.
  pose proof (processContent_json_cases content w) as Hj.
  unfold bind at 1.
  destruct (processContent_json content w) as [[e|[b|]] w1].
  - cbn. destruct Hj as (Ha & _ & Hl & _ & Hd & Hs). rewrite Ha, Hd, Hs, Hl. repeat split.
  - destruct Hj as (-> & d & H). cbn. eauto.
  - subst w1. destruct (is_blank content).
    + cbn. repeat split.
    + pose proof (deliver_after_quiet (generateDeckFromList content) true w
                    (quiet_generateDeckFromList _)) as H.
      unfold bind in *.
      destruct (generateDeckFromList content w) as [[e|d] w1] eqn:Hg.
      * cbn. destruct (quiet_generateDeckFromList _ _ _ _ Hg) as (Ha & _ & Hl & _ & Hd & Hs).
        rewrite Ha, Hd, Hs, Hl. repeat split.
      * cbn in *. destruct H as (_ & d' & w1' & Heq & Ha & Hd & Hs & He & _).
        inversion Heq; subst d' w1'.
        destruct (quiet_generateDeckFromList _ _ _ _ Hg) as (_ & _ & Hl & _).
        exists d. repeat split; try assumption.
        eapply generateDeckFromList_cards; eassumption.
Qed.

Lemma processJsonContent_cases content w :
  match processJsonContent content w with
  | (inr true, w') =>
      exists d,
        app w' = handleDeckGenerated d (app w)
        /\ delivered w' = delivered w ++ [d] /\ shown w' = shown w
        /\ has_cards d
  | (inr false, w') =>
      exists msg,
        app w' = app w /\ delivered w' = delivered w
        /\ shown w' = shown w ++ [msg] /\ error w' = Some msg
  | (inl _, _) => False
  end.
Proof.
  unfold processJsonContent, try_catch.
  destruct (JSON_parse content) as [json|]; [|cbn; eexists; repeat split].
  destruct (isValidDeck json).
  - unfold bind at 1. unfold lift.
    destruct (prop json "cards") as [e|cs]; [cbn; eexists; repeat split|].
    unfold bind at 1.
    destruct (array_map cs import_card_id w) as [[e|cards] w1] eqn:Hm;
      destruct (quiet_array_map cs import_card_id quiet_import_card_id _ _ _ Hm)
        as (Ha & _ & _ & _ & Hd & Hs); cbn; rewrite Ha, Hd, Hs;
      [eexists; repeat split|].
    apply array_map_result in Hm as [ys ->].
    eexists. repeat split. apply has_cards_define.
  - destruct (string_array json) as [strs|]; [|cbn; eexists; repeat split].
    pose proof (deliver_after_quiet (generateDeckFromList (join nl strs)) true w
                  (quiet_generateDeckFromList _)) as H.
    unfold bind in *.
    destruct (generateDeckFromList (join nl strs) w) as [[e|d] w1] eqn:Hg.
    + cbn. destruct (quiet_generateDeckFromList _ _ _ _ Hg) as (Ha & _ & _ & _ & Hd & Hs).
      rewrite Ha, Hd, Hs. eexists; repeat split.
    + cbn in *. destruct H as (_ & d' & w1' & Heq & Ha & Hd & Hs & _).
      inversion Heq; subst d' w1'.
      exists d. repeat split; try assumption.
      eapply generateDeckFromList_cards; eassumption.
Qed.

Lemma outcome_pre w w1 w2 : same_log w w1 -> outcome w1 w2 -> outcome w w2.
Proof.
  intros (Ha & Hd & Hs) [d H0 H1 H2 H3|msg H1 H2 H3 H4|H1 H2 H3].
  - apply Delivered with d; congruence.
  - apply Failed with msg; congruence.
  - apply Ignored; congruence.
Qed.

Lemma outcome_post w w1 w2 :
  outcome w w1 -> same_log w1 w2 -> error w2 = error w1 -> outcome w w2.
Proof.
  intros [d H0 H1 H2 H3|msg H1 H2 H3 H4|H1 H2 H3] (Ha & Hd & Hs) He.
  - apply Delivered with d; congruence.
  - apply Failed with msg; congruence.
  - apply Ignored; congruence.
Qed.

Lemma processContent_outcome content w :
  outcome w (snd (processContent content w)).
Proof.
  pose proof (processContent_cases content w) as H.
  destruct (processContent content w) as [[e|[|]] w']; cbn; [contradiction| |].
  - destruct H as (d & Ha & Hd & Hs & _ & _ & Hc). now apply Delivered with d.
  - destruct H as (Ha & Hd & Hs & He & _). now apply Failed with processContent_error.
Qed.

Lemma processJsonContent_outcome content w :
  outcome w (snd (processJsonContent content w)).
Proof.
  pose proof (processJsonContent_cases content w) as H.
  destruct (processJsonContent content w) as [[e|[|]] w']; cbn; [contradiction| |].
  - destruct H as (d & Ha & Hd & Hs & Hc). now apply Delivered with d.
  - destruct H as (msg & Ha & Hd & Hs & He). now apply Failed with msg.
Qed.

Lemma and_then_unit_snd {A} (m : M A) w :
  (forall e w', m w <> (inl e, w')) ->
  snd ((m ;;; ret tt) w) = snd (m w).
Proof.
  unfold bind. destruct (m w) as [[e|a] w'] eqn:E; intros H; [|reflexivity].
  exfalso. eapply H. reflexivity.
Qed.

Lemma handleManualSubmit_outcome w : outcome w (snd (handleManualSubmit w)).
Proof.
  unfold handleManualSubmit. destruct (trim (inputValue w)); [now apply Ignored|].
  unfold finally, try_catch, setError, modify. unfold bind at 1.
  set (w1 := mkWorld _ _ _ _ _ _ _ _).
  assert (Hpre : same_log w w1) by (repeat split).
  pose proof (deliver_after_quiet (generateDeckFromList (inputValue w)) true w1
                (quiet_generateDeckFromList _)) as H.
  unfold bind in *.
  destruct (generateDeckFromList (inputValue w) w1) as [[e|d] w2] eqn:Hg; cbn in *.
  - destruct (quiet_generateDeckFromList _ _ _ _ Hg) as (Ha & _ & _ & _ & Hd & Hs).
    eapply outcome_pre; [exact Hpre|].
    apply Failed with "Failed to generate deck. Please try again."%string;
      subst w1; cbn in *; congruence.
  - destruct H as (_ & d' & w' & Heq & Ha & Hd & Hs & _).
    inversion Heq; subst d' w'.
    eapply outcome_pre; [exact Hpre|].
    apply Delivered with d;
      [eapply generateDeckFromList_cards; eassumption | subst w1; cbn in *; assumption ..].
Qed.

Lemma handleUrlSubmit_outcome w : outcome w (snd (handleUrlSubmit w)).
Proof.
  unfold handleUrlSubmit. destruct (trim (inputValue w)); [now apply Ignored|].
  unfold finally, try_catch, setError, modify. unfold bind at 1.
  set (w1 := mkWorld _ _ _ _ _ _ _ _).
  assert (Hpre : same_log w w1) by (repeat split).
  eapply outcome_pre; [exact Hpre|].
  destruct (fetch_text (inputValue w)) as [text|]; cbn.
  - pose proof (processContent_cases text w1) as H. unfold bind.
    destruct (processContent text w1) as [[e|[|]] w2]; cbn; [contradiction| |].
    + destruct H as (d & Ha & Hd & Hs & _ & _ & Hc). apply Delivered with d; subst w1; cbn in *; assumption.
    + destruct H as (Ha & Hd & Hs & He & _).
      apply Failed with processContent_error; subst w1; cbn in *; assumption.
  - eapply Failed; subst w1; cbn; reflexivity.
Qed.

Lemma handleFileUpload_outcome file w : outcome w (snd (handleFileUpload file w)).
Proof.
  unfold handleFileUpload. destruct file as [result|]; [|now apply Ignored].
  unfold setError, modify. unfold bind at 1 2. cbv beta iota.
  set (w1 := mkWorld _ _ _ _ _ _ _ _).
  assert (Hpre : same_log w w1) by (repeat split).
  eapply outcome_pre; [exact Hpre|].
  destruct result as [content|]; cbn.
  - pose proof (processContent_cases content w1) as H. unfold bind.
    destruct (processContent content w1) as [[e|[|]] w2]; cbn; [contradiction| |].
    + destruct H as (d & Ha & Hd & Hs & _ & _ & Hc). apply Delivered with d; subst w1; cbn in *; assumption.
    + destruct H as (Ha & Hd & Hs & He & _).
      apply Failed with processContent_error; subst w1; cbn in *; assumption.
  - eapply Failed; subst w1; cbn; reflexivity.
Qed.

Lemma fetchDriveFile_outcome fileId accessToken w :
  outcome w (snd (fetchDriveFile fileId accessToken w)).
Proof.
  unfold fetchDriveFile, finally, try_catch, setError, modify.
  destruct (drive_text fileId accessToken) as [text|]; cbn.
  - pose proof (processContent_cases text w) as H. unfold bind.
    destruct (processContent text w) as [[e|[|]] w2]; cbn; [contradiction| |].
    + destruct H as (d & Ha & Hd & Hs & _ & _ & Hc). apply Delivered with d; cbn; assumption.
    + destruct H as (Ha & Hd & Hs & He & _).
      apply Failed with processContent_error; cbn; assumption.
  - eapply Failed; cbn; reflexivity.
Qed.

(** Every ingestion action delivers one deck, or shows one message and
    leaves the session alone, or does nothing. *)
Lemma run_outcome (a : Action) (w : World) : outcome w (snd (run a w)).
Proof.
  destruct a; cbn [run].
  - apply handleManualSubmit_outcome.
  - apply handleUrlSubmit_outcome.
  - apply handleFileUpload_outcome.
  - apply fetchDriveFile_outcome.
  - rewrite and_then_unit_snd; [apply processContent_outcome|].
    intros e w' H. pose proof (processContent_cases content w) as Hc.
    now rewrite H in Hc.
  - rewrite and_then_unit_snd; [apply processJsonContent_outcome|].
    intros e w' H. pose proof (processJsonContent_cases content w) as Hc.
    now rewrite H in Hc.
Qed.

Lemma app_neq_self {A} (l : list A) (x : A) : l ++ [x] <> l.
Proof.
  intros H. apply (f_equal (@List.length A)) in H.
  rewrite length_app in H. cbn in H. lia.
Qed.

(** When an ingestion action shows an error message, the message is all that
    happens: [onDeckGenerated] is not called, and the deck, the card index
    and the flip state of the session are what they were. *)
Lemma message_is_all_that_happens (a : Action) (w : World) :
  shown (snd (run a w)) <> shown w ->
  (exists msg,
     shown (snd (run a w)) = shown w ++ [msg]
     /\ error (snd (run a w)) = Some msg)
  /\ delivered (snd (run a w)) = delivered w
  /\ app (snd (run a w)) = app w
  /\ deck (app (snd (run a w))) = deck (app w)
  /\ currentCardIndex (app (snd (run a w))) = currentCardIndex (app w)
  /\ isFlipped (app (snd (run a w))) = isFlipped (app w).
Proof.
  intros Hfail.
  destruct (run_outcome a w) as [d Hc Ha Hd Hs|msg Ha Hd Hs He|Ha Hd Hs];
    try contradiction.
  rewrite Ha. repeat split; eauto.
Qed.

(** Every deck an ingestion action delivers has an array under [cards]. *)
Lemma delivered_cards_array (a : Action) (w : World) :
  Forall has_cards (delivered w) ->
  Forall has_cards (delivered (snd (run a w))).
Proof.
  intros Hall.
  destruct (run_outcome a w) as [d Hc Ha Hd Hs|msg Ha Hd Hs He|Ha Hd Hs];
    rewrite Hd; [|assumption ..].
  apply Forall_app. split; [assumption | now constructor].
Qed.

(** So the deck of the session has one, after every action. *)
Lemma loaded_deck_cards_array (a : Action) (w : World) :
  (forall d, deck (app w) = Some d -> has_cards d) ->
  forall d, deck (app (snd (run a w))) = Some d -> has_cards d.
Proof.
  intros Hdeck d' Hd'.
  destruct (run_outcome a w) as [d Hc Ha Hd Hs|msg Ha Hd Hs He|Ha Hd Hs];
    rewrite Ha in Hd'; [|auto ..].
  cbn in Hd'. inversion Hd'; subst. exact Hc.
Qed.

(** ** Blank content *)

Lemma js_space_range (c : N) : is_js_space c = true -> (c <= 32 \/ 160 <= c)%N.
Proof.
  unfold is_js_space.
  repeat rewrite ?orb_true_iff, ?andb_true_iff, ?N.leb_le, ?N.eqb_eq. lia.
Qed.

Lemma json_space_is_js_space (c : N) : is_json_space c = true -> is_js_space c = true.
Proof.
  unfold is_json_space, is_js_space.
  repeat rewrite ?orb_true_iff, ?andb_true_iff, ?N.leb_le, ?N.eqb_eq. lia.
Qed.

Lemma skip_ws_head (s : jsstring) c t :
  skip_ws s = c :: t -> is_json_space c = false.
Proof.
  induction s as [|a s IH]; cbn; [discriminate|].
  destruct (is_json_space a) eqn:E; [exact IH|].
  intros H. inversion H; subst. exact E.
Qed.

Lemma skip_ws_spaces (s : jsstring) :
  forallb is_js_space s = true -> forallb is_js_space (skip_ws s) = true.
Proof.
  induction s as [|a s IH]; cbn; [reflexivity|].
  intros H. apply andb_prop in H as [Ha Hs].
  destruct (is_json_space a); [auto|]. cbn. now rewrite Ha, Hs.
Qed.

Ltac neq_unit c k :=
  destruct (N.eqb_spec c k) as [?|_]; [lia|].

(** A text of blanks holds no JSON value. *)
Lemma parse_value_blank (fuel : nat) (s : jsstring) :
  forallb is_js_space s = true -> parse_value (S fuel) s = PFail.
Proof.
  intros Hs. cbn [parse_value].
  pose proof (skip_ws_spaces s Hs) as Hrest.
  destruct (skip_ws s) as [|c t] eqn:E; [reflexivity|].
  apply skip_ws_head in E. cbn in Hrest. apply andb_prop in Hrest as [Hc _].
  assert (Hj : is_json_space c = false) by exact E.
  apply js_space_range in Hc.
  assert (c <> 32 /\ c <> 9 /\ c <> 10 /\ c <> 13)%N as Hne.
  { unfold is_json_space in Hj.
    repeat rewrite ?orb_false_iff, ?N.eqb_neq in Hj. tauto. }
  neq_unit c 123%N. neq_unit c 91%N. neq_unit c 34%N. neq_unit c 116%N.
  neq_unit c 102%N. neq_unit c 110%N.
  unfold parse_number. neq_unit c 45%N.
  unfold parse_int_part. neq_unit c 48%N.
  unfold is_digit.
  destruct (N.leb_spec 48 c); destruct (N.leb_spec c 57); cbn; try reflexivity; lia.
Qed.

Lemma JSON_parse_blank (s : jsstring) :
  forallb is_js_space s = true -> JSON_parse s = None.
Proof. intros H. unfold JSON_parse. now rewrite parse_value_blank. Qed.

Lemma trim_start_blank (s : jsstring) :
  forallb is_js_space s = true -> trim_start s = [].
Proof.
  induction s as [|a s IH]; cbn; [reflexivity|].
  intros H. apply andb_prop in H as [Ha Hs]. rewrite Ha. auto.
Qed.

Lemma trim_start_nil (s : jsstring) :
  trim_start s = [] -> forallb is_js_space s = true.
Proof.
  induction s as [|a s IH]; cbn; [reflexivity|].
  destruct (is_js_space a); [auto | discriminate].
Qed.

Lemma trim_start_head (s : jsstring) c t :
  trim_start s = c :: t -> is_js_space c = false.
Proof.
  induction s as [|a s IH]; cbn; [discriminate|].
  destruct (is_js_space a) eqn:E; [exact IH|].
  intros H. inversion H; subst. exact E.
Qed.

Lemma forallb_rev {A} (f : A -> bool) (l : list A) :
  forallb f (rev l) = forallb f l.
Proof.
  induction l as [|a l IH]; cbn; [reflexivity|].
  rewrite forallb_app, IH. cbn. rewrite andb_true_r. apply andb_comm.
Qed.

Lemma is_blank_iff (s : jsstring) :
  is_blank s = true <-> forallb is_js_space s = true.
Proof.
  unfold is_blank, trim. split.
  - destruct s as [|a s]; [reflexivity|].
    destruct (rev (trim_start (rev (trim_start (a :: s))))) eqn:E; [|discriminate].
    intros _. apply (f_equal (@rev N)) in E. rewrite rev_involutive in E. cbn [rev] in E.
    apply trim_start_nil in E. rewrite forallb_rev in E.
    destruct (trim_start (a :: s)) as [|c t] eqn:Et.
    + now apply trim_start_nil.
    + apply trim_start_head in Et. cbn [forallb] in E. now rewrite Et in E.
  - intros H. destruct s as [|a s]; [reflexivity|].
    now rewrite (trim_start_blank _ H).
Qed.

Lemma parsed_not_blank (s : jsstring) v :
  JSON_parse s = Some v -> is_blank s = false.
Proof.
  intros H. destruct (is_blank s) eqn:E; [|reflexivity].
  apply is_blank_iff, JSON_parse_blank in E. congruence.
Qed.

(** C10. Content that is empty or made of white space only fails with the
    importer's error message: [processContent] returns [false], the message
    is shown, and no request goes to the generation service (nor is a deck
    delivered). *)
Theorem blank_content_fails_without_request (content : jsstring) (w : World) :
  forallb is_js_space content = true ->
  JSON_parse content = None /\
  processContent content w
  = (inr false,
     mkWorld (app w) (Some processContent_error) (isLoading w) (inputValue w)
       (requests w) (delivered w) (shown w ++ [processContent_error]) (clock w)).
Proof.
  intros H. split; [now apply JSON_parse_blank|].
  unfold processContent, processContent_json, try_catch, bind.
  rewrite (JSON_parse_blank _ H). cbn.
  apply is_blank_iff in H. rewrite H. reflexivity.
Qed.

(** ** Objects that are not decks *)

Lemma not_deck_without_cards (ps : props_t) :
  (forall items, lookup (lit "cards") ps <> Some (VArr items)) ->
  isValidDeck (VObj ps) = false.
Proof.
  intros H. destruct (isValidDeck (VObj ps)) eqn:E; [|reflexivity].
  apply isValidDeck_iff in E as (ps' & t & items & Heq & _ & Hc).
  inversion Heq; subst. now apply H in Hc.
Qed.

(** C2 (as the code has it). For content that parses to an object without a
    [cards] array, the JSON only importer [processJsonContent] fails with its
    format error and sends no request; the unified [processContent] does not
    stop at classification: it hands the text to [generateDeckFromList], which
    sends one request with the content as the word list. *)
Theorem object_without_cards (content : jsstring) (ps : props_t) (w : World) :
  JSON_parse content = Some (VObj ps) ->
  (forall items, lookup (lit "cards") ps <> Some (VArr items)) ->
  processJsonContent content w
  = (inr false,
     mkWorld (app w) (Some invalid_format_error) (isLoading w) (inputValue w)
       (requests w) (delivered w) (shown w ++ [invalid_format_error]) (clock w))
  /\ requests (snd (processContent content w))
     = requests w ++ [list_prompt content].
Proof.
  intros Hp Hc. pose proof (not_deck_without_cards ps Hc) as Hv. split.
  - unfold processJsonContent, try_catch. rewrite Hp, Hv. reflexivity.
  - unfold processContent, processContent_json, try_catch.
    rewrite Hp, Hv, (parsed_not_blank _ _ Hp). cbn.
    unfold bind at 1. unfold ret at 1. unfold bind.
    destruct (generateDeckFromList content w) as [[e|d] w1] eqn:Hg;
      apply generateDeckFromList_requests in Hg; cbn; exact Hg.
Qed.

(** ** Legacy examples *)

Lemma import_example_legacy ex text i w :
  legacy_example ex text ->
  exists ex',
    import_example ex i w = (inr ex', w)
    /\ prop ex' "simplified" = inr (VStr text)
    /\ prop ex' "traditional" = inr (VStr text).
Proof.
  intros (ps & -> & Hs & Ht & Hc).
  unfold import_example, bind, lift, ret, prop. rewrite Hs, Ht, Hc.
  eexists. split; [reflexivity|].
  destruct text; split; reflexivity.
Qed.

Lemma map_import_example_legacy exs :
  Forall (fun ex => exists text, legacy_example ex text) exs ->
  forall i w, exists exs',
    map_from i import_example exs w = (inr exs', w)
    /\ Forall2 (fun ex ex' =>
                  forall text, legacy_example ex text ->
                    prop ex' "simplified" = inr (VStr text)
                    /\ prop ex' "traditional" = inr (VStr text)) exs exs'.
Proof.
  induction 1 as [|ex exs [text Hex] _ IH]; intros i w.
  - exists []. split; [reflexivity | constructor].
  - destruct (import_example_legacy ex text i w Hex) as (ex' & Hrun & Hs & Ht).
    destruct (IH (S i) w) as (exs' & Hmap & Hall).
    exists (ex' :: exs'). split.
    + cbn [map_from]. unfold bind. rewrite Hrun, Hmap. reflexivity.
    + constructor; [|exact Hall].
      intros text' (ps' & Heq' & _ & _ & Hc').
      destruct Hex as (ps & Heq & _ & _ & Hc).
      rewrite Heq in Heq'. inversion Heq'; subst ps'.
      rewrite Hc in Hc'. inversion Hc'; subst text'. now split.
Qed.

(** C4. When the examples of an imported card are records of the older
    format, with a [chinese] text and no [simplified] or [traditional] one,
    the card that [processContent] builds has, for each of them, an example
    whose [simplified] and [traditional] are both that [chinese] text. *)
Theorem legacy_examples_duplicated
    (ps : props_t) (exs : list value) (i : nat) (w : World) :
  lookup (lit "examples") ps = Some (VArr exs) ->
  Forall (fun ex => exists text, legacy_example ex text) exs ->
  exists c' w' exs',
    import_card (VObj ps) i w = (inr c', w')
    /\ prop c' "examples" = inr (VArr exs')
    /\ Forall2 (fun ex ex' =>
                  forall text, legacy_example ex text ->
                    prop ex' "simplified" = inr (VStr text)
                    /\ prop ex' "traditional" = inr (VStr text)) exs exs'.
Proof.
  intros Hex Hall.
  destruct (map_import_example_legacy exs Hall 0 w) as (exs' & Hmap & Hrel).
  unfold import_card, bind at 1, lift at 1.
  cbn [prop]. rewrite Hex. unfold bind at 1. cbn [array_map].
  unfold bind at 1. rewrite Hmap. unfold ret at 1.
  unfold bind at 1, lift at 1. unfold bind.
  destruct (id_or_fresh _ i w) as [[e|idv] w1] eqn:Hid.
  { unfold id_or_fresh in Hid. destruct (truthy _); discriminate. }
  do 3 eexists. split; [reflexivity|]. split; [|exact Hrel].
  cbn [prop spread js_or truthy].
  rewrite lookup_define_other by reflexivity. now rewrite lookup_define_same.
Qed.

(** ** Card ids *)

Lemma uint_units_inj d1 : forall d2, uint_units d1 = uint_units d2 -> d1 = d2.
Proof.
  induction d1; destruct d2; cbn; intros H; try discriminate; try reflexivity;
    inversion H; f_equal; auto.
Qed.

Lemma uint_units_no_dash d : ~ In 45%N (uint_units d).
Proof.
  induction d; cbn; intros H; try contradiction;
    destruct H as [H|H]; try discriminate; auto.
Qed.

Lemma decimal_inj n m : decimal n = decimal m -> n = m.
Proof.
  unfold decimal. intros H. apply uint_units_inj in H.
  rewrite <- (DecimalN.Unsigned.of_to n), <- (DecimalN.Unsigned.of_to m).
  now rewrite H.
Qed.

(** Two texts cut at their last dash have the same tail. *)
Lemma split_first {A} (x : A) (a b c d : list A) :
  ~ In x a -> ~ In x b -> a ++ x :: c = b ++ x :: d -> a = b.
Proof.
  revert b. induction a as [|y a IH]; intros [|z b] Ha Hb H; cbn in *.
  - reflexivity.
  - inversion H; subst. tauto.
  - inversion H; subst. tauto.
  - inversion H; subst. f_equal. apply IH; tauto.
Qed.

Lemma split_last {A} (x : A) (a b c d : list A) :
  ~ In x c -> ~ In x d -> a ++ x :: c = b ++ x :: d -> c = d.
Proof.
  intros Hc Hd H. apply (f_equal (@rev A)) in H.
  rewrite !rev_app_distr in H. cbn in H. rewrite <- !app_assoc in H. cbn in H.
  apply split_first in H; [|rewrite <- in_rev; assumption ..].
  rewrite <- (rev_involutive c), <- (rev_involutive d). now rewrite H.
Qed.

(** Ids made in one batch differ from one position to the next, whatever
    the clock says. *)
Lemma fresh_id_inj prefix t t' i j :
  fresh_id prefix t i = fresh_id prefix t' j -> i = j.
Proof.
  unfold fresh_id. intros H. apply app_inv_head in H.
  change (lit "-") with [45%N] in H. cbn [List.app] in H.
  apply split_last in H; try apply uint_units_no_dash.
  apply decimal_inj in H. now apply Nat2N.inj.
Qed.

Lemma id_of_define_id idv ps : id_of (VObj (define (lit "id") idv ps)) = idv.
Proof. unfold id_of, prop. now rewrite lookup_define_same. Qed.

Lemma fresh_imported_truthy t i : truthy (VStr (fresh_id "imported-" t i)) = true.
Proof. reflexivity. Qed.

Lemma id_or_fresh_spec cid i w idv w' :
  id_or_fresh cid i w = (inr idv, w') ->
  truthy idv = true
  /\ (truthy cid = true -> idv = cid)
  /\ (truthy cid = false -> exists t, idv = VStr (fresh_id "imported-" t i)).
Proof.
  unfold id_or_fresh. destruct (truthy cid) eqn:E.
  - intros H. inversion H; subst. repeat split; auto. discriminate.
  - intros H. inversion H; subst.
    split; [apply fresh_imported_truthy|]. split; [discriminate|]. eauto.
Qed.

Lemma import_card_id_spec c i w c' w' :
  import_card c i w = (inr c', w') ->
  truthy (id_of c') = true
  /\ (truthy (id_of c) = true -> id_of c' = id_of c)
  /\ (truthy (id_of c) = false ->
      exists t, id_of c' = VStr (fresh_id "imported-" t i)).
Proof.
  unfold import_card. intros H.
  apply bind_inv in H as [(ex & w1 & H1 & H)|(e & _ & He)]; [|discriminate].
  apply bind_inv in H as [(mapped & w2 & H2 & H)|(e & _ & He)]; [|discriminate].
  apply bind_inv in H as [(cid & w3 & H3 & H)|(e & _ & He)]; [|discriminate].
  apply bind_inv in H as [(idv & w4 & H4 & H)|(e & _ & He)]; [|discriminate].
  inversion H; subst c' w'. rewrite id_of_define_id.
  unfold lift in H3. injection H3 as Hprop Hw. subst w3.
  assert (Hc : id_of c = cid) by (unfold id_of; now rewrite Hprop). rewrite Hc.
  eapply id_or_fresh_spec; eassumption.
Qed.

Lemma map_import_card_ids items :
  forall i0 w cards w',
    map_from i0 import_card items w = (inr cards, w') ->
    List.length cards = List.length items /\
    forall k c c',
      nth_error items k = Some c -> nth_error cards k = Some c' ->
      truthy (id_of c') = true
      /\ (truthy (id_of c) = true -> id_of c' = id_of c)
      /\ (truthy (id_of c) = false ->
          exists t, id_of c' = VStr (fresh_id "imported-" t (i0 + k))).
Proof.
  induction items as [|x items IH]; intros i0 w cards w' H.
  - inversion H; subst. split; [reflexivity|]. intros [|k] c c' Hk; discriminate.
  - cbn [map_from] in H.
    apply bind_inv in H as [(y & w1 & H1 & H)|(e & _ & He)]; [|discriminate].
    apply bind_inv in H as [(ys & w2 & H2 & H)|(e & _ & He)]; [|discriminate].
    inversion H; subst cards w'.
    destruct (IH _ _ _ _ H2) as [Hlen Hrest].
    split; [cbn; now rewrite Hlen|].
    intros [|k] c c' Hc Hc'; cbn in Hc, Hc'.
    + inversion Hc; inversion Hc'; subst. rewrite Nat.add_0_r.
      eapply import_card_id_spec; eassumption.
    + replace (i0 + S k)%nat with (S i0 + k)%nat by lia. now apply Hrest.
Qed.

Lemma map_with_card_id_ids items :
  forall i0 w cards w',
    map_from i0 with_card_id items w = (inr cards, w') ->
    forall k c',
      nth_error cards k = Some c' ->
      exists t, id_of c' = VStr (fresh_id "card-" t (i0 + k)).
Proof.
  induction items as [|x items IH]; intros i0 w cards w' H.
  - inversion H; subst. intros [|k] c' Hk; discriminate.
  - cbn [map_from] in H.
    apply bind_inv in H as [(y & w1 & H1 & H)|(e & _ & He)]; [|discriminate].
    apply bind_inv in H as [(ys & w2 & H2 & H)|(e & _ & He)]; [|discriminate].
    inversion H; subst cards w'.
    intros [|k] c' Hc'; cbn in Hc'.
    + inversion Hc'; subst. rewrite Nat.add_0_r.
      unfold with_card_id, bind, now, ret in H1. inversion H1; subst.
      rewrite id_of_define_id. eauto.
    + replace (i0 + S k)%nat with (S i0 + k)%nat by lia. eapply IH; eassumption.
Qed.

(** C8 (as the code has it). A deck imported by [processContent] has an id
    on every card: a truthy id of the file is kept, an absent or falsy one is
    replaced by [imported-<clock>-<position>].  A deck built by
    [parseResponse] has the id [card-<clock>-<position>] on every card,
    whatever the response carried.  Two ids made with the same prefix for two
    positions are different. *)
Theorem ingested_cards_have_ids :
  (forall content json items w w',
     JSON_parse content = Some json ->
     isValidDeck json = true ->
     prop json "cards" = inr (VArr items) ->
     processContent content w = (inr true, w') ->
     exists cards,
       deck (app w')
       = Some (VObj (define (lit "cards") (VArr cards) (spread json)))
       /\ ids_kept_or_fresh items cards)
  /\ (forall text w d w',
        parseResponse text w = (inr d, w') ->
        exists title cards,
          d = VObj [(lit "title", title); (lit "cards", VArr cards)]
          /\ ids_all_fresh cards)
  /\ (forall prefix t t' i j,
        i <> j -> fresh_id prefix t i <> fresh_id prefix t' j).
Proof.
  split; [|split].
  - intros content json items w w' Hp Hv Hc Hrun.
    unfold processContent, processContent_json, try_catch in Hrun.
    rewrite Hp, Hv in Hrun.
    assert (Ht : truthy json = true).
    { apply isValidDeck_iff in Hv as (ps & _ & _ & -> & _). reflexivity. }
    rewrite Ht, Hc in Hrun. unfold bind at 1 in Hrun. unfold bind at 1 in Hrun.
    unfold lift at 1 in Hrun. unfold bind at 1 in Hrun. cbn [array_map] in Hrun.
    unfold bind at 1 in Hrun.
    destruct (map_from 0 import_card items w) as [[e|cards] w1] eqn:Hm.
    { cbn in Hrun. discriminate. }
    cbn in Hrun. inversion Hrun; subst w'. cbn.
    exists cards. split; [reflexivity|].
    destruct (map_import_card_ids _ _ _ _ _ Hm) as [Hlen Hids].
    split; [exact Hlen|]. intros k c c' Hk Hk'. now apply (Hids k c c').
  - intros text w d w' Hrun. unfold parseResponse in Hrun.
    destruct text as [[|u text]|]; try discriminate.
    destruct (JSON_parse (u :: text)) as [data|]; [|discriminate].
    apply bind_inv in Hrun as [(cs & w1 & H1 & H)|(e & _ & He)]; [|discriminate].
    apply bind_inv in H as [(cards & w2 & H2 & H)|(e & _ & He)]; [|discriminate].
    apply bind_inv in H as [(title & w3 & H3 & H)|(e & _ & He)]; [|discriminate].
    inversion H; subst d w'.
    destruct cs; try discriminate. cbn [array_map] in H2.
    apply bind_inv in H2 as [(ys & w4 & H4 & H2)|(e & _ & He)]; [|discriminate].
    inversion H2; subst cards w2.
    exists title, ys. split; [reflexivity|].
    intros k c' Hk. now apply (map_with_card_id_ids _ _ _ _ _ H4 k c').
  - intros prefix t t' i j Hij H. apply Hij. eapply fresh_id_inj; eassumption.
Qed.

(** ** Reading back what [JSON.stringify] wrote *)

(** *** Strings *)

Lemma hex_value_digit (n : N) : (n < 16)%N -> hex_value (hex_digit n) = Some n.
Proof.
  intros Hn. unfold hex_digit, hex_value.
  destruct (N.ltb_spec n 10).
  - destruct (N.leb_spec 48 (48 + n)); [|lia].
    destruct (N.leb_spec (48 + n) 57); [|lia]. cbn [andb]. f_equal. lia.
  - destruct (N.leb_spec 48 (87 + n)); [|lia].
    destruct (N.leb_spec (87 + n) 57); [lia|].
    destruct (N.leb_spec 97 (87 + n)); [|lia].
    destruct (N.leb_spec (87 + n) 102); [|lia]. cbn [andb]. f_equal. lia.
Qed.

Lemma hex4_escape (c : N) :
  (c < 65536)%N ->
  hex4 (hex_digit ((c / 4096) mod 16)) (hex_digit ((c / 256) mod 16))
       (hex_digit ((c / 16) mod 16)) (hex_digit (c mod 16)) = Some c.
Proof.
  intros Hc. unfold hex4.
  rewrite !hex_value_digit by (apply N.mod_upper_bound; discriminate).
  f_equal.
  pose proof (N.div_mod c 16). pose proof (N.div_mod (c / 16) 16).
  pose proof (N.div_mod (c / 256) 16).
  assert (c / 256 = c / 16 / 16)%N by (now rewrite N.Div0.div_div).
  assert (c / 4096 = c / 256 / 16)%N by (now rewrite N.Div0.div_div).
  assert (c / 4096 < 16)%N by (apply N.Div0.div_lt_upper_bound; lia).
  rewrite (N.mod_small (c / 4096) 16) by assumption.
  pose proof (N.mod_upper_bound c 16). pose proof (N.mod_upper_bound (c / 16) 16).
  pose proof (N.mod_upper_bound (c / 256) 16).
  lia.
Qed.

Lemma parse_chars_raw (c : N) (t : jsstring) :
  c <> 34%N -> c <> 92%N -> (32 <= c)%N ->
  parse_chars (c :: t) = push_unit c (parse_chars t).
Proof.
  intros H1 H2 H3. cbn [parse_chars].
  destruct (N.eqb_spec c 34); [contradiction|].
  destruct (N.eqb_spec c 92); [contradiction|].
  destruct (N.ltb_spec c 32); [lia | reflexivity].
Qed.

Lemma parse_chars_escape_u (h1 h2 h3 h4 : N) (t : jsstring) :
  parse_chars (92%N :: 117%N :: h1 :: h2 :: h3 :: h4 :: t)
  = match hex4 h1 h2 h3 h4 with
    | Some u => push_unit u (parse_chars t)
    | None => None
    end.
Proof. reflexivity. Qed.

Lemma parse_chars_unicode_escape (c : N) (t : jsstring) :
  (c < 65536)%N ->
  parse_chars (unicode_escape c ++ t) = push_unit c (parse_chars t).
Proof.
  intros Hc. unfold unicode_escape. cbn [List.app].
  now rewrite parse_chars_escape_u, hex4_escape.
Qed.

Lemma parse_chars_quote_unit (c : N) (t : jsstring) :
  (c < 55296)%N \/ (57343 < c)%N ->
  parse_chars (quote_unit c ++ t) = push_unit c (parse_chars t).
Proof.
  intros Hc. unfold quote_unit.
  destruct (N.eqb_spec c 8) as [->|]; [reflexivity|].
  destruct (N.eqb_spec c 9) as [->|]; [reflexivity|].
  destruct (N.eqb_spec c 10) as [->|]; [reflexivity|].
  destruct (N.eqb_spec c 12) as [->|]; [reflexivity|].
  destruct (N.eqb_spec c 13) as [->|]; [reflexivity|].
  destruct (N.eqb_spec c 34) as [->|]; [reflexivity|].
  destruct (N.eqb_spec c 92) as [->|]; [reflexivity|].
  destruct (N.ltb_spec c 32).
  - apply parse_chars_unicode_escape. lia.
  - now apply parse_chars_raw.
Qed.

Lemma surrogate_bounds (c : N) :
  (is_high_surrogate c = true <-> (55296 <= c <= 56319)%N)
  /\ (is_low_surrogate c = true <-> (56320 <= c <= 57343)%N).
Proof.
  unfold is_high_surrogate, is_low_surrogate.
  rewrite !andb_true_iff, !N.leb_le. tauto.
Qed.

Lemma parse_chars_quote_units (s : jsstring) :
  forall prev rest,
    parse_chars (quote_units prev s ++ 34%N :: rest) = Some (s, rest).
Proof.
  induction s as [|c s IH]; intros prev rest; [reflexivity|].
  cbn [quote_units]. rewrite <- app_assoc.
  destruct (surrogate_bounds c) as [Hh Hl].
  assert (Hpush : push_unit c (parse_chars (quote_units (is_high_surrogate c) s
                                              ++ 34%N :: rest))
                  = Some (c :: s, rest)) by (now rewrite IH).
  destruct (is_high_surrogate c) eqn:Eh.
  - assert (55296 <= c <= 56319)%N by (now apply Hh).
    destruct (next_is_low s).
    + cbn [List.app]. rewrite parse_chars_raw by lia. exact Hpush.
    + rewrite parse_chars_unicode_escape by lia. exact Hpush.
  - destruct (is_low_surrogate c) eqn:El.
    + assert (56320 <= c <= 57343)%N by (now apply Hl).
      destruct prev.
      * cbn [List.app]. rewrite parse_chars_raw by lia. exact Hpush.
      * rewrite parse_chars_unicode_escape by lia. exact Hpush.
    + rewrite parse_chars_quote_unit; [exact Hpush|].
      destruct (N.lt_ge_cases c 55296); [now left|].
      destruct (N.lt_ge_cases 57343 c); [now right|].
      destruct (N.le_gt_cases c 56319).
      * assert (is_high_surrogate c = true) by (apply surrogate_bounds; lia).
        congruence.
      * assert (is_low_surrogate c = true) by (apply surrogate_bounds; lia).
        congruence.
Qed.

Lemma quote_app (s rest : jsstring) :
  quote s ++ rest = 34%N :: quote_units false s ++ 34%N :: rest.
Proof. unfold quote. cbn [List.app]. now rewrite <- app_assoc. Qed.

(** *** Steps of the reader *)

Lemma skip_ws_value_start (h : N) (t : jsstring) :
  is_value_start h = true -> skip_ws (h :: t) = h :: t.
Proof.
  intros H. cbn [skip_ws].
  destruct (is_json_space h) eqn:E; [|reflexivity].
  unfold is_value_start in H. unfold is_json_space in E.
  repeat rewrite ?orb_true_iff, ?N.eqb_eq in *. lia.
Qed.

Lemma skip_ws_spaces_app (n : nat) (x : jsstring) :
  skip_ws (spaces n ++ x) = skip_ws x.
Proof. induction n as [|n IH]; [reflexivity | exact IH]. Qed.

Lemma skip_ws_indent (n : nat) (x : jsstring) :
  skip_ws (10%N :: spaces n ++ x) = skip_ws x.
Proof. cbn [skip_ws]. apply skip_ws_spaces_app. Qed.

Lemma parse_value_string f s t str r :
  skip_ws s = 34%N :: t -> parse_chars t = Some (str, r) ->
  parse_value (S f) s = POk (VStr str) r.
Proof. intros Hs Hc. cbn [parse_value]. rewrite Hs. cbn. now rewrite Hc. Qed.

Lemma parse_value_null f s r :
  skip_ws s = lit "null" ++ r -> parse_value (S f) s = POk VNull r.
Proof. intros Hs. cbn [parse_value]. rewrite Hs. reflexivity. Qed.

Lemma parse_value_true f s r :
  skip_ws s = lit "true" ++ r -> parse_value (S f) s = POk (VBool true) r.
Proof. intros Hs. cbn [parse_value]. rewrite Hs. reflexivity. Qed.

Lemma parse_value_false f s r :
  skip_ws s = lit "false" ++ r -> parse_value (S f) s = POk (VBool false) r.
Proof. intros Hs. cbn [parse_value]. rewrite Hs. reflexivity. Qed.

Lemma parse_value_empty_array f s r :
  skip_ws s = lit "[]" ++ r -> parse_value (S f) s = POk (VArr []) r.
Proof. intros Hs. cbn [parse_value]. rewrite Hs. reflexivity. Qed.

Lemma parse_value_empty_object f s r :
  skip_ws s = lit "{}" ++ r -> parse_value (S f) s = POk (VObj []) r.
Proof. intros Hs. cbn [parse_value]. rewrite Hs. reflexivity. Qed.

Lemma parse_value_array f s t h r :
  skip_ws s = 91%N :: t -> skip_ws t = h :: r -> is_value_start h = true ->
  parse_value (S f) s = parse_elements (parse_value f) f t [].
Proof.
  intros Hs Ht Hh. cbn [parse_value]. rewrite Hs, Ht.
  destruct (N.eqb_spec h 93) as [->|]; [discriminate | reflexivity].
Qed.

Lemma parse_value_object f s t h r :
  skip_ws s = 123%N :: t -> skip_ws t = h :: r -> is_value_start h = true ->
  parse_value (S f) s = parse_members (parse_value f) f t [].
Proof.
  intros Hs Ht Hh. cbn [parse_value]. rewrite Hs, Ht.
  destruct (N.eqb_spec h 125) as [->|]; [discriminate | reflexivity].
Qed.


(** *** What [serialize] writes *)

Lemma serialize_none (indent : nat) (x : value) :
  serialize indent x = None <-> x = VUndefined.
Proof.
  split; [|intros ->; reflexivity].
  destruct x; cbn [serialize]; try discriminate; try reflexivity.
  - destruct (map _ items); discriminate.
  - destruct (flat_map _ props); discriminate.
Qed.

Lemma elem_text_defined (indent : nat) (x : value) :
  x <> VUndefined -> serialize indent x = Some (elem_text indent x).
Proof.
  intros Hx. unfold elem_text. destruct (serialize indent x) eqn:E; [reflexivity|].
  now apply serialize_none in E.
Qed.

Lemma elem_text_array (indent : nat) (items : list value) :
  elem_text indent (VArr items)
  = match map (elem_text (indent + 2)) items with
    | [] => lit "[]"
    | partial =>
        91%N :: 10%N :: spaces (indent + 2)
        ++ join (separator (indent + 2)) partial
        ++ 10%N :: spaces indent ++ [93%N]
    end.
Proof. destruct items; reflexivity. Qed.

Lemma written_members (indent : nat) (ps : props_t) :
  flat_map (fun kv => match kv with
                      | (k, x) =>
                          match serialize indent x with
                          | Some t => [quote k ++ 58%N :: 32%N :: t]
                          | None => []
                          end
                      end) ps
  = map (member_text indent) (live ps).
Proof.
  induction ps as [|[k x] ps IH]; [reflexivity|].
  cbn [flat_map live filter snd]. fold (live ps).
  destruct x; cbn [is_undefined negb]; try (cbn [List.app map]; rewrite IH; reflexivity);
    unfold member_text at 1; cbn [fst snd];
    rewrite (elem_text_defined indent) by discriminate;
    cbn [List.app map]; rewrite IH; reflexivity.
Qed.

Lemma elem_text_object (indent : nat) (ps : props_t) :
  elem_text indent (VObj ps)
  = match map (member_text (indent + 2)) (live ps) with
    | [] => lit "{}"
    | partial =>
        123%N :: 10%N :: spaces (indent + 2)
        ++ join (separator (indent + 2)) partial
        ++ 10%N :: spaces indent ++ [125%N]
    end.
Proof.
  unfold elem_text. cbn [serialize]. rewrite written_members.
  destruct (map _ (live ps)); reflexivity.
Qed.

Lemma elem_text_head (indent : nat) (x : value) :
  json_safe x = true ->
  exists h t, elem_text indent x = h :: t /\ is_value_start h = true.
Proof.
  intros Hx. destruct x; try discriminate.
  - exists 110%N, (lit "ull"). now split.
  - exists 110%N, (lit "ull"). now split.
  - destruct b; [exists 116%N, (lit "rue") | exists 102%N, (lit "alse")]; now split.
  - unfold elem_text. cbn [serialize]. unfold quote. eexists _, _. now split.
  - rewrite elem_text_array. destruct (map _ items).
    + exists 91%N, [93%N]. now split.
    + eexists _, _. now split.
  - rewrite elem_text_object. destruct (map _ (live props)).
    + exists 123%N, [125%N]. now split.
    + eexists _, _. now split.
Qed.

Lemma member_text_head (indent : nat) (kv : jsstring * value) :
  exists t, member_text indent kv = 34%N :: t.
Proof. unfold member_text, quote. eexists. reflexivity. Qed.

Lemma join_one (sep p : jsstring) : join sep [p] = p.
Proof. reflexivity. Qed.

Lemma join_more (sep p q : jsstring) (l : list jsstring) :
  join sep (p :: q :: l) = p ++ sep ++ join sep (q :: l).
Proof. reflexivity. Qed.

Lemma join_length (sep : jsstring) (parts : list jsstring) :
  (fold_right (fun p n => List.length p + n) 0 parts <= List.length (join sep parts))%nat.
Proof.
  induction parts as [|p [|q l] IH].
  - cbn. lia.
  - cbn. lia.
  - rewrite join_more, !length_app. cbn [fold_right] in *. lia.
Qed.

Lemma weight_le_text (x : value) :
  json_safe x = true -> forall indent, (weight x <= List.length (elem_text indent x))%nat.
Proof.
  induction x as [| |b|n|str|items IH|ps IH] using value_nested_ind;
    intros Hx indent; try discriminate.
  - vm_compute. lia.
  - vm_compute. lia.
  - destruct b; vm_compute; lia.
  - unfold elem_text. cbn [serialize weight]. unfold quote. cbn [List.length]. lia.
  - rewrite elem_text_array. cbn [weight json_safe] in *.
    assert (Hsum : (fold_right (fun x n => weight x + n) 0 items
                    <= fold_right (fun p n => List.length p + n) 0
                         (map (elem_text (indent + 2)) items))%nat).
    { clear -IH Hx. induction items as [|x items IHl]; [cbn; lia|].
      cbn [forallb] in Hx. apply andb_prop in Hx as [Hx Hl].
      inversion IH as [|? ? Hhd Htl]; subst. cbn [map fold_right].
      specialize (Hhd Hx (indent + 2)%nat). specialize (IHl Htl Hl). lia. }
    pose proof (join_length (separator (indent + 2)) (map (elem_text (indent + 2)) items)).
    destruct (map (elem_text (indent + 2)) items) eqn:E.
    + destruct items; [vm_compute; lia | discriminate].
    + cbn [List.length]. rewrite !length_app. cbn [List.length]. lia.
  - rewrite elem_text_object. cbn [weight json_safe] in *.
    apply andb_prop in Hx as [Hx _].
    assert (Hsum : (fold_right (fun kv n => match kv with
                                            | (_, VUndefined) => n
                                            | (_, x) => weight x + n
                                            end) 0 ps
                    <= fold_right (fun p n => List.length p + n) 0
                         (map (member_text (indent + 2)) (live ps)))%nat).
    { clear -IH Hx. induction ps as [|[k x] ps IHl]; [cbn; lia|].
      cbn [forallb] in Hx. apply andb_prop in Hx as [Hx Hl].
      inversion IH as [|? ? Hhd Htl]; subst. cbn [snd] in Hhd.
      specialize (Hhd Hx (indent + 2)%nat). specialize (IHl Htl Hl).
      cbn [fold_right live filter snd]. fold (live ps).
      destruct x; cbn [is_undefined negb map fold_right]; try exact IHl;
        unfold member_text at 1; cbn [fst snd]; rewrite !length_app;
        cbn [List.length]; lia. }
    pose proof (join_length (separator (indent + 2))
                  (map (member_text (indent + 2)) (live ps))).
    destruct (map (member_text (indent + 2)) (live ps)) eqn:E.
    + cbn [fold_right] in Hsum. change (List.length (lit "{}")) with 2%nat. lia.
    + cbn [List.length]. rewrite !length_app. cbn [List.length]. lia.
Qed.

(** *** The loops of the reader *)

Lemma elements_close pv k s acc v r rest :
  pv s = POk v r -> skip_ws r = 93%N :: rest ->
  parse_elements pv (S k) s acc = POk (VArr (acc ++ [v])) rest.
Proof. intros Hv Hr. cbn [parse_elements]. rewrite Hv, Hr. reflexivity. Qed.

Lemma elements_next pv k s acc v r r' :
  pv s = POk v r -> skip_ws r = 44%N :: r' ->
  parse_elements pv (S k) s acc = parse_elements pv k r' (acc ++ [v]).
Proof. intros Hv Hr. cbn [parse_elements]. rewrite Hv, Hr. reflexivity. Qed.

Lemma members_close pv k s acc t key r r1 v r2 rest :
  skip_ws s = 34%N :: t -> parse_chars t = Some (key, r) ->
  skip_ws r = 58%N :: r1 -> pv r1 = POk v r2 -> skip_ws r2 = 125%N :: rest ->
  parse_members pv (S k) s acc = POk (VObj (define key v acc)) rest.
Proof.
  intros Hs Hk Hr Hv Hr2. cbn [parse_members].
  rewrite Hs. cbn [N.eqb Pos.eqb]. rewrite Hk, Hr. cbn [N.eqb Pos.eqb].
  rewrite Hv, Hr2. reflexivity.
Qed.

Lemma members_next pv k s acc t key r r1 v r2 r3 :
  skip_ws s = 34%N :: t -> parse_chars t = Some (key, r) ->
  skip_ws r = 58%N :: r1 -> pv r1 = POk v r2 -> skip_ws r2 = 44%N :: r3 ->
  parse_members pv (S k) s acc = parse_members pv k r3 (define key v acc).
Proof.
  intros Hs Hk Hr Hv Hr2. cbn [parse_members].
  rewrite Hs. cbn [N.eqb Pos.eqb]. rewrite Hk, Hr. cbn [N.eqb Pos.eqb].
  rewrite Hv, Hr2. reflexivity.
Qed.

Lemma join_head (sep p : jsstring) (l : list jsstring) (tail : jsstring) h t :
  p = h :: t -> exists u, join sep (p :: l) ++ tail = h :: u.
Proof.
  intros ->. destruct l as [|q l].
  - rewrite join_one. eexists. reflexivity.
  - rewrite join_more. eexists. reflexivity.
Qed.

Lemma weight_pos (x : value) : (1 <= weight x)%nat.
Proof. destruct x; cbn; lia. Qed.

Lemma length_le_weights (items : list value) :
  (List.length items <= fold_right (fun x n => weight x + n) 0 items)%nat.
Proof.
  induction items as [|x items IH]; cbn [List.length fold_right]; [lia|].
  pose proof (weight_pos x). lia.
Qed.

Lemma parse_elements_written (indent inner f : nat) (rest : jsstring)
    (items : list value) :
  Forall reads_back items ->
  forallb json_safe items = true ->
  (fold_right (fun x n => weight x + n) 0 items <= f)%nat ->
  forall k acc s,
    items <> [] -> (List.length items <= k)%nat ->
    skip_ws s
    = join (separator inner) (map (elem_text inner) items)
      ++ 10%N :: spaces indent ++ 93%N :: rest ->
    parse_elements (parse_value f) k s acc
    = POk (VArr (acc ++ map clean_elem items)) rest.
Proof.
  induction items as [|x items IH]; intros Hall Hsafe Hw k acc s Hne Hk Hs;
    [congruence|].
  destruct k as [|k]; [cbn in Hk; lia|].
  inversion Hall as [|? ? Hx Hrest]; subst.
  cbn [forallb] in Hsafe. apply andb_prop in Hsafe as [Hsx Hsafe].
  cbn [fold_right] in Hw. cbn [map] in Hs.
  destruct items as [|y items].
  - rewrite join_one in Hs.
    eapply elements_close.
    + apply (Hx Hsx inner f s _ ltac:(lia) Hs).
    + now rewrite skip_ws_indent.
  - cbn [map] in Hs. rewrite join_more in Hs. rewrite <- !app_assoc in Hs.
    cbn [List.length] in Hk.
    assert (Hstep :
      parse_elements (parse_value f) (S k) s acc
      = parse_elements (parse_value f) k
          (10%N :: spaces inner
           ++ join (separator inner) (elem_text inner y :: map (elem_text inner) items)
           ++ 10%N :: spaces indent ++ 93%N :: rest)
          (acc ++ [clean_elem x])).
    { eapply elements_next.
      - apply (Hx Hsx inner f s _ ltac:(lia) Hs).
      - reflexivity. }
    rewrite Hstep.
    rewrite (IH Hrest Hsafe ltac:(lia) k (acc ++ [clean_elem x])).
    + cbn [map]. now rewrite <- app_assoc.
    + discriminate.
    + cbn [List.length]. lia.
    + rewrite skip_ws_indent. cbn [map].
      cbn [forallb] in Hsafe. apply andb_prop in Hsafe as [Hsy _].
      destruct (elem_text_head inner y Hsy) as (h & t & Hy & Hh).
      destruct (join_head (separator inner) _ (map (elem_text inner) items)
                  (10%N :: spaces indent ++ 93%N :: rest) h t Hy) as [u Hu].
      rewrite Hu. now apply skip_ws_value_start.
Qed.

Lemma define_fresh key v (acc : props_t) :
  lookup key acc = None -> define key v acc = acc ++ [(key, v)].
Proof.
  induction acc as [|[k x] acc IH]; cbn; [reflexivity|].
  destruct (jsstring_eqb key k); [discriminate|]. intros H. now rewrite IH.
Qed.

Lemma lookup_app_none key (l1 l2 : props_t) :
  lookup key l1 = None -> lookup key (l1 ++ l2) = lookup key l2.
Proof.
  induction l1 as [|[k x] l1 IH]; cbn; [reflexivity|].
  destruct (jsstring_eqb key k); [discriminate | exact IH].
Qed.

Lemma lookup_none_in key (l : props_t) kv :
  lookup key l = None -> In kv l -> jsstring_eqb (fst kv) key = false.
Proof.
  induction l as [|[k x] l IH]; cbn; [contradiction|].
  destruct (jsstring_eqb key k) eqn:E; [discriminate|].
  intros Hl [<-|Hin]; [|auto]. cbn.
  destruct (jsstring_eqb k key) eqn:E'; [|reflexivity].
  apply jsstring_eqb_eq in E'. subst. now rewrite jsstring_eqb_refl in E.
Qed.

Lemma parse_members_written (indent inner f : nat) (rest : jsstring)
    (mem : props_t) :
  Forall (fun kv => reads_back (snd kv)) mem ->
  forallb (fun kv => json_safe (snd kv)) mem = true ->
  Forall (fun kv => snd kv <> VUndefined) mem ->
  (fold_right (fun kv n => weight (snd kv) + n) 0 mem <= f)%nat ->
  forall k acc s,
    mem <> [] -> (List.length mem <= k)%nat ->
    distinct_keys mem = true ->
    (forall kv, In kv mem -> lookup (fst kv) acc = None) ->
    skip_ws s
    = join (separator inner) (map (member_text inner) mem)
      ++ 10%N :: spaces indent ++ 125%N :: rest ->
    parse_members (parse_value f) k s acc
    = POk (VObj (acc ++ map (fun kv => (fst kv, clean (snd kv))) mem)) rest.
Proof.
  induction mem as [|[key x] mem IH];
    intros Hall Hsafe Hlive Hw k acc s Hne Hk Hdist Hacc Hs; [congruence|].
  destruct k as [|k]; [cbn in Hk; lia|].
  inversion Hall as [|? ? Hx Hrest]; subst. cbn [snd] in Hx.
  inversion Hlive as [|? ? Hxl Hlrest]; subst. cbn [snd] in Hxl.
  cbn [forallb snd] in Hsafe. apply andb_prop in Hsafe as [Hsx Hsafe].
  cbn [fold_right snd] in Hw. cbn [map] in Hs.
  cbn [distinct_keys] in Hdist.
  destruct (lookup key mem) eqn:Hkey; [discriminate|].
  assert (Hfresh : define key (clean_elem x) acc = acc ++ [(key, clean_elem x)]).
  { apply define_fresh. apply (Hacc (key, x)). now left. }
  assert (Hcx : clean_elem x = clean x) by (destruct x; try reflexivity; congruence).
  destruct (elem_text_head inner x Hsx) as (h & t & Hxt & Hh).
  unfold member_text at 1 in Hs. cbn [fst snd] in Hs.
  assert (Hval : forall tail,
            parse_value f (32%N :: elem_text inner x ++ tail)
            = POk (clean_elem x) tail).
  { intros tail. apply (Hx Hsx inner f _ tail ltac:(lia)).
    cbn [skip_ws is_json_space N.eqb Pos.eqb orb]. rewrite Hxt. cbn [List.app].
    now apply skip_ws_value_start. }
  destruct mem as [|m mem].
  - rewrite join_one in Hs. rewrite <- app_assoc, quote_app in Hs.
    cbn [List.app] in Hs.
    assert (Hstep :
      parse_members (parse_value f) (S k) s acc
      = POk (VObj (define key (clean_elem x) acc)) rest).
    { eapply members_close.
      - exact Hs.
      - apply parse_chars_quote_units.
      - reflexivity.
      - apply Hval.
      - now rewrite skip_ws_indent. }
    rewrite Hstep, Hfresh, Hcx. reflexivity.
  - cbn [map] in Hs. rewrite join_more in Hs.
    rewrite <- !app_assoc, quote_app in Hs. cbn [List.app] in Hs.
    rewrite <- ?app_assoc in Hs. cbn [List.length] in Hk.
    assert (Hstep :
      parse_members (parse_value f) (S k) s acc
      = parse_members (parse_value f) k
          (10%N :: spaces inner
           ++ join (separator inner) (member_text inner m :: map (member_text inner) mem)
           ++ 10%N :: spaces indent ++ 125%N :: rest)
          (define key (clean_elem x) acc)).
    { eapply members_next.
      - exact Hs.
      - apply parse_chars_quote_units.
      - reflexivity.
      - apply Hval.
      - reflexivity. }
    rewrite Hstep, Hfresh.
    rewrite (IH Hrest Hsafe Hlrest ltac:(lia) k (acc ++ [(key, clean_elem x)])).
    + cbn [map fst snd]. rewrite Hcx, <- app_assoc. reflexivity.
    + discriminate.
    + cbn [List.length]. lia.
    + exact Hdist.
    + intros kv Hin. rewrite lookup_app_none by (apply Hacc; now right).
      cbn [lookup]. now rewrite (lookup_none_in key (m :: mem) kv Hkey Hin).
    + rewrite skip_ws_indent. cbn [map].
      destruct (member_text_head inner m) as [u Hu].
      destruct (join_head (separator inner) _ (map (member_text inner) mem)
                  (10%N :: spaces indent ++ 125%N :: rest) 34%N u Hu) as [u' Hu'].
      rewrite Hu'. reflexivity.
Qed.

(** *** The round trip of a value *)

Lemma clean_object (ps : props_t) :
  clean (VObj ps) = VObj (map (fun kv => (fst kv, clean (snd kv))) (live ps)).
Proof.
  cbn [clean]. f_equal. induction ps as [|[k x] ps IH]; [reflexivity|].
  cbn [flat_map live filter snd]. fold (live ps).
  destruct x; cbn [is_undefined negb List.app map fst snd]; rewrite IH; reflexivity.
Qed.

Lemma weight_object (ps : props_t) :
  weight (VObj ps) = S (fold_right (fun kv n => weight (snd kv) + n)%nat 0%nat (live ps)).
Proof.
  cbn [weight]. f_equal. induction ps as [|[k x] ps IH]; [reflexivity|].
  cbn [fold_right live filter snd]. fold (live ps).
  destruct x; cbn [is_undefined negb fold_right snd]; rewrite IH; reflexivity.
Qed.

Lemma live_defined (ps : props_t) : Forall (fun kv => snd kv <> VUndefined) (live ps).
Proof.
  apply Forall_forall. intros kv Hin. apply filter_In in Hin as [_ H].
  destruct (snd kv); try discriminate.
Qed.

Lemma live_Forall (Q : jsstring * value -> Prop) (ps : props_t) :
  Forall Q ps -> Forall Q (live ps).
Proof.
  rewrite !Forall_forall. intros H kv Hin. apply H.
  now apply filter_In in Hin as [Hin _].
Qed.

Lemma live_forallb (q : jsstring * value -> bool) (ps : props_t) :
  forallb q ps = true -> forallb q (live ps) = true.
Proof.
  rewrite !forallb_forall. intros H kv Hin. apply H.
  now apply filter_In in Hin as [Hin _].
Qed.

Lemma live_lookup_none key (ps : props_t) :
  lookup key ps = None -> lookup key (live ps) = None.
Proof.
  induction ps as [|[k x] ps IH]; [reflexivity|].
  cbn [lookup live filter snd]. fold (live ps).
  destruct (jsstring_eqb key k) eqn:E; [discriminate|]. intros H.
  destruct (negb (is_undefined x)); [cbn [lookup]; rewrite E|]; auto.
Qed.

Lemma live_distinct (ps : props_t) :
  distinct_keys ps = true -> distinct_keys (live ps) = true.
Proof.
  induction ps as [|[k x] ps IH]; [reflexivity|].
  cbn [distinct_keys live filter snd]. fold (live ps).
  destruct (lookup k ps) eqn:E; [discriminate|]. intros H.
  destruct (negb (is_undefined x)); [|auto].
  cbn [distinct_keys]. rewrite (live_lookup_none _ _ E). auto.
Qed.

Lemma bracket_assoc (o c : N) (a b d rest : jsstring) :
  (o :: 10%N :: a ++ b ++ 10%N :: d ++ [c]) ++ rest
  = o :: 10%N :: a ++ (b ++ 10%N :: d ++ c :: rest).
Proof.
  cbn [List.app]. do 2 f_equal. rewrite <- !app_assoc. cbn [List.app].
  do 2 f_equal. now rewrite <- app_assoc.
Qed.

(** What [JSON.stringify] wrote for a value without numbers and without
    repeated keys, [JSON.parse] reads back as that value. *)
Theorem written_reads_back (x : value) : reads_back x.
Proof.
  induction x as [| |b|n|str|items IH|ps IH] using value_nested_ind;
    intros Hsafe indent fuel s rest Hfuel Hs; try discriminate.
  - destruct fuel; [cbn in Hfuel; lia|]. now apply parse_value_null.
  - destruct fuel; [cbn in Hfuel; lia|]. now apply parse_value_null.
  - destruct fuel; [cbn in Hfuel; lia|].
    destruct b; [now apply parse_value_true | now apply parse_value_false].
  - destruct fuel; [cbn in Hfuel; lia|].
    unfold elem_text in Hs. cbn [serialize] in Hs. rewrite quote_app in Hs.
    eapply parse_value_string; [exact Hs | apply parse_chars_quote_units].
  - destruct fuel as [|f]; [cbn in Hfuel; lia|].
    rewrite elem_text_array in Hs. cbn [weight] in Hfuel. cbn [json_safe] in Hsafe.
    change (clean_elem (VArr items)) with (VArr ([] ++ map clean_elem items)).
    destruct items as [|x items]; [now apply parse_value_empty_array|].
    cbn [map] in Hs. rewrite bracket_assoc in Hs.
    assert (Hsx : json_safe x = true)
      by (cbn [forallb] in Hsafe; now apply andb_prop in Hsafe as [? _]).
    destruct (elem_text_head (indent + 2) x Hsx) as (h & t & Hx & Hh).
    destruct (join_head (separator (indent + 2)) _ (map (elem_text (indent + 2)) items)
                (10%N :: spaces indent ++ 93%N :: rest) h t Hx) as [u Hu].
    assert (Hskip : skip_ws (10%N :: spaces (indent + 2)
                             ++ join (separator (indent + 2))
                                  (elem_text (indent + 2) x
                                   :: map (elem_text (indent + 2)) items)
                             ++ 10%N :: spaces indent ++ 93%N :: rest)
                    = h :: u).
    { rewrite skip_ws_indent, Hu. now apply skip_ws_value_start. }
    rewrite (parse_value_array f s _ h u Hs Hskip Hh).
    apply (parse_elements_written indent (indent + 2) f rest (x :: items) IH Hsafe).
    + lia.
    + discriminate.
    + pose proof (length_le_weights (x :: items)). lia.
    + rewrite Hskip. cbn [map]. now rewrite Hu.
  - destruct fuel as [|f]; [cbn in Hfuel; lia|].
    rewrite elem_text_object in Hs. rewrite weight_object in Hfuel.
    cbn [json_safe] in Hsafe. apply andb_prop in Hsafe as [Hsafe Hdist].
    change (clean_elem (VObj ps)) with (clean (VObj ps)). rewrite clean_object.
    change (VObj (map (fun kv => (fst kv, clean (snd kv))) (live ps)))
      with (VObj ([] ++ map (fun kv => (fst kv, clean (snd kv))) (live ps))).
    assert (Hsafe' : forallb (fun kv => json_safe (snd kv)) (live ps) = true).
    { apply live_forallb. rewrite <- Hsafe. clear.
      induction ps as [|[k x] ps IHl]; [reflexivity|]. cbn [forallb snd]. now rewrite IHl. }
    pose proof (live_Forall _ _ IH) as IH'.
    pose proof (live_defined ps) as Hlive.
    pose proof (live_distinct _ Hdist) as Hdist'.
    destruct (live ps) as [|m mem]; [now apply parse_value_empty_object|].
    cbn [map] in Hs. rewrite bracket_assoc in Hs.
    destruct (member_text_head (indent + 2) m) as [t Hm].
    destruct (join_head (separator (indent + 2)) _ (map (member_text (indent + 2)) mem)
                (10%N :: spaces indent ++ 125%N :: rest) 34%N t Hm) as [u Hu].
    assert (Hskip : skip_ws (10%N :: spaces (indent + 2)
                             ++ join (separator (indent + 2))
                                  (member_text (indent + 2) m
                                   :: map (member_text (indent + 2)) mem)
                             ++ 10%N :: spaces indent ++ 125%N :: rest)
                    = 34%N :: u).
    { rewrite skip_ws_indent, Hu. reflexivity. }
    rewrite (parse_value_object f s _ 34%N u Hs Hskip eq_refl).
    apply (parse_members_written indent (indent + 2) f rest (m :: mem) IH' Hsafe' Hlive).
    + lia.
    + discriminate.
    + assert (Hlen : (List.length (m :: mem)
                      <= fold_right (fun kv n => weight (snd kv) + n) 0 (m :: mem))%nat).
      { clear. induction (m :: mem) as [|a l IHl]; cbn [List.length fold_right]; [lia|].
        pose proof (weight_pos (snd a)). lia. }
      lia.
    + exact Hdist'.
    + reflexivity.
    + rewrite Hskip. cbn [map]. now rewrite Hu.
Qed.

(** [JSON.parse(JSON.stringify(v, null, 2))] *)
Theorem JSON_parse_stringify (v : value) (text : jsstring) :
  json_safe v = true ->
  JSON_stringify v = Some text ->
  JSON_parse text = Some (clean v).
Proof.
  intros Hsafe Htext. unfold JSON_stringify in Htext.
  assert (Hv : v <> VUndefined) by (intros ->; discriminate).
  assert (He : elem_text 0 v = text) by (unfold elem_text; now rewrite Htext).
  destruct (elem_text_head 0 v Hsafe) as (h & t & Hh & Hstart).
  unfold JSON_parse.
  rewrite (written_reads_back v Hsafe 0 (S (List.length text)) text []).
  - cbn [skip_ws]. f_equal. destruct v; try reflexivity. congruence.
  - pose proof (weight_le_text v Hsafe 0). rewrite He in *. lia.
  - rewrite He, app_nil_r. rewrite <- He, Hh. now apply skip_ws_value_start.
Qed.

(** ** Export, then import *)

Lemma clean_example_value (e : Example) :
  clean_elem (example_value e) = example_json e.
Proof. destruct e as [s t [p|] en]; reflexivity. Qed.

Lemma json_safe_example_value (e : Example) : json_safe (example_value e) = true.
Proof. destruct e as [s t [p|] en]; reflexivity. Qed.

Lemma clean_card_value (c : FlashcardData) :
  clean_elem (card_value c) = card_json c.
Proof.
  destruct c as [id s t p en exs].
  assert (H : map clean_elem (map example_value exs) = map example_json exs)
    by (rewrite map_map; apply map_ext; apply clean_example_value).
  unfold card_json. cbn [card_examples]. rewrite <- H. reflexivity.
Qed.

Lemma json_safe_card_value (c : FlashcardData) : json_safe (card_value c) = true.
Proof.
  destruct c as [id s t p en exs]. unfold card_value.
  cbn [card_id card_simplified card_traditional card_pinyin card_english card_examples].
  cbn [json_safe]. apply andb_true_intro. split; [|reflexivity].
  cbn [forallb json_safe andb]. rewrite andb_true_r.
  rewrite forallb_forall. intros x Hin. apply in_map_iff in Hin as (e & <- & _).
  apply json_safe_example_value.
Qed.

Lemma clean_deck_value (d : Deck) : clean (deck_value d) = deck_json d.
Proof.
  destruct d as [title cards].
  assert (H : map clean_elem (map card_value cards) = map card_json cards)
    by (rewrite map_map; apply map_ext; apply clean_card_value).
  unfold deck_json. cbn [deck_cards]. rewrite <- H. reflexivity.
Qed.

Lemma json_safe_deck_value (d : Deck) : json_safe (deck_value d) = true.
Proof.
  destruct d as [title cards]. unfold deck_value.
  cbn [deck_title deck_cards json_safe]. apply andb_true_intro. split; [|reflexivity].
  cbn [forallb json_safe andb]. rewrite andb_true_r.
  rewrite forallb_forall. intros x Hin. apply in_map_iff in Hin as (c & <- & _).
  apply json_safe_card_value.
Qed.

(** The exported text of a deck is read back as the deck's objects. *)
Lemma exported_deck_parses (d : Deck) :
  exists text,
    JSON_stringify (deck_value d) = Some text
    /\ JSON_parse text = Some (deck_json d).
Proof.
  exists (elem_text 0 (deck_value d)).
  assert (H : JSON_stringify (deck_value d) = Some (elem_text 0 (deck_value d)))
    by (apply elem_text_defined; discriminate).
  split; [exact H|].
  rewrite (JSON_parse_stringify _ _ (json_safe_deck_value d) H).
  now rewrite clean_deck_value.
Qed.

Lemma import_example_json (e : Example) (i : nat) (w : World) :
  import_example (example_json e) i w = (inr (example_value e), w).
Proof.
  destruct e as [s t [p|] en]; destruct s, t; reflexivity.
Qed.

Lemma import_examples_json (exs : list Example) :
  forall i w,
    map_from i import_example (map example_json exs) w
    = (inr (map example_value exs), w).
Proof.
  induction exs as [|e exs IH]; intros i w; [reflexivity|].
  cbn [map map_from]. unfold bind. now rewrite import_example_json, IH.
Qed.

Lemma import_card_json (c : FlashcardData) (i : nat) (w : World) :
  card_id c <> [] -> import_card (card_json c) i w = (inr (card_value c), w).
Proof.
  destruct c as [id s t p en exs].
  cbn [card_id]. intros Hid. destruct id as [|u id]; [congruence|].
  unfold import_card.
  change (prop (card_json (mkCard (u :: id) s t p en exs)) "examples")
    with (inr (VArr (map example_json exs)) : exn + value).
  change (prop (card_json (mkCard (u :: id) s t p en exs)) "id")
    with (inr (VStr (u :: id)) : exn + value).
  unfold bind at 1. unfold lift at 1. unfold bind at 1.
  cbn [array_map]. unfold bind at 1. rewrite import_examples_json.
  reflexivity.
Qed.

Lemma import_cards_json (cs : list FlashcardData) :
  Forall (fun c => card_id c <> []) cs ->
  forall i w,
    map_from i import_card (map card_json cs) w = (inr (map card_value cs), w).
Proof.
  induction 1 as [|c cs Hc _ IH]; intros i w; [reflexivity|].
  cbn [map map_from]. unfold bind. now rewrite import_card_json, IH.
Qed.

Lemma processContent_deck_json (d : Deck) (text : jsstring) (w : World) :
  JSON_parse text = Some (deck_json d) ->
  Forall (fun c => card_id c <> []) (deck_cards d) ->
  processContent text w = (inr true, deliver (deck_value d) w).
Proof.
  intros Hp Hids. unfold processContent, processContent_json, try_catch.
  rewrite Hp.
  change (truthy (deck_json d)) with true.
  change (isValidDeck (deck_json d)) with true.
  change (prop (deck_json d) "cards")
    with (inr (VArr (map card_json (deck_cards d))) : exn + value).
  cbv iota. unfold bind at 1. unfold bind at 1. unfold lift at 1.
  unfold bind at 1. cbn [array_map]. unfold bind at 1.
  rewrite (import_cards_json _ Hids). reflexivity.
Qed.

(** In the layout of [deck_value] (the id first), a canonical deck whose
    cards all carry a non empty id survives export and import as the very
    same object: the text [saveDeck] writes for it, given to
    [processContent], delivers [deck_value d] again, without a request to
    the generation service.  [held_deck_round_trip] below is about the decks
    of a session, in any layout. *)
Lemma export_then_import (d : Deck) (s : AppState) (w : World) :
  deck s = Some (deck_value d) ->
  Forall (fun c => card_id c <> []) (deck_cards d) ->
  exists name text,
    saveDeck s = inr (Some (name, text))
    /\ processContent text w = (inr true, deliver (deck_value d) w)
    /\ deck (app (deliver (deck_value d) w)) = Some (deck_value d)
    /\ requests (deliver (deck_value d) w) = requests w.
Proof.
  intros Hd Hids. destruct (exported_deck_parses d) as (text & Hs & Hp).
  exists (map file_stem_unit (deck_title d) ++ lit ".json"), text.
  split; [|split; [|split]].
  - unfold saveDeck. rewrite Hd, Hs. reflexivity.
  - now apply processContent_deck_json.
  - reflexivity.
  - reflexivity.
Qed.

(** ** The reader has fuel enough *)

Lemma skip_ws_length (s : jsstring) : (List.length (skip_ws s) <= List.length s)%nat.
Proof.
  induction s as [|c s IH]; cbn [skip_ws List.length]; [lia|].
  destruct (is_json_space c); cbn [List.length]; lia.
Qed.

Lemma push_unit_some c r str rest :
  push_unit c r = Some (str, rest) ->
  exists str', r = Some (str', rest) /\ str = c :: str'.
Proof.
  destruct r as [[str' rest']|]; cbn; [|discriminate].
  intros H. inversion H; subst. eauto.
Qed.

Lemma parse_chars_shorter (n : nat) :
  forall s str r,
    (List.length s <= n)%nat -> parse_chars s = Some (str, r) ->
    (List.length r < List.length s)%nat.
Proof.
  induction n as [|n IH]; intros s str r Hn H.
  - destruct s; [discriminate | cbn in Hn; lia].
  - destruct s as [|c t]; [discriminate|]. cbn [parse_chars] in H.
    cbn [List.length] in *.
    destruct (c =? 34)%N.
    { inversion H; subst. lia. }
    destruct (c =? 92)%N.
    + destruct t as [|e t1]; [discriminate|]. cbn [List.length] in *.
      destruct (e =? 117)%N.
      * destruct t1 as [|h1 [|h2 [|h3 [|h4 t2]]]]; try discriminate.
        destruct (hex4 h1 h2 h3 h4); [|discriminate].
        apply push_unit_some in H as (str' & H & _).
        apply IH in H; cbn [List.length] in *; lia.
      * destruct (simple_escape e); [|discriminate].
        apply push_unit_some in H as (str' & H & _).
        apply IH in H; lia.
    + destruct (c <? 32)%N; [discriminate|].
      apply push_unit_some in H as (str' & H & _).
      apply IH in H; lia.
Qed.

Lemma span_digits_length (s : jsstring) :
  (List.length (snd (span_digits s)) <= List.length s)%nat.
Proof.
  induction s as [|c s IH]; cbn [span_digits]; [cbn; lia|].
  destruct (is_digit c); [|cbn; lia].
  destruct (span_digits s) as [ds r]. cbn [snd List.length] in *. lia.
Qed.

Lemma parse_exp_digits_length neg s e r :
  parse_exp_digits neg s = Some (e, r) -> (List.length r <= List.length s)%nat.
Proof.
  unfold parse_exp_digits. pose proof (span_digits_length s) as Hl.
  destruct (span_digits s) as [[|d ds] r']; [discriminate|].
  intros H. inversion H; subst. exact Hl.
Qed.

Lemma parse_number_shorter (s : jsstring) n r :
  parse_number s = Some (n, r) -> (List.length r < List.length s)%nat.
Proof.
  unfold parse_number.
  set (p := match s with
            | c :: t => if (c =? 45)%N then (true, t) else (false, s)
            | [] => (false, s)
            end).
  assert (Hp : (List.length (snd p) <= List.length s)%nat).
  { subst p. destruct s as [|c t]; [cbn; lia|].
    destruct (c =? 45)%N; cbn; lia. }
  destruct p as [neg s1]. cbn [snd] in Hp.
  destruct (parse_int_part s1) as [[int s2]|] eqn:Hint; [|discriminate].
  assert (H2 : (List.length s2 < List.length s1)%nat).
  { unfold parse_int_part in Hint. destruct s1 as [|c t]; [discriminate|].
    destruct (c =? 48)%N; [inversion Hint; subst; cbn; lia|].
    destruct (is_digit c) eqn:Ed; [|discriminate].
    inversion Hint as [Hsp]. cbn [span_digits] in Hsp. rewrite Ed in Hsp.
    pose proof (span_digits_length t) as Hl.
    destruct (span_digits t) as [ds r']. inversion Hsp; subst.
    cbn [snd List.length] in *. lia. }
  destruct (parse_frac_part s2) as [[frac s3]|] eqn:Hfrac; [|discriminate].
  assert (H3 : (List.length s3 <= List.length s2)%nat).
  { unfold parse_frac_part in Hfrac. destruct s2 as [|c t].
    - inversion Hfrac; subst. lia.
    - destruct (c =? 46)%N; [|inversion Hfrac; subst; lia].
      pose proof (span_digits_length t) as Hl.
      destruct (span_digits t) as [[|d ds] r']; [discriminate|].
      inversion Hfrac; subst. cbn [snd List.length] in *. lia. }
  destruct (parse_exp_part s3) as [[exp s4]|] eqn:Hexp; [|discriminate].
  assert (H4 : (List.length s4 <= List.length s3)%nat).
  { unfold parse_exp_part in Hexp. destruct s3 as [|c t].
    - inversion Hexp; subst. lia.
    - destruct ((c =? 101) || (c =? 69))%N; [|inversion Hexp; subst; lia].
      destruct t as [|d t']; [discriminate|].
      destruct (d =? 43)%N; [|destruct (d =? 45)%N];
        apply parse_exp_digits_length in Hexp; cbn [List.length] in *; lia. }
  intros H. inversion H; subst. lia.
Qed.

Lemma strip_prefix_length (w : jsstring) :
  forall s r, strip_prefix w s = Some r ->
              (List.length r + List.length w = List.length s)%nat.
Proof.
  induction w as [|a w IH]; intros s r H; cbn [strip_prefix] in H.
  - inversion H; subst. cbn. lia.
  - destruct s as [|b s]; [discriminate|].
    destruct (a =? b)%N; [|discriminate].
    apply IH in H. cbn [List.length]. lia.
Qed.

Lemma parse_keyword_shorter (w : string) v s v' r :
  lit w <> [] -> parse_keyword w v s = POk v' r ->
  (List.length r < List.length s)%nat.
Proof.
  unfold parse_keyword. intros Hw H.
  destruct (strip_prefix (lit w) s) as [r'|] eqn:E; [|discriminate].
  inversion H; subst. apply strip_prefix_length in E.
  destruct (lit w); [congruence | cbn [List.length] in E; lia].
Qed.

Section Fuel.

Variable pv : jsstring -> presult value.
Hypothesis pv_shorter :
  forall s v r, pv s = POk v r -> (List.length r < List.length s)%nat.

Lemma parse_elements_shorter (k : nat) :
  forall s acc v r,
    parse_elements pv k s acc = POk v r -> (List.length r < List.length s)%nat.
Proof.
  induction k as [|k IH]; intros s acc v r H; [discriminate|].
  cbn [parse_elements] in H.
  destruct (pv s) as [x r1| |] eqn:Hx; try discriminate.
  apply pv_shorter in Hx. pose proof (skip_ws_length r1) as Hl.
  destruct (skip_ws r1) as [|c r2]; [discriminate|]. cbn [List.length] in Hl.
  destruct (c =? 44)%N; [apply IH in H; lia|].
  destruct (c =? 93)%N; [|discriminate]. inversion H; subst. lia.
Qed.

Lemma parse_members_shorter (k : nat) :
  forall s acc v r,
    parse_members pv k s acc = POk v r -> (List.length r < List.length s)%nat.
Proof.
  induction k as [|k IH]; intros s acc v r H; [discriminate|].
  cbn [parse_members] in H. pose proof (skip_ws_length s) as Hs.
  destruct (skip_ws s) as [|q t]; [discriminate|]. cbn [List.length] in Hs.
  destruct (q =? 34)%N; [|discriminate].
  destruct (parse_chars t) as [[key r0]|] eqn:Hk; [|discriminate].
  apply (parse_chars_shorter (List.length t)) in Hk; [|lia].
  pose proof (skip_ws_length r0) as H0.
  destruct (skip_ws r0) as [|c r1]; [discriminate|]. cbn [List.length] in H0.
  destruct (c =? 58)%N; [|discriminate].
  destruct (pv r1) as [x r2| |] eqn:Hx; try discriminate.
  apply pv_shorter in Hx. pose proof (skip_ws_length r2) as H2.
  destruct (skip_ws r2) as [|d r3]; [discriminate|]. cbn [List.length] in H2.
  destruct (d =? 44)%N; [apply IH in H; lia|].
  destruct (d =? 125)%N; [|discriminate]. inversion H; subst. lia.
Qed.

Variable f : nat.
Hypothesis pv_fuel : forall s, (List.length s < f)%nat -> pv s <> PFuel.

Lemma parse_elements_fuel (k : nat) :
  forall s acc,
    (List.length s < k)%nat -> (List.length s < f)%nat ->
    parse_elements pv k s acc <> PFuel.
Proof.
  induction k as [|k IH]; intros s acc Hk Hf; [lia|].
  cbn [parse_elements]. pose proof (pv_fuel s Hf) as Hne.
  destruct (pv s) as [x r1| |] eqn:Hx; try congruence.
  apply pv_shorter in Hx. pose proof (skip_ws_length r1) as Hl.
  destruct (skip_ws r1) as [|c r2]; [discriminate|]. cbn [List.length] in Hl.
  destruct (c =? 44)%N; [apply IH; lia|].
  destruct (c =? 93)%N; discriminate.
Qed.

Lemma parse_members_fuel (k : nat) :
  forall s acc,
    (List.length s < k)%nat -> (List.length s <= f)%nat ->
    parse_members pv k s acc <> PFuel.
Proof.
  induction k as [|k IH]; intros s acc Hk Hf; [lia|].
  cbn [parse_members]. pose proof (skip_ws_length s) as Hs.
  destruct (skip_ws s) as [|q t]; [discriminate|]. cbn [List.length] in Hs.
  destruct (q =? 34)%N; [|discriminate].
  destruct (parse_chars t) as [[key r0]|] eqn:Hkey; [|discriminate].
  apply (parse_chars_shorter (List.length t)) in Hkey; [|lia].
  pose proof (skip_ws_length r0) as H0.
  destruct (skip_ws r0) as [|c r1]; [discriminate|]. cbn [List.length] in H0.
  destruct (c =? 58)%N; [|discriminate].
  assert (Hne : pv r1 <> PFuel) by (apply pv_fuel; lia).
  destruct (pv r1) as [x r2| |] eqn:Hx; try congruence.
  apply pv_shorter in Hx. pose proof (skip_ws_length r2) as H2.
  destruct (skip_ws r2) as [|d r3]; [discriminate|]. cbn [List.length] in H2.
  destruct (d =? 44)%N; [apply IH; lia|].
  destruct (d =? 125)%N; discriminate.
Qed.

End Fuel.

(** What the reader leaves is shorter than what it was given. *)
Lemma parse_value_shorter (fuel : nat) :
  forall s v r,
    parse_value fuel s = POk v r -> (List.length r < List.length s)%nat.
Proof.
  induction fuel as [|f IH]; intros s v r H; [discriminate|].
  cbn [parse_value] in H. pose proof (skip_ws_length s) as Hs.
  destruct (skip_ws s) as [|c t]; [discriminate|]. cbn [List.length] in Hs.
  destruct (c =? 123)%N.
  { pose proof (skip_ws_length t) as Ht.
    destruct (skip_ws t) as [|d r0]; [discriminate|]. cbn [List.length] in Ht.
    destruct (d =? 125)%N; [inversion H; subst; lia|].
    apply (parse_members_shorter _ IH) in H. lia. }
  destruct (c =? 91)%N.
  { pose proof (skip_ws_length t) as Ht.
    destruct (skip_ws t) as [|d r0]; [discriminate|]. cbn [List.length] in Ht.
    destruct (d =? 93)%N; [inversion H; subst; lia|].
    apply (parse_elements_shorter _ IH) in H. lia. }
  destruct (c =? 34)%N.
  { destruct (parse_chars t) as [[str r0]|] eqn:Hc; [|discriminate].
    inversion H; subst.
    apply (parse_chars_shorter (List.length t)) in Hc; lia. }
  destruct (c =? 116)%N.
  { apply parse_keyword_shorter in H; [cbn [List.length] in H; lia | discriminate]. }
  destruct (c =? 102)%N.
  { apply parse_keyword_shorter in H; [cbn [List.length] in H; lia | discriminate]. }
  destruct (c =? 110)%N.
  { apply parse_keyword_shorter in H; [cbn [List.length] in H; lia | discriminate]. }
  destruct (parse_number (c :: t)) as [[n r0]|] eqn:Hn; [|discriminate].
  inversion H; subst. apply parse_number_shorter in Hn. cbn [List.length] in Hn. lia.
Qed.

(** With more fuel than the text is long the reader never runs out: it
    returns a value or reports a syntax error. *)
Theorem parse_value_fuel (fuel : nat) :
  forall s, (List.length s < fuel)%nat -> parse_value fuel s <> PFuel.
Proof.
  induction fuel as [|f IH]; intros s Hlen; [lia|].
  cbn [parse_value]. pose proof (skip_ws_length s) as Hs.
  destruct (skip_ws s) as [|c t]; [discriminate|]. cbn [List.length] in Hs.
  destruct (c =? 123)%N.
  { destruct (skip_ws t) as [|d r0]; [discriminate|].
    destruct (d =? 125)%N; [discriminate|].
    apply (parse_members_fuel _ (parse_value_shorter f) f IH); lia. }
  destruct (c =? 91)%N.
  { destruct (skip_ws t) as [|d r0]; [discriminate|].
    destruct (d =? 93)%N; [discriminate|].
    apply (parse_elements_fuel _ (parse_value_shorter f) f IH); lia. }
  destruct (c =? 34)%N.
  { destruct (parse_chars t) as [[str r0]|]; discriminate. }
  unfold parse_keyword.
  destruct (c =? 116)%N; [destruct (strip_prefix _ _); discriminate|].
  destruct (c =? 102)%N; [destruct (strip_prefix _ _); discriminate|].
  destruct (c =? 110)%N; [destruct (strip_prefix _ _); discriminate|].
  destruct (parse_number (c :: t)) as [[n r0]|]; discriminate.
Qed.

(** [JSON_parse] is [None] only on a syntax error. *)
Corollary JSON_parse_total (text : jsstring) :
  parse_value (S (List.length text)) text <> PFuel.
Proof. apply parse_value_fuel. lia. Qed.

(** ** Decks the application holds *)

Lemma map_import_card_truthy items :
  forall i w ys w',
    map_from i import_card items w = (inr ys, w') ->
    Forall (fun c => truthy (id_of c) = true) ys.
Proof.
  induction items as [|x items IH]; intros i w ys w' H.
  - inversion H; subst. constructor.
  - cbn [map_from] in H.
    apply bind_inv in H as [(y & w1 & H1 & H)|(e & _ & He)]; [|discriminate].
    apply bind_inv in H as [(ys' & w2 & H2 & H)|(e & _ & He)]; [|discriminate].
    inversion H; subst ys w'. constructor; [|eapply IH; eassumption].
    now apply import_card_id_spec in H1 as [Ht _].
Qed.

Lemma map_with_card_id_truthy items :
  forall i w ys w',
    map_from i with_card_id items w = (inr ys, w') ->
    Forall (fun c => truthy (id_of c) = true) ys.
Proof.
  induction items as [|x items IH]; intros i w ys w' H.
  - inversion H; subst. constructor.
  - cbn [map_from] in H.
    apply bind_inv in H as [(y & w1 & H1 & H)|(e & _ & He)]; [|discriminate].
    apply bind_inv in H as [(ys' & w2 & H2 & H)|(e & _ & He)]; [|discriminate].
    inversion H; subst ys w'. constructor; [|eapply IH; eassumption].
    unfold with_card_id, bind, now, ret in H1. inversion H1; subst.
    now rewrite id_of_define_id.
Qed.

Lemma generateDeckFromList_ids content w d w' :
  generateDeckFromList content w = (inr d, w') ->
  exists items,
    prop d "cards" = inr (VArr items)
    /\ Forall (fun c => truthy (id_of c) = true) items.
Proof.
  unfold generateDeckFromList. intros H.
  apply bind_inv in H as [(text & w1 & _ & H)|(e & _ & He)]; [|discriminate].
  unfold parseResponse in H. destruct text as [[|u text]|]; try discriminate.
  destruct (JSON_parse (u :: text)) as [data|]; [|discriminate].
  apply bind_inv in H as [(cs & w2 & _ & H)|(e & _ & He)]; [|discriminate].
  apply bind_inv in H as [(cards & w3 & H3 & H)|(e & _ & He)]; [|discriminate].
  apply bind_inv in H as [(title & w4 & _ & H)|(e & _ & He)]; [|discriminate].
  inversion H; subst d w'.
  destruct cs; try discriminate. cbn [array_map] in H3.
  apply bind_inv in H3 as [(ys & w5 & H5 & H3)|(e & _ & He)]; [|discriminate].
  inversion H3; subst cards w3.
  exists ys. split; [reflexivity|]. eapply map_with_card_id_truthy; eassumption.
Qed.

Lemma deliver_inv {B} (m : M value) (b : B) w (r : B) w' :
  (d <- m ;; onDeckGenerated d ;;; ret b) w = (inr r, w') ->
  exists d w1, m w = (inr d, w1) /\ deck (app w') = Some d.
Proof.
  intros H.
  apply bind_inv in H as [(d & w1 & H1 & H)|(e & _ & He)]; [|discriminate].
  exists d, w1. split; [exact H1|].
  unfold bind, onDeckGenerated, modify, ret in H. inversion H; subst. reflexivity.
Qed.

(** Every card of a deck that [processContent] delivers has a truthy id. *)
Lemma processContent_delivers_ids content w w' :
  processContent content w = (inr true, w') ->
  exists d items,
    deck (app w') = Some d /\ prop d "cards" = inr (VArr items)
    /\ Forall (fun c => truthy (id_of c) = true) items.
Proof.
  unfold processContent, try_catch. intros H.
  destruct (bind (processContent_json content) _ w) as [[e|b] w1] eqn:Hb;
    [cbn in H; discriminate|].
  inversion H; subst b w1. clear H.
  apply bind_inv in Hb as [(r & w1 & Hj & Hk)|(e & _ & He)]; [|discriminate].
  destruct r as [b|].
  - inversion Hk; subst b w1. clear Hk. unfold processContent_json in Hj.
    destruct (JSON_parse content) as [json|]; [|discriminate].
    destruct (truthy json); [|discriminate].
    destruct (isValidDeck json).
    + apply bind_inv in Hj as [(cs & w1 & _ & Hj)|(e & _ & He)]; [|discriminate].
      apply bind_inv in Hj as [(cards & w2 & Hm & Hj)|(e & _ & He)]; [|discriminate].
      unfold bind, onDeckGenerated, modify, ret in Hj. inversion Hj; subst w'.
      destruct cs; try discriminate. cbn [array_map] in Hm.
      apply bind_inv in Hm as [(ys & w3 & Hys & Hm)|(e & _ & He)]; [|discriminate].
      inversion Hm; subst cards w2.
      eexists _, ys. split; [reflexivity|]. split.
      * unfold prop. now rewrite lookup_define_same.
      * eapply map_import_card_truthy; eassumption.
    + destruct (string_array json) as [strs|]; [|discriminate].
      apply deliver_inv in Hj as (d & w2 & Hg & Hd).
      apply generateDeckFromList_ids in Hg as (items & Hc & Hids). eauto.
  - destruct (is_blank content); [discriminate|].
    apply deliver_inv in Hk as (d & w2 & Hg & Hd).
    apply generateDeckFromList_ids in Hg as (items & Hc & Hids). eauto.
Qed.

Lemma canonical_ids_not_empty (cs : list FlashcardData) :
  Forall (fun c => truthy (id_of c) = true) (map card_value cs) ->
  Forall (fun c => card_id c <> []) cs.
Proof.
  induction cs as [|c cs IH]; intros H; [constructor|].
  inversion H as [|? ? Hc Hcs]; subst. constructor; [|auto].
  change (id_of (card_value c)) with (VStr (card_id c)) in Hc.
  intros He. rewrite He in Hc. discriminate.
Qed.

(** X23. A canonical deck that the importer delivered is exported and imported
    again as itself: the ids the importer hands out are never empty. *)
Lemma ingested_deck_reimports (content : jsstring) (w1 w1' w : World) (d : Deck) :
  processContent content w1 = (inr true, w1') ->
  deck (app w1') = Some (deck_value d) ->
  exists name exported,
    saveDeck (app w1') = inr (Some (name, exported))
    /\ processContent exported w = (inr true, deliver (deck_value d) w).
Proof.
  intros Hrun Hd.
  destruct (processContent_delivers_ids _ _ _ Hrun) as (v & items & Hv & Hc & Hids).
  rewrite Hd in Hv. inversion Hv; subst v.
  change (prop (deck_value d) "cards")
    with (inr (VArr (map card_value (deck_cards d))) : exn + value) in Hc.
  inversion Hc; subst items. apply canonical_ids_not_empty in Hids.
  destruct (exported_deck_parses d) as (exported & Hs & Hp).
  exists (map file_stem_unit (deck_title d) ++ lit ".json"), exported. split.
  - unfold saveDeck. rewrite Hd, Hs. reflexivity.
  - now apply processContent_deck_json.
Qed.

(* ================================================================= *)
(** ** Navigation in both directions *)

(** X1. Previous undoes next and next undoes previous: from a position of the
    deck, the two presses give the state back, with the card unflipped. *)
Theorem prev_undoes_next (s : AppState) (d : value) (items : list value) (i : Z) :
  deck s = Some d ->
  prop d "cards" = inr (VArr items) ->
  currentCardIndex s = Fin i ->
  (0 <= i < Z.of_nat (List.length items))%Z ->
  handlePrev (handleNext s) = mkApp (Some d) (Fin i) false (scriptMode s) /\
  handleNext (handlePrev s) = mkApp (Some d) (Fin i) false (scriptMode s).
Proof.
  intros Hd Hc Hi Hr.
  set (n := Z.of_nat (List.length items)) in *.
  rewrite (handleNext_loaded d items Hc s Hd), (handlePrev_loaded d items Hc s Hd).
  erewrite (handlePrev_loaded d items Hc) by reflexivity.
  erewrite (handleNext_loaded d items Hc) by reflexivity.
  cbn [currentCardIndex scriptMode]. rewrite Hi. fold n.
  rewrite (js_next_in_range n i Hr), (js_prev_in_range n i Hr).
  rewrite js_prev_in_range, js_next_in_range by (apply Z.mod_pos_bound; lia).
  split; f_equal; f_equal.
  - rewrite Zminus_mod_idemp_l. replace (i + 1 - 1)%Z with i by lia.
    apply Z.mod_small. exact Hr.
  - rewrite Zplus_mod_idemp_l. replace (i - 1 + 1)%Z with i by lia.
    apply Z.mod_small. exact Hr.
Qed.

(** X2. From position i of a deck of N cards, k presses of next lead to position
    (i + k) mod N and k presses of previous to (i - k) mod N; k presses of one
    after k of the other lead back to i. *)
Theorem position_after_presses (k : nat) (s : AppState) (d : value)
    (items : list value) (i : Z) :
  deck s = Some d ->
  prop d "cards" = inr (VArr items) ->
  currentCardIndex s = Fin i ->
  (0 <= i < Z.of_nat (List.length items))%Z ->
  currentCardIndex (Nat.iter k handleNext s)
  = Fin ((i + Z.of_nat k) mod Z.of_nat (List.length items)) /\
  currentCardIndex (Nat.iter k handlePrev s)
  = Fin ((i - Z.of_nat k) mod Z.of_nat (List.length items)) /\
  currentCardIndex (Nat.iter k handlePrev (Nat.iter k handleNext s)) = Fin i.
Proof.
  intros Hd Hc Hi Hr.
  assert (Hne : items <> []) by (destruct items; [cbn in Hr; lia | discriminate]).
  destruct (handleNext_iter d items Hc Hne k s i Hd Hi Hr) as [Hnd Hni].
  destruct (handlePrev_iter d items Hc Hne k s i Hd Hi Hr) as [_ Hpi].
  split; [exact Hni|]. split; [exact Hpi|].
  destruct (handlePrev_iter d items Hc Hne k _ _ Hnd Hni) as [_ Hback].
  - apply Z.mod_pos_bound. lia.
  - rewrite Hback. f_equal. rewrite Zminus_mod_idemp_l.
    replace (i + Z.of_nat k - Z.of_nat k)%Z with i by lia.
    apply Z.mod_small. exact Hr.
Qed.

(* ================================================================= *)
(** ** What is on display *)

Lemma element_at_position (items : list value) (i : nat) (c : value) :
  nth_error items i = Some c -> element_at items (Fin (Z.of_nat i)) = c.
Proof.
  intros H. unfold element_at.
  destruct (Z.ltb_spec (Z.of_nat i) 0); [lia|].
  rewrite Nat2Z.id. now apply nth_error_nth.
Qed.

(** When every timer expires before the next event ([reachable]), a session
    with a deck of at least one card shows a card of the deck, and the
    counter of the header shows a position between 1 and the number of
    cards.  [session_shows_a_card] below is about the session with its
    timers. *)
Lemma reachable_shows_a_card (s : AppState) (d : value) (items : list value) :
  reachable s ->
  deck s = Some d ->
  prop d "cards" = inr (VArr items) ->
  items <> [] ->
  exists (i : nat) (c : value),
    (i < List.length items)%nat
    /\ currentCardIndex s = Fin (Z.of_nat i)
    /\ nth_error items i = Some c
    /\ current_card s = Some c
    /\ counter s = Some (Fin (Z.of_nat i + 1), Fin (Z.of_nat (List.length items))).
Proof.
  intros Hs Hd Hc Hne.
  destruct (reachable_index_in_range s Hs d items Hd Hc Hne) as (z & Hz & Hr).
  assert (Hlt : (Z.to_nat z < List.length items)%nat) by lia.
  destruct (nth_error items (Z.to_nat z)) as [c|] eqn:Hnth;
    [|apply nth_error_None in Hnth; lia].
  exists (Z.to_nat z), c. rewrite Z2Nat.id by lia.
  repeat split; try assumption.
  - unfold current_card. rewrite Hd, Hc, Hz. f_equal.
    rewrite <- (Z2Nat.id z) by lia. now apply element_at_position.
  - unfold counter, cards_length. rewrite Hd, Hc, Hz. reflexivity.
Qed.

(** X4. A deck without cards has no card to show: the data of the card is
    [undefined], on which the render of the card throws; next and previous
    make the index [NaN]. *)
Theorem empty_deck_has_no_card (s : AppState) (d : value) :
  deck s = Some d ->
  prop d "cards" = inr (VArr []) ->
  current_card s = Some VUndefined
  /\ (forall flipped m, Flashcard VUndefined flipped m = inl TypeError)
  /\ currentCardIndex (handleNext s) = NaN
  /\ currentCardIndex (handlePrev s) = NaN
  /\ counter (handleNext s) = Some (NaN, Fin 0).
Proof.
  intros Hd Hc.
  assert (Hn : currentCardIndex (handleNext s) = NaN).
  { rewrite (handleNext_loaded d [] Hc s Hd). cbn.
    destruct (currentCardIndex s); reflexivity. }
  repeat split.
  - unfold current_card. rewrite Hd, Hc. f_equal. unfold element_at.
    destruct (currentCardIndex s) as [z|]; [|reflexivity].
    destruct (z <? 0)%Z; [reflexivity|]. now destruct (Z.to_nat z).
  - exact Hn.
  - rewrite (handlePrev_loaded d [] Hc s Hd). cbn.
    destruct (currentCardIndex s); reflexivity.
  - unfold counter, cards_length. rewrite handleNext_deck, Hd, Hc, Hn. reflexivity.
Qed.

(* ================================================================= *)
(** ** Keyboard *)

(** X5. No key changes the deck or the script; a key pressed in a text field, a
    key pressed while no deck is loaded and every key but the five shortcuts
    change nothing at all; and a key leads from a state of the application to
    a state of the application. *)
Theorem keydown_frame (in_field : bool) (code : string) (s : AppState) :
  deck (keydown in_field code s) = deck s
  /\ scriptMode (keydown in_field code s) = scriptMode s
  /\ (in_field = true \/ deck s = None -> keydown in_field code s = s)
  /\ (~ In code ["Space"; "ArrowUp"; "ArrowDown"; "ArrowRight"; "ArrowLeft"]%string ->
      keydown in_field code s = s)
  /\ (reachable s -> reachable (keydown in_field code s)).
Proof.
  unfold keydown, handleKeyDown.
  destruct (deck s) as [d|] eqn:Hd.
  2:{ repeat split; auto. }
  destruct in_field.
  { repeat split; auto. }
  destruct (String.eqb_spec code "Space") as [->|H1].
  { cbn [orb]. repeat split; try (cbn; first [assumption | reflexivity]).
    - intros [H|H]; congruence.
    - intros H. exfalso. apply H. cbn. repeat ((left; reflexivity) || right).
    - intros H. apply reach_flip; [assumption | congruence]. }
  destruct (String.eqb_spec code "ArrowUp") as [->|H2].
  { cbn [orb]. repeat split; try (cbn; first [assumption | reflexivity]).
    - intros [H|H]; congruence.
    - intros H. exfalso. apply H. cbn. repeat ((left; reflexivity) || right).
    - intros H. apply reach_flip; [assumption | congruence]. }
  destruct (String.eqb_spec code "ArrowDown") as [->|H3].
  { cbn [orb]. repeat split; try (cbn; first [assumption | reflexivity]).
    - intros [H|H]; congruence.
    - intros H. exfalso. apply H. cbn. repeat ((left; reflexivity) || right).
    - intros H. apply reach_flip; [assumption | congruence]. }
  cbn [orb].
  destruct (String.eqb_spec code "ArrowRight") as [->|H4].
  { repeat split.
    - rewrite handleNext_deck. exact Hd.
    - unfold handleNext. rewrite Hd. destruct (cards_length d); reflexivity.
    - intros [H|H]; congruence.
    - intros H. exfalso. apply H. cbn. repeat ((left; reflexivity) || right).
    - apply reach_next. }
  destruct (String.eqb_spec code "ArrowLeft") as [->|H5].
  { repeat split.
    - rewrite handlePrev_deck. exact Hd.
    - unfold handlePrev. rewrite Hd. destruct (cards_length d); reflexivity.
    - intros [H|H]; congruence.
    - intros H. exfalso. apply H. cbn. repeat ((left; reflexivity) || right).
    - apply reach_prev. }
  repeat split; auto.
Qed.

(* ================================================================= *)
(** ** Timers *)

Lemma run_pending_deck (p : Pending) (s : AppState) :
  deck (run_pending p s) = deck s.
Proof. destruct p as [d|d]; cbn; destruct (cards_length d); reflexivity. Qed.

Lemma run_pending_setIsFlipped (h : bool -> bool) (p : Pending) (s : AppState) :
  run_pending p (setIsFlipped h s) = setIsFlipped h (run_pending p s).
Proof. destruct p as [d|d]; cbn; destruct (cards_length d); reflexivity. Qed.

Lemma run_pending_setScriptMode (h : Script -> Script) (p : Pending) (s : AppState) :
  run_pending p (setScriptMode h s) = setScriptMode h (run_pending p s).
Proof. destruct p as [d|d]; cbn; destruct (cards_length d); reflexivity. Qed.

(** The state once the timers [ps] have expired. *)
Lemma drain_deck (ps : list Pending) (s : AppState) :
  deck (fold_left (fun s p => run_pending p s) ps s) = deck s.
Proof.
  revert s. induction ps as [|p ps IH]; intros s; [reflexivity|].
  cbn [fold_left]. now rewrite IH, run_pending_deck.
Qed.

Lemma drain_setIsFlipped (h : bool -> bool) (ps : list Pending) (s : AppState) :
  fold_left (fun s p => run_pending p s) ps (setIsFlipped h s)
  = setIsFlipped h (fold_left (fun s p => run_pending p s) ps s).
Proof.
  revert s. induction ps as [|p ps IH]; intros s; [reflexivity|].
  cbn [fold_left]. now rewrite run_pending_setIsFlipped, IH.
Qed.

Lemma drain_setScriptMode (h : Script -> Script) (ps : list Pending) (s : AppState) :
  fold_left (fun s p => run_pending p s) ps (setScriptMode h s)
  = setScriptMode h (fold_left (fun s p => run_pending p s) ps s).
Proof.
  revert s. induction ps as [|p ps IH]; intros s; [reflexivity|].
  cbn [fold_left]. now rewrite run_pending_setScriptMode, IH.
Qed.

Lemma settle_drains (t : Timed) :
  settle t = mkTimed (fold_left (fun s p => run_pending p s) (timers t) (current t)) [].
Proof.
  unfold settle. destruct t as [s ps]. cbn [timers current]. revert s.
  induction ps as [|p ps IH]; intros s; [reflexivity|].
  cbn [List.length]. rewrite Nat.iter_succ_r. unfold fire at 2. cbn [timers current].
  rewrite IH. reflexivity.
Qed.

Lemma drain_step (t : Timed) (e : Event) :
  fold_left (fun s p => run_pending p s) (timers (timed_step t e))
    (current (timed_step t e))
  = atomic_step (fold_left (fun s p => run_pending p s) (timers t) (current t)) e.
Proof.
  destruct t as [s ps]. destruct e; cbn [timed_step atomic_step].
  - unfold press_next, handleNext. cbn [current timers].
    rewrite drain_deck. destruct (deck s) as [d|] eqn:Hd; [|reflexivity].
    cbn [current timers]. rewrite fold_left_app, drain_setIsFlipped. reflexivity.
  - unfold press_prev, handlePrev. cbn [current timers].
    rewrite drain_deck. destruct (deck s) as [d|] eqn:Hd; [|reflexivity].
    cbn [current timers]. rewrite fold_left_app, drain_setIsFlipped. reflexivity.
  - unfold at_once, handleFlip. cbn [current timers]. apply drain_setIsFlipped.
  - unfold at_once, toggleScriptMode. cbn [current timers]. apply drain_setScriptMode.
  - unfold fire. cbn [current timers]. destruct ps; reflexivity.
Qed.

Lemma drain_steps (evs : list Event) (t : Timed) :
  fold_left (fun s p => run_pending p s) (timers (fold_left timed_step evs t))
    (current (fold_left timed_step evs t))
  = fold_left atomic_step evs
      (fold_left (fun s p => run_pending p s) (timers t) (current t)).
Proof.
  revert t. induction evs as [|e evs IH]; intros t; [reflexivity|].
  cbn [fold_left]. rewrite IH, drain_step. reflexivity.
Qed.

(** X6. The timers change nothing in the end: whatever the order in which the
    presses of next, previous, flip and the script button and the expiry of
    timers follow each other, once the timers have all expired the session is
    in the state it reaches when every press of next and previous moves the
    index at once.  No press is lost. *)
Theorem timers_agree_with_atomic (evs : list Event) (s : AppState) :
  settle (fold_left timed_step evs (mkTimed s []))
  = mkTimed (fold_left atomic_step evs s) [].
Proof. rewrite settle_drains, drain_steps. reflexivity. Qed.

(* ================================================================= *)
(** ** The card *)

Lemma rows_script (m m' : Script) (exs : list value) rs :
  rows m exs = inr rs ->
  exists rs', rows m' exs = inr rs' /\ List.length rs' = List.length rs.
Proof.
  revert rs. induction exs as [|ex exs IH]; intros rs H.
  - inversion H; subst. now exists [].
  - cbn [rows] in *. unfold example_row, example_line in *.
    destruct ex; try (destruct m; discriminate);
      (destruct (rows m exs) as [e|rs0] eqn:Hr;
       [destruct m; cbn in H; discriminate|]);
      destruct (IH _ eq_refl) as (rs' & -> & Hlen);
      destruct m, m'; cbn in *; inversion H; subst; eexists; split;
        try reflexivity; cbn; now rewrite Hlen.
Qed.

(** The script button swaps the two faces of a card: the character shown
    large and the character shown small change places, and so do their
    labels and fonts; pinyin, translation and the number of examples stay. *)
Theorem script_toggle_swaps_faces (data : value) (flipped : bool) (s : AppState)
    (v : CardView) :
  Flashcard data flipped (scriptMode s) = inr v ->
  exists v',
    Flashcard data flipped (scriptMode (toggleScriptMode s)) = inr v'
    /\ mainChar v' = secondaryChar v
    /\ secondaryChar v' = mainChar v
    /\ mainFontClass v' = secondaryFontClass v
    /\ secondaryFontClass v' = mainFontClass v
    /\ secondaryLabel v' <> secondaryLabel v
    /\ view_pinyin v' = view_pinyin v
    /\ view_english v' = view_english v
    /\ List.length (view_examples v') = List.length (view_examples v).
Proof.
  unfold Flashcard, and_then. intros H.
  destruct (prop data "simplified") as [e|simplified]; [discriminate|].
  destruct (prop data "traditional") as [e|traditional]; [discriminate|].
  destruct (prop data "pinyin") as [e|pinyin]; [discriminate|].
  destruct (prop data "english") as [e|english]; [discriminate|].
  destruct (prop data "examples") as [e|examples]; [discriminate|].
  destruct examples as [| | | | |exs|]; try discriminate.
  destruct (rows (scriptMode s) exs) as [e|rs] eqn:Hr; [discriminate|].
  destruct (rows_script _ (scriptMode (toggleScriptMode s)) _ _ Hr) as (rs' & -> & Hlen).
  inversion H; subst v. eexists. split; [reflexivity|].
  destruct s as [dk ix fl m]. destruct m; cbn; repeat split; try assumption; discriminate.
Qed.

(** The key of a card tells the id of the card and the script: a change of
    either gives another key, so that the card is mounted again. *)
Theorem flashcard_key_inj (id id' : jsstring) (m m' : Script) :
  flashcard_key id m = flashcard_key id' m' -> id = id' /\ m = m'.
Proof.
  unfold flashcard_key.
  assert (Hs : lit "-" ++ lit (script_name Simplified)
               = lit "-simplifie" ++ [100%N]) by reflexivity.
  assert (Ht : lit "-" ++ lit (script_name Traditional)
               = lit "-traditiona" ++ [108%N]) by reflexivity.
  destruct m, m'; rewrite ?Hs, ?Ht, !app_assoc; intros H;
    apply app_inj_tail in H as [H Hc]; try discriminate.
  - apply app_inv_tail in H. now split.
  - apply app_inv_tail in H. now split.
Qed.

(** An example of the older format, once imported, reads the same in both
    scripts: the card shows its [chinese] text whatever the script. *)
Theorem legacy_example_shown_in_both_scripts (ex : value) (text : jsstring)
    (i : nat) (w : World) :
  legacy_example ex text ->
  exists ex',
    import_example ex i w = (inr ex', w)
    /\ forall m, example_line m ex' = inr (VStr text).
Proof.
  intros (ps & -> & Hs & Ht & Hc).
  unfold import_example, bind, lift, ret, prop.
  rewrite Hs, Ht, Hc. eexists. split; [reflexivity|].
  intros m. destruct m; unfold example_line, prop, js_or; cbn [lookup truthy].
  - destruct text; cbn; rewrite jsstring_eqb_refl; reflexivity.
  - rewrite jsstring_eqb_neq by (vm_compute; discriminate).
    rewrite jsstring_eqb_refl. destruct text; reflexivity.
Qed.

(** X7. The stroke order player makes one writer for each code unit of its text,
    in order.  A character outside the basic plane is therefore given to two
    writers, half to each; without the container or the library there is no
    writer, and a text that is not a string makes the effect throw. *)
Theorem player_writes_code_units :
  (forall s : jsstring,
     exists ws, player_writers true (VStr s) = inr ws
                /\ List.concat ws = s
                /\ Forall (fun u => List.length u = 1%nat) ws)
  /\ (forall cp : N,
        (65536 <= cp < 1114112)%N ->
        exists hi lo,
          player_writers true (VStr (utf16 cp)) = inr [[hi]; [lo]]
          /\ is_high_surrogate hi = true /\ is_low_surrogate lo = true)
  /\ (forall text, player_writers false text = inr [])
  /\ (forall text, (forall s, text <> VStr s) ->
        player_writers true text = inl TypeError).
Proof.
  repeat split.
  - intros s. exists (split_units s). split; [reflexivity|].
    unfold split_units. induction s as [|c s [IH1 IH2]]; cbn.
    + split; constructor.
    + split; [now rewrite IH1 | constructor; [reflexivity | exact IH2]].
  - intros cp Hcp. unfold utf16.
    destruct (N.ltb_spec cp 65536); [lia|].
    eexists _, _. split; [reflexivity|].
    unfold is_high_surrogate, is_low_surrogate.
    assert ((cp - 65536) / 1024 < 1024)%N
      by (apply N.Div0.div_lt_upper_bound; lia).
    assert ((cp - 65536) mod 1024 < 1024)%N by (apply N.mod_lt; lia).
    generalize dependent ((cp - 65536) / 1024)%N.
    generalize dependent ((cp - 65536) mod 1024)%N. intros r Hr q Hq.
    split; apply andb_true_iff; split; apply N.leb_le; lia.
  - intros text Hn. destruct text; try reflexivity. now destruct (Hn s).
Qed.

(* ================================================================= *)
(** ** The exported file *)

Lemma file_stem_unit_range (c : N) :
  ((48 <= file_stem_unit c <= 57) \/ (97 <= file_stem_unit c <= 122)
   \/ file_stem_unit c = 95)%N.
Proof.
  unfold file_stem_unit.
  destruct (N.leb_spec 48 c), (N.leb_spec c 57); cbn [andb]; try lia;
    destruct (N.leb_spec 97 c), (N.leb_spec c 122); cbn [andb]; try lia;
    destruct (N.leb_spec 65 c), (N.leb_spec c 90); cbn [andb]; lia.
Qed.

Lemma file_stem_unit_fixed (c : N) :
  ((48 <= c <= 57) \/ (97 <= c <= 122) \/ c = 95)%N -> file_stem_unit c = c.
Proof.
  intros H. unfold file_stem_unit.
  destruct (N.leb_spec 48 c), (N.leb_spec c 57); cbn [andb]; try lia;
    destruct (N.leb_spec 97 c), (N.leb_spec c 122); cbn [andb]; try lia;
    destruct (N.leb_spec 65 c), (N.leb_spec c 90); cbn [andb]; lia.
Qed.

(** X8. The name of the exported file is made of the title, one character for
    each code unit of it, and of [.json]: its characters before the
    extension are lower case letters, digits and underscores, whatever the
    title holds, and a title made of lower case letters, digits and
    underscores is kept as it is. *)
Theorem export_file_name_safe (s : AppState) (d : value) (title : jsstring) :
  deck s = Some d ->
  prop d "title" = inr (VStr title) ->
  exists stem text,
    saveDeck s = inr (Some (stem ++ lit ".json", text))
    /\ List.length stem = List.length title
    /\ Forall (fun c => (48 <= c <= 57) \/ (97 <= c <= 122) \/ c = 95)%N stem
    /\ map file_stem_unit stem = stem
    /\ (Forall (fun c => (48 <= c <= 57) \/ (97 <= c <= 122) \/ c = 95)%N title ->
        stem = title).
Proof.
  intros Hd Ht. exists (map file_stem_unit title). eexists.
  split; [unfold saveDeck; rewrite Hd, Ht; reflexivity|].
  split; [apply length_map|]. split; [|split].
  - apply Forall_map, Forall_forall. intros c _. apply file_stem_unit_range.
  - rewrite map_map. apply map_ext. intros c.
    apply file_stem_unit_fixed, file_stem_unit_range.
  - intros Hall. rewrite <- (map_id title) at 2. apply map_ext_in.
    intros c Hin. rewrite Forall_forall in Hall. now apply file_stem_unit_fixed, Hall.
Qed.

(** [saveDeck] fails exactly on a deck whose title is not a string, with a
    [TypeError] and after the text of the file was made; it does nothing
    exactly when no deck is loaded. *)
Theorem saveDeck_needs_string_title (s : AppState) :
  (saveDeck s = inl TypeError <->
   exists d, deck s = Some d /\ forall t, prop d "title" <> inr (VStr t))
  /\ (forall e, saveDeck s = inl e -> e = TypeError)
  /\ (saveDeck s = inr None <-> deck s = None).
Proof.
  unfold saveDeck. destruct (deck s) as [d|].
  - assert (Hcase : (exists t, prop d "title" = inr (VStr t))
                    \/ (forall t, prop d "title" <> inr (VStr t))).
    { destruct (prop d "title") as [e|[]]; try (right; intros; discriminate).
      left; eauto. }
    destruct Hcase as [[t Ht]|Hn].
    + rewrite Ht. split; [split|split].
      * discriminate.
      * intros (d' & Hd' & Hn). inversion Hd'; subst d'. now destruct (Hn t).
      * intros e H. discriminate.
      * split; discriminate.
    + destruct (prop d "title") as [e|[]] eqn:Ht; try (exfalso; apply (Hn s0); reflexivity);
        (split; [split; [intros _; exists d; split; [reflexivity | intros t' Ht'; congruence] | reflexivity]
                | split; [intros e' H; now inversion H | split; discriminate]]).
  - split; [split; [discriminate | intros (d & Hd & _); discriminate]|].
    split; [discriminate | split; reflexivity].
Qed.

(* ================================================================= *)
(** ** The generation client *)

Lemma quiet_generateDeck topic : quiet (generateDeck topic).
Proof.
  unfold generateDeck, quiet.
  apply keeps_bind; [apply same_session_trans | apply quiet_generate |].
  intros text. apply quiet_parseResponse.
Qed.

(** X9. Each of the two entry points of the client sends one request, built
    around its input, whether the call succeeds or not; it touches nothing
    of the component or of the session; a rejection of the service is thrown
    on to the caller. *)
Theorem generation_is_one_request (input : jsstring) (w : World) :
  requests (snd (generateDeck input w)) = requests w ++ [topic_prompt input]
  /\ same_session w (snd (generateDeck input w))
  /\ requests (snd (generateDeckFromList input w)) = requests w ++ [list_prompt input]
  /\ same_session w (snd (generateDeckFromList input w))
  /\ (generateContent (topic_prompt input) = None ->
      fst (generateDeck input w) = inl Rejected)
  /\ (generateContent (list_prompt input) = None ->
      fst (generateDeckFromList input w) = inl Rejected).
Proof.
  split; [|split; [|split; [|split; [|split]]]].
  - unfold generateDeck, bind, generate.
    destruct (generateContent (topic_prompt input)) as [text|]; [|reflexivity].
    match goal with |- context [parseResponse ?t ?w1] =>
      destruct (parseResponse t w1) as [r w2] eqn:H end.
    apply offline_parseResponse in H. exact H.
  - destruct (generateDeck input w) as [r w'] eqn:H.
    apply (quiet_generateDeck input _ _ _ H).
  - destruct (generateDeckFromList input w) as [r w'] eqn:H.
    apply (generateDeckFromList_requests _ _ _ _ H).
  - destruct (generateDeckFromList input w) as [r w'] eqn:H.
    apply (quiet_generateDeckFromList input _ _ _ H).
  - intros H. unfold generateDeck, bind, generate. now rewrite H.
  - intros H. unfold generateDeckFromList, bind, generate. now rewrite H.
Qed.

(** The world after [n] more readings of the clock. *)
Lemma map_with_card_id_result (items : list value) :
  forall (i : nat) (w : World),
  exists cards,
    map_from i with_card_id items w
    = (inr cards,
       mkWorld (app w) (error w) (isLoading w) (inputValue w) (requests w)
         (delivered w) (shown w) (clock w + List.length items))
    /\ List.length cards = List.length items
    /\ forall k c,
         nth_error items k = Some c ->
         nth_error cards k
         = Some (VObj (define (lit "id")
                         (VStr (fresh_id "card-" (Date_now (clock w + k)) (i + k)))
                         (spread c))).
Proof.
  induction items as [|x items IH]; intros i w.
  - exists []. cbn. rewrite Nat.add_0_r. destruct w. repeat split.
    intros [|k] c H; discriminate.
  - destruct (IH (S i)
                (mkWorld (app w) (error w) (isLoading w) (inputValue w) (requests w)
                   (delivered w) (shown w) (S (clock w))))
      as (cards & Hrun & Hlen & Hnth).
    eexists. split; [|split].
    + cbn in Hrun. cbn [map_from]. unfold bind at 1. unfold with_card_id at 1.
      unfold bind at 1. unfold now at 1. unfold ret at 1. unfold bind at 1.
      rewrite Hrun. unfold ret. apply f_equal2; [reflexivity|]. f_equal. cbn. lia.
    + cbn. now rewrite Hlen.
    + intros [|k] c Hk; cbn in Hk |- *.
      * inversion Hk; subst. now rewrite !Nat.add_0_r.
      * rewrite (Hnth k c Hk). cbn [clock].
        replace (S (clock w) + k)%nat with (clock w + S k)%nat by lia.
        replace (S i + k)%nat with (i + S k)%nat by lia. reflexivity.
Qed.

(** X10. [parseResponse] succeeds exactly on a text that is not empty and parses
    to a value whose [cards] is an array.  An absent or empty text is the
    error of the client, a text that is not JSON a [SyntaxError], and a value
    without an array of cards a [TypeError]; in each case nothing has
    changed. *)
Theorem parseResponse_succeeds_iff (text : option jsstring) (w : World) :
  ((exists d, fst (parseResponse text w) = inr d) <->
   exists t data items,
     text = Some t /\ t <> [] /\ JSON_parse t = Some data
     /\ prop data "cards" = inr (VArr items))
  /\ (text = None \/ text = Some [] ->
      parseResponse text w = (inl (Error "No response from AI"), w))
  /\ (forall t, text = Some t -> t <> [] -> JSON_parse t = None ->
      parseResponse text w = (inl SyntaxError, w))
  /\ (forall t data, text = Some t -> t <> [] -> JSON_parse t = Some data ->
      (forall items, prop data "cards" <> inr (VArr items)) ->
      parseResponse text w = (inl TypeError, w)).
Proof.
  assert (Hbad : forall t data, text = Some t -> t <> [] -> JSON_parse t = Some data ->
            (forall items, prop data "cards" <> inr (VArr items)) ->
            parseResponse text w = (inl TypeError, w)).
  { intros t data -> Hne Hp Hc. unfold parseResponse.
    destruct t as [|u t]; [congruence|]. rewrite Hp.
    unfold bind at 1. unfold lift.
    destruct (prop data "cards") as [e|cs] eqn:Hcs.
    - unfold prop in Hcs. destruct data; inversion Hcs; reflexivity.
    - destruct cs as [| | | | |its|]; try reflexivity.
      exfalso. apply (Hc its). first [reflexivity | assumption]. }
  split; [|split; [|split]]; [| | |exact Hbad].
  - split.
    + intros [d Hd]. unfold parseResponse in Hd.
      destruct text as [[|u t]|]; try discriminate.
      destruct (JSON_parse (u :: t)) as [data|] eqn:Hp; [|discriminate].
      destruct (prop data "cards") as [e|[| | | | |items|]] eqn:Hc;
        try (unfold bind, lift in Hd; try rewrite Hc in Hd; cbn in Hd; discriminate).
      exists (u :: t), data, items. repeat split; try assumption; discriminate.
    + intros (t & data & items & -> & Hne & Hp & Hc).
      destruct t as [|u t]; [congruence|]. unfold parseResponse. rewrite Hp.
      unfold bind at 1. unfold lift. rewrite Hc. unfold bind at 1. cbn [array_map].
      unfold bind at 1.
      destruct (map_with_card_id_result items 0 w) as (cards & -> & _).
      cbn [ret]. unfold bind, lift.
      destruct (prop data "title") as [e|title] eqn:Ht.
      * unfold prop in Ht, Hc. destruct data; discriminate.
      * eexists. reflexivity.
  - intros [->| ->]; reflexivity.
  - intros t -> Hne Hp. destruct t as [|u t]; [congruence|].
    unfold parseResponse. now rewrite Hp.
Qed.

(** X11. What [parseResponse] makes of a response: a deck with the title of the
    response and as many cards, in the same order; each card is the card of
    the response, any value it may be, with an id made of the clock read for
    it and of its position, in the place of the id it had or else last.  The
    other properties of the response are dropped.  A response with no card
    makes a deck with no card. *)
Theorem parseResponse_keeps_cards (t : jsstring) (data : value) (items : list value)
    (w : World) :
  t <> [] ->
  JSON_parse t = Some data ->
  prop data "cards" = inr (VArr items) ->
  exists title cards,
    prop data "title" = inr title
    /\ parseResponse (Some t) w
       = (inr (VObj [(lit "title", title); (lit "cards", VArr cards)]),
          mkWorld (app w) (error w) (isLoading w) (inputValue w) (requests w)
            (delivered w) (shown w) (clock w + List.length items))
    /\ List.length cards = List.length items
    /\ forall k c,
         nth_error items k = Some c ->
         nth_error cards k
         = Some (VObj (define (lit "id")
                         (VStr (fresh_id "card-" (Date_now (clock w + k)) k))
                         (spread c))).
Proof.
  intros Hne Hp Hc. destruct t as [|u t]; [congruence|].
  destruct (map_with_card_id_result items 0 w) as (cards & Hrun & Hlen & Hnth).
  destruct (prop data "title") as [e|title] eqn:Ht.
  { unfold prop in Ht, Hc. destruct data; discriminate. }
  exists title, cards. split; [reflexivity|]. split; [|split; assumption].
  unfold parseResponse. rewrite Hp.
  unfold bind at 1. unfold lift. rewrite Hc. unfold bind at 1. cbn [array_map].
  unfold bind at 1. rewrite Hrun. cbn [ret]. unfold bind, lift. rewrite Ht. reflexivity.
Qed.

(** X12. A response whose title is not a string still makes a deck, which the
    session takes; but that deck cannot be exported. *)
Theorem untitled_generation_cannot_be_saved (t : jsstring) (data : value)
    (items : list value) (w : World) (s : AppState) :
  t <> [] ->
  JSON_parse t = Some data ->
  prop data "cards" = inr (VArr items) ->
  (forall x, prop data "title" <> inr (VStr x)) ->
  exists d w',
    parseResponse (Some t) w = (inr d, w')
    /\ deck (handleDeckGenerated d s) = Some d
    /\ saveDeck (handleDeckGenerated d s) = inl TypeError.
Proof.
  intros Hne Hp Hc Hnt.
  destruct (map_with_card_id_result items 0 w) as (cards & Hrun & _).
  destruct (prop data "title") as [e|title] eqn:Ht.
  { unfold prop in Ht, Hc. destruct data; discriminate. }
  destruct t as [|u t]; [congruence|].
  eexists _, _. split; [|split; [reflexivity|]].
  - unfold parseResponse. rewrite Hp.
    unfold bind at 1. unfold lift. rewrite Hc. unfold bind at 1. cbn [array_map].
    unfold bind at 1. rewrite Hrun. cbn [ret]. unfold bind, lift. rewrite Ht. reflexivity.
  - unfold saveDeck. cbn [handleDeckGenerated setIsFlipped setCurrentCardIndex setDeck deck].
    change (prop (VObj [(lit "title", title); (lit "cards", VArr cards)]) "title")
      with (inr title : exn + value).
    destruct title; try reflexivity. now destruct (Hnt s0).
Qed.

(* ================================================================= *)
(** ** What the importer makes of a deck file *)

Lemma importable_prop (ex : value) (k : string) :
  example_importable ex = true -> exists x, prop ex k = inr x.
Proof. destruct ex; try discriminate; intros _; cbn; eauto. Qed.

Lemma not_importable_prop (ex : value) (k : string) :
  example_importable ex = false -> prop ex k = inl TypeError.
Proof. destruct ex; try discriminate; reflexivity. Qed.

Lemma js_or_default (a : value) :
  truthy (js_or a (VStr [])) = true \/ js_or a (VStr []) = VStr [].
Proof. unfold js_or. destruct (truthy a) eqn:E; auto. Qed.

(** X14. The example the importer makes has the four properties [simplified],
    [traditional], [pinyin] and [english], in this order, and no other: what
    else the example of the file held, its [chinese] text too, is dropped.
    [simplified] and [traditional] are never absent: each is a truthy value
    or the empty string, and a truthy one of the file is kept.  [pinyin] and
    [english] are copied.  On [null] the callback throws. *)
Theorem imported_example_shape (ex : value) (i : nat) (w : World) :
  (example_importable ex = false -> import_example ex i w = (inl TypeError, w))
  /\ (example_importable ex = true ->
      exists s t p e,
        import_example ex i w
        = (inr (VObj [(lit "simplified", s); (lit "traditional", t);
                      (lit "pinyin", p); (lit "english", e)]), w)
        /\ prop ex "pinyin" = inr p
        /\ prop ex "english" = inr e
        /\ (truthy s = true \/ s = VStr [])
        /\ (truthy t = true \/ t = VStr [])
        /\ (forall x, prop ex "simplified" = inr x -> truthy x = true -> s = x)
        /\ (forall x, prop ex "traditional" = inr x -> truthy x = true -> t = x)).
Proof.
  split; intros H.
  - unfold import_example, bind, lift.
    now rewrite (not_importable_prop ex "simplified" H).
  - destruct (importable_prop ex "simplified" H) as [s Hs].
    destruct (importable_prop ex "traditional" H) as [t Ht].
    destruct (importable_prop ex "chinese" H) as [c Hc].
    destruct (importable_prop ex "pinyin" H) as [p Hp].
    destruct (importable_prop ex "english" H) as [e He].
    eexists _, _, p, e. unfold import_example, bind, lift, ret.
    rewrite Hs, Ht, Hc, Hp, He.
    split; [reflexivity|]. split; [reflexivity|]. split; [reflexivity|].
    split; [apply js_or_default|]. split; [apply js_or_default|].
    split; intros x Hx Hx'; inversion Hx; subst x; unfold js_or;
      now rewrite Hx'; cbn; rewrite Hx'.
Qed.

Lemma import_example_runs (ex : value) (i : nat) (w : World) :
  if example_importable ex
  then exists ex', import_example ex i w = (inr ex', w)
                   /\ example_importable ex' = true
  else import_example ex i w = (inl TypeError, w).
Proof.
  destruct (example_importable ex) eqn:H.
  - destruct (importable_prop ex "simplified" H) as [s Hs].
    destruct (importable_prop ex "traditional" H) as [t Ht].
    destruct (importable_prop ex "chinese" H) as [c Hc].
    destruct (importable_prop ex "pinyin" H) as [p Hp].
    destruct (importable_prop ex "english" H) as [e He].
    unfold import_example, bind, lift, ret. rewrite Hs, Ht, Hc, Hp, He.
    eexists. split; reflexivity.
  - unfold import_example, bind, lift.
    now rewrite (not_importable_prop ex "simplified" H).
Qed.

Lemma import_examples_run (exs : list value) :
  forall (i : nat) (w : World),
    if forallb example_importable exs
    then exists exs', map_from i import_example exs w = (inr exs', w)
                      /\ List.length exs' = List.length exs
                      /\ forallb example_importable exs' = true
    else map_from i import_example exs w = (inl TypeError, w).
Proof.
  induction exs as [|ex exs IH]; intros i w.
  - cbn. now exists [].
  - cbn [forallb map_from]. pose proof (import_example_runs ex i w) as Hex.
    destruct (example_importable ex); cbn [andb].
    + destruct Hex as (ex' & Hex & Hok). specialize (IH (S i) w).
      destruct (forallb example_importable exs).
      * destruct IH as (exs' & Hrun & Hlen & Hall). exists (ex' :: exs').
        unfold bind. rewrite Hex, Hrun. split; [reflexivity|].
        split; [cbn; now rewrite Hlen | cbn; now rewrite Hok, Hall].
      * unfold bind. now rewrite Hex, IH.
    + unfold bind. now rewrite Hex.
Qed.

(** The world after the clock was read or not. *)
Lemma id_or_fresh_runs (cid : value) (i : nat) (w : World) :
  exists idv w',
    id_or_fresh cid i w = (inr idv, w')
    /\ truthy idv = true
    /\ (truthy cid = true -> idv = cid /\ w' = w)
    /\ same_session w w' /\ requests w' = requests w.
Proof.
  unfold id_or_fresh. destruct (truthy cid) eqn:E.
  - exists cid, w. repeat split; auto.
  - eexists _, _. split; [reflexivity|]. split; [apply fresh_imported_truthy|].
    split; [discriminate|]. repeat split.
Qed.

Lemma import_card_runs (c : value) (i : nat) (w : World) :
  if card_importable c
  then exists exs' idv w',
         import_card c i w
         = (inr (VObj (define (lit "id") idv
                         (define (lit "examples") (VArr exs') (spread c)))), w')
         /\ forallb example_importable exs' = true
         /\ truthy idv = true
         /\ (truthy (id_of c) = true -> idv = id_of c /\ w' = w)
         /\ same_session w w' /\ requests w' = requests w
  else import_card c i w = (inl TypeError, w).
Proof.
  unfold card_importable, import_card.
  destruct (prop c "examples") as [e|ex] eqn:Hex.
  { unfold bind, lift. unfold prop in Hex. destruct c; inversion Hex; reflexivity. }
  assert (Hid : prop c "id" = inr (id_of c)).
  { unfold id_of. unfold prop in *. destruct c; try discriminate; reflexivity. }
  assert (Hdone : forall mapped (w1 : World), w1 = w ->
            exists idv w',
              (cid <- lift (prop c "id") ;;
               id <- id_or_fresh cid i ;;
               ret (VObj (define (lit "id") id
                            (define (lit "examples") (js_or mapped (VArr []))
                               (spread c))))) w1
              = (inr (VObj (define (lit "id") idv
                              (define (lit "examples") (js_or mapped (VArr []))
                                 (spread c)))), w')
              /\ truthy idv = true
              /\ (truthy (id_of c) = true -> idv = id_of c /\ w' = w)
              /\ same_session w w' /\ requests w' = requests w).
  { intros mapped w1 ->. unfold bind at 1. unfold lift. rewrite Hid.
    destruct (id_or_fresh_runs (id_of c) i w) as (idv & w' & Hrun & H1 & H2 & H3 & H4).
    exists idv, w'. unfold bind. rewrite Hrun. repeat split; try assumption;
      try apply H2; try apply H3; assumption. }
  unfold bind at 1. unfold lift at 1.
  destruct ex as [| | | | |exs|]; try reflexivity.
  - unfold bind at 1. unfold ret at 1.
    destruct (Hdone VUndefined w eq_refl) as (idv & w' & Hrun & H).
    exists [], idv, w'. split; [exact Hrun|]. split; [reflexivity | exact H].
  - unfold bind at 1. unfold ret at 1.
    destruct (Hdone VUndefined w eq_refl) as (idv & w' & Hrun & H).
    exists [], idv, w'. split; [exact Hrun|]. split; [reflexivity | exact H].
  - pose proof (import_examples_run exs 0 w) as Hexs.
    destruct (forallb example_importable exs).
    + unfold bind at 1. cbn [array_map]. unfold bind at 1.
      destruct Hexs as (exs' & -> & _ & Hall). unfold ret at 1.
      destruct (Hdone (VArr exs') w eq_refl) as (idv & w' & Hrun & H).
      exists exs', idv, w'. split; [exact Hrun|]. split; [exact Hall | exact H].
    + unfold bind, lift. cbn [array_map]. unfold bind. now rewrite Hexs.
Qed.

Lemma import_cards_run (items : list value) :
  forall (i : nat) (w : World),
    if forallb card_importable items
    then exists cards w',
           map_from i import_card items w = (inr cards, w')
           /\ same_session w w' /\ requests w' = requests w
           /\ List.length cards = List.length items
           /\ forall k c,
                nth_error items k = Some c ->
                exists exs' idv,
                  nth_error cards k
                  = Some (VObj (define (lit "id") idv
                                  (define (lit "examples") (VArr exs') (spread c))))
                  /\ forallb example_importable exs' = true
                  /\ truthy idv = true
                  /\ (truthy (id_of c) = true -> idv = id_of c)
    else exists w',
           map_from i import_card items w = (inl TypeError, w')
           /\ same_session w w' /\ requests w' = requests w.
Proof.
  induction items as [|c items IH]; intros i w.
  - cbn. exists [], w. repeat split. intros [|k] c H; discriminate.
  - cbn [forallb map_from]. pose proof (import_card_runs c i w) as Hc.
    destruct (card_importable c); cbn [andb].
    + destruct Hc as (exs' & idv & w1 & Hrun & Hexs & Ht & Hk & Hs & Hr).
      specialize (IH (S i) w1).
      destruct (forallb card_importable items).
      * destruct IH as (cards & w' & Hrest & Hs' & Hr' & Hlen & Hnth).
        eexists _, w'. unfold bind. rewrite Hrun. cbv beta iota. rewrite Hrest.
        split; [reflexivity|].
        split; [eapply same_session_trans; eassumption|].
        split; [congruence|]. split; [cbn; now rewrite Hlen|].
        intros [|k] c0 Hc0; cbn in Hc0 |- *.
        -- inversion Hc0; subst c0. exists exs', idv. repeat split; try assumption.
           intros H. now apply Hk.
        -- now apply Hnth.
      * destruct IH as (w' & Hrest & Hs' & Hr'). exists w'.
        unfold bind. rewrite Hrun. cbv beta iota. rewrite Hrest.
        split; [reflexivity|].
        split; [eapply same_session_trans; eassumption | congruence].
    + exists w. unfold bind. rewrite Hc. repeat split.
Qed.

Lemma valid_deck_object (json : value) (items : list value) :
  isValidDeck json = true ->
  prop json "cards" = inr (VArr items) ->
  exists ps t,
    json = VObj ps /\ lookup (lit "title") ps = Some (VStr t)
    /\ lookup (lit "cards") ps = Some (VArr items).
Proof.
  intros Hv Hc. apply isValidDeck_iff in Hv as (ps & t & its & -> & Ht & Hc').
  exists ps, t. unfold prop in Hc. rewrite Hc' in Hc. inversion Hc; subst its.
  repeat split; assumption.
Qed.

(** The two ways out of the branch of [processContent] for a deck file. *)
Lemma processContent_deck_file (content : jsstring) (json : value)
    (items : list value) (w : World) :
  JSON_parse content = Some json ->
  isValidDeck json = true ->
  prop json "cards" = inr (VArr items) ->
  match map_from 0 import_card items w with
  | (inr cards, w1) =>
      processContent content w
      = (inr true,
         deliver (VObj (define (lit "cards") (VArr cards) (spread json))) w1)
  | (inl e, w1) =>
      processContent content w
      = (inr false,
         mkWorld (app w1) (Some processContent_error) (isLoading w1) (inputValue w1)
           (requests w1) (delivered w1) (shown w1 ++ [processContent_error])
           (clock w1))
  end.
Proof.
  intros Hp Hv Hc.
  destruct (valid_deck_object json items Hv Hc) as (ps & t & -> & _ & _).
  unfold processContent, try_catch, processContent_json. rewrite Hp.
  cbn [truthy]. rewrite Hv.
  unfold bind, lift. rewrite Hc. cbn [array_map]. unfold bind.
  destruct (map_from 0 import_card items w) as [[e|cards] w1]; reflexivity.
Qed.

(** X15. A deck file is imported without a word to the generation service.  It
    is imported if and only if each of its cards is any value but [null]
    whose [examples] is absent, [null] or an array without [null]; one card
    that is not makes the whole import fail: the message of the importer is
    shown, no deck is delivered and the session is what it was. *)
Theorem deck_file_imports_iff (content : jsstring) (json : value)
    (items : list value) (w : World) :
  JSON_parse content = Some json ->
  isValidDeck json = true ->
  prop json "cards" = inr (VArr items) ->
  requests (snd (processContent content w)) = requests w
  /\ (fst (processContent content w) = inr true
      <-> forallb card_importable items = true)
  /\ (forallb card_importable items = false ->
      fst (processContent content w) = inr false
      /\ shown (snd (processContent content w)) = shown w ++ [processContent_error]
      /\ delivered (snd (processContent content w)) = delivered w
      /\ app (snd (processContent content w)) = app w).
Proof.
  intros Hp Hv Hc.
  pose proof (processContent_deck_file content json items w Hp Hv Hc) as Hrun.
  pose proof (import_cards_run items 0 w) as Hcards.
  destruct (forallb card_importable items).
  - destruct Hcards as (cards & w1 & Hm & Hs & Hr & _). rewrite Hm in Hrun.
    rewrite Hrun. cbn. split; [exact Hr|]. split; [tauto | discriminate].
  - destruct Hcards as (w1 & Hm & (Ha & _ & _ & _ & Hd & Hsh) & Hr).
    rewrite Hm in Hrun. rewrite Hrun. cbn. split; [exact Hr|].
    split; [split; discriminate|]. intros _. repeat split; congruence.
Qed.

(** X16. An imported deck is the object of the file with its cards replaced:
    every other property of the file is kept, and so are the number and the
    order of the cards.  Each card is an object with the properties of the
    card of the file, a truthy id and an array of examples; its properties
    other than [id] and [examples] are those of the file. *)
Theorem import_keeps_other_fields (content : jsstring) (json : value)
    (items : list value) (w w' : World) :
  JSON_parse content = Some json ->
  isValidDeck json = true ->
  prop json "cards" = inr (VArr items) ->
  processContent content w = (inr true, w') ->
  exists ps cards,
    json = VObj ps
    /\ deck (app w') = Some (VObj (define (lit "cards") (VArr cards) ps))
    /\ (forall key, key <> lit "cards" ->
        lookup key (define (lit "cards") (VArr cards) ps) = lookup key ps)
    /\ List.length cards = List.length items
    /\ forall k c,
         nth_error items k = Some c ->
         exists ps' exs' idv,
           nth_error cards k = Some (VObj ps')
           /\ lookup (lit "examples") ps' = Some (VArr exs')
           /\ lookup (lit "id") ps' = Some idv /\ truthy idv = true
           /\ forall key, key <> lit "id" -> key <> lit "examples" ->
                lookup key ps' = lookup key (spread c).
Proof.
  intros Hp Hv Hc Hrun.
  destruct (valid_deck_object json items Hv Hc) as (ps & t & -> & _ & _).
  pose proof (processContent_deck_file content _ items w Hp Hv Hc) as Hfile.
  pose proof (import_cards_run items 0 w) as Hcards.
  destruct (forallb card_importable items).
  2:{ destruct Hcards as (w1 & Hm & _). rewrite Hm, Hrun in Hfile. discriminate. }
  destruct Hcards as (cards & w1 & Hm & _ & _ & Hlen & Hnth).
  rewrite Hm, Hrun in Hfile. inversion Hfile; subst w'.
  exists ps, cards. split; [reflexivity|]. split; [reflexivity|].
  split; [|split; [exact Hlen|]].
  - intros key Hk. apply lookup_define_other. now apply jsstring_eqb_neq.
  - intros k c Hk. destruct (Hnth k c Hk) as (exs' & idv & Hcard & _ & Ht & _).
    eexists _, exs', idv. split; [exact Hcard|]. split; [|split; [|split]].
    + rewrite lookup_define_other by (vm_compute; reflexivity).
      apply lookup_define_same.
    + apply lookup_define_same.
    + exact Ht.
    + intros key H1 H2.
      rewrite !lookup_define_other by (now apply jsstring_eqb_neq). reflexivity.
Qed.

(** X17. A deck file that was imported can be exported: [saveDeck] gives a file. *)
Theorem imported_deck_can_be_saved (content : jsstring) (json : value)
    (w w' : World) :
  JSON_parse content = Some json ->
  isValidDeck json = true ->
  processContent content w = (inr true, w') ->
  exists name text, saveDeck (app w') = inr (Some (name, text)).
Proof.
  intros Hp Hv Hrun.
  destruct (proj1 (isValidDeck_iff json) Hv) as (ps & t & items & -> & Ht & Hc).
  assert (Hcards : prop (VObj ps) "cards" = inr (VArr items))
    by (unfold prop; now rewrite Hc).
  pose proof (processContent_deck_file content _ items w Hp Hv Hcards) as Hfile.
  destruct (map_from 0 import_card items w) as [[e|cards] w1];
    rewrite Hrun in Hfile; [discriminate|].
  inversion Hfile; subst w'. unfold saveDeck. cbn [deliver app handleDeckGenerated
    setIsFlipped setCurrentCardIndex setDeck deck spread].
  unfold prop. rewrite lookup_define_other by (vm_compute; reflexivity).
  rewrite Ht. eauto.
Qed.

(* ================================================================= *)
(** ** The routes of the importer *)

Lemma array_not_deck (items : list value) : isValidDeck (VArr items) = false.
Proof. reflexivity. Qed.

Lemma string_array_is_array (json : value) (strs : list jsstring) :
  string_array json = Some strs ->
  exists items, json = VArr items /\ all_strings items = Some strs.
Proof. destruct json; try discriminate. intros H. eauto. Qed.

Lemma blank_not_parsed (content : jsstring) :
  is_blank content = true -> JSON_parse content = None.
Proof.
  intros Hb. destruct (JSON_parse content) as [v|] eqn:Hp; [|reflexivity].
  apply parsed_not_blank in Hp. congruence.
Qed.

Lemma processContent_blank (content : jsstring) (w : World) :
  is_blank content = true ->
  processContent content w = (inr false, failed processContent_error w).
Proof.
  intros Hb. unfold processContent, try_catch, processContent_json.
  rewrite (blank_not_parsed content Hb). unfold bind, ret. rewrite Hb. reflexivity.
Qed.

Lemma processContent_word_list (content : jsstring) (items : list value)
    (strs : list jsstring) (w : World) :
  JSON_parse content = Some (VArr items) ->
  all_strings items = Some strs ->
  match generateDeckFromList (join nl strs) w with
  | (inr d, w1) => processContent content w = (inr true, deliver d w1)
  | (inl e, w1) =>
      processContent content w = (inr false, failed processContent_error w1)
  end.
Proof.
  intros Hp Hs. unfold processContent, try_catch, processContent_json.
  rewrite Hp. cbn [truthy]. rewrite array_not_deck. cbn [string_array]. rewrite Hs.
  unfold bind.
  destruct (generateDeckFromList (join nl strs) w) as [[e|d] w1]; reflexivity.
Qed.

Lemma processJsonContent_word_list (content : jsstring) (items : list value)
    (strs : list jsstring) (w : World) :
  JSON_parse content = Some (VArr items) ->
  all_strings items = Some strs ->
  match generateDeckFromList (join nl strs) w with
  | (inr d, w1) => processJsonContent content w = (inr true, deliver d w1)
  | (inl e, w1) =>
      processJsonContent content w
      = (inr false, failed "Failed to parse JSON content." w1)
  end.
Proof.
  intros Hp Hs. unfold processJsonContent, try_catch.
  rewrite Hp, array_not_deck. cbn [string_array]. rewrite Hs. unfold bind.
  destruct (generateDeckFromList (join nl strs) w) as [[e|d] w1]; reflexivity.
Qed.

Lemma processContent_text (content : jsstring) (w : World) :
  is_blank content = false ->
  (forall json, JSON_parse content = Some json ->
     isValidDeck json = false /\ string_array json = None) ->
  match generateDeckFromList content w with
  | (inr d, w1) => processContent content w = (inr true, deliver d w1)
  | (inl e, w1) =>
      processContent content w = (inr false, failed processContent_error w1)
  end.
Proof.
  intros Hb Hn. unfold processContent, try_catch, processContent_json.
  destruct (JSON_parse content) as [json|].
  - destruct (Hn json eq_refl) as [Hv Hs]. rewrite Hv, Hs.
    destruct (truthy json); unfold bind, ret; rewrite Hb;
      destruct (generateDeckFromList content w) as [[e|d] w1]; reflexivity.
  - unfold bind, ret. rewrite Hb.
    destruct (generateDeckFromList content w) as [[e|d] w1]; reflexivity.
Qed.

(** X19. A JSON array of strings, the empty array too, is not imported but sent
    to the generation service as a list, one string a line; both importers
    do so.  The deck of the answer is delivered; if the generation fails, the
    importer shows its message and delivers nothing. *)
Theorem word_list_goes_to_generation (content : jsstring) (items : list value)
    (strs : list jsstring) (w : World) :
  JSON_parse content = Some (VArr items) ->
  all_strings items = Some strs ->
  requests (snd (processContent content w))
  = requests w ++ [list_prompt (join nl strs)]
  /\ requests (snd (processJsonContent content w))
     = requests w ++ [list_prompt (join nl strs)]
  /\ (forall d w1,
        generateDeckFromList (join nl strs) w = (inr d, w1) ->
        processContent content w = (inr true, deliver d w1)
        /\ processJsonContent content w = (inr true, deliver d w1))
  /\ (forall e w1,
        generateDeckFromList (join nl strs) w = (inl e, w1) ->
        processContent content w = (inr false, failed processContent_error w1)
        /\ processJsonContent content w
           = (inr false, failed "Failed to parse JSON content." w1)).
Proof.
  intros Hp Hs.
  pose proof (processContent_word_list content items strs w Hp Hs) as H1.
  pose proof (processJsonContent_word_list content items strs w Hp Hs) as H2.
  destruct (generateDeckFromList (join nl strs) w) as [[e|d] w1] eqn:Hg;
    pose proof (generateDeckFromList_requests _ _ _ _ Hg) as Hr;
    rewrite H1, H2; cbn [snd deliver failed requests];
    (split; [exact Hr|]); (split; [exact Hr|]);
    split; intros x w2 Hx; inversion Hx; subst; now split.
Qed.

(** X20. Content that is not blank, and is neither a deck nor an array of
    strings (text that is not JSON, a JSON number, string, boolean or [null],
    an object that is not a deck, an array that holds something else than
    strings) goes to the generation service as it is, in one request. *)
Theorem other_content_goes_as_text (content : jsstring) (w : World) :
  is_blank content = false ->
  (forall json, JSON_parse content = Some json ->
     isValidDeck json = false /\ string_array json = None) ->
  requests (snd (processContent content w)) = requests w ++ [list_prompt content]
  /\ (forall d w1,
        generateDeckFromList content w = (inr d, w1) ->
        processContent content w = (inr true, deliver d w1))
  /\ (forall e w1,
        generateDeckFromList content w = (inl e, w1) ->
        processContent content w = (inr false, failed processContent_error w1)).
Proof.
  intros Hb Hn. pose proof (processContent_text content w Hb Hn) as H.
  destruct (generateDeckFromList content w) as [[e|d] w1] eqn:Hg;
    pose proof (generateDeckFromList_requests _ _ _ _ Hg) as Hr;
    rewrite H; cbn [snd deliver failed requests];
    (split; [exact Hr|]); split; intros x w2 Hx; inversion Hx; subst; reflexivity.
Qed.

(** X21. The importer of the earlier revision talks to the generation service for
    an array of strings only.  Text that is not JSON is refused as such, and
    JSON that is neither a deck nor an array of strings as an invalid
    format; in both cases nothing else happens. *)
Theorem json_importer_sends_only_word_lists (content : jsstring) (w : World) :
  (JSON_parse content = None ->
   processJsonContent content w
   = (inr false, failed "Failed to parse JSON content." w))
  /\ (forall json,
        JSON_parse content = Some json ->
        isValidDeck json = false -> string_array json = None ->
        processJsonContent content w = (inr false, failed invalid_format_error w))
  /\ (forall json,
        JSON_parse content = Some json -> string_array json = None ->
        requests (snd (processJsonContent content w)) = requests w).
Proof.
  split; [|split].
  - intros Hp. unfold processJsonContent, try_catch. now rewrite Hp.
  - intros json Hp Hv Hs. unfold processJsonContent, try_catch.
    now rewrite Hp, Hv, Hs.
  - intros json Hp Hs. unfold processJsonContent, try_catch. rewrite Hp.
    destruct (isValidDeck json) eqn:Hv; [|now rewrite Hs].
    unfold bind at 1. unfold lift.
    destruct (prop json "cards") as [e|cs]; [reflexivity|].
    unfold bind at 1.
    destruct (array_map cs import_card_id w) as [[e|cards] w1] eqn:Hm;
      apply offline_import_card_ids in Hm; exact Hm.
Qed.

(* ================================================================= *)
(** ** The handlers *)

Lemma processContent_frame (content : jsstring) (w : World) :
  inputValue (snd (processContent content w)) = inputValue w
  /\ isLoading (snd (processContent content w)) = isLoading w
  /\ exists l, requests (snd (processContent content w)) = requests w ++ l
               /\ (List.length l <= 1)%nat.
Proof.
  assert (Hgen : forall c,
            match generateDeckFromList c w with
            | (inr d, w1) => processContent content w = (inr true, deliver d w1)
            | (inl e, w1) =>
                processContent content w = (inr false, failed processContent_error w1)
            end ->
            inputValue (snd (processContent content w)) = inputValue w
            /\ isLoading (snd (processContent content w)) = isLoading w
            /\ exists l, requests (snd (processContent content w)) = requests w ++ l
                         /\ (List.length l <= 1)%nat).
  { intros c H.
    destruct (generateDeckFromList c w) as [[e|d] w1] eqn:Hg;
      pose proof (generateDeckFromList_requests _ _ _ _ Hg) as Hr;
      destruct (quiet_generateDeckFromList _ _ _ _ Hg) as (_ & _ & Hl & Hi & _);
      rewrite H; cbn [snd deliver failed inputValue isLoading requests];
      (split; [exact Hi|]); (split; [exact Hl|]); eexists; (split; [exact Hr|]);
      cbn; lia. }
  destruct (JSON_parse content) as [json|] eqn:Hp.
  - destruct (isValidDeck json) eqn:Hv.
    + destruct (proj1 (isValidDeck_iff json) Hv) as (ps & t & items & -> & Ht & Hc).
      assert (Hcards : prop (VObj ps) "cards" = inr (VArr items))
        by (unfold prop; now rewrite Hc).
      pose proof (processContent_deck_file content _ items w Hp Hv Hcards) as Hfile.
      pose proof (import_cards_run items 0 w) as Hrun.
      destruct (forallb card_importable items).
      * destruct Hrun as (cards & w1 & Hm & (_ & _ & Hl & Hi & _) & Hr & _).
        rewrite Hm in Hfile. rewrite Hfile. cbn.
        split; [exact Hi|]. split; [exact Hl|]. exists [].
        rewrite app_nil_r. split; [exact Hr | cbn; lia].
      * destruct Hrun as (w1 & Hm & (_ & _ & Hl & Hi & _) & Hr).
        rewrite Hm in Hfile. rewrite Hfile. cbn.
        split; [exact Hi|]. split; [exact Hl|]. exists [].
        rewrite app_nil_r. split; [exact Hr | cbn; lia].
    + destruct (string_array json) as [strs|] eqn:Hs.
      * apply string_array_is_array in Hs as (items & -> & Hs).
        apply (Hgen (join nl strs)).
        now apply processContent_word_list with items.
      * apply (Hgen content). apply processContent_text.
        -- now apply parsed_not_blank with json.
        -- intros json' Hj. rewrite Hj in Hp. inversion Hp; subst json'. now split.
  - destruct (is_blank content) eqn:Hb.
    + rewrite (processContent_blank content w Hb). cbn.
      repeat split. exists []. rewrite app_nil_r. split; [reflexivity | cbn; lia].
    + apply (Hgen content). apply processContent_text; [exact Hb|].
      intros json Hj. congruence.
Qed.

Lemma processContent_returns (content : jsstring) (w : World) :
  exists b, fst (processContent content w) = inr b.
Proof.
  pose proof (processContent_cases content w) as H.
  destruct (processContent content w) as [[e|b] w']; [contradiction|]. now exists b.
Qed.

Lemma processJsonContent_returns (content : jsstring) (w : World) :
  exists b, fst (processJsonContent content w) = inr b.
Proof.
  pose proof (processJsonContent_cases content w) as H.
  destruct (processJsonContent content w) as [[e|b] w']; [contradiction|]. now exists b.
Qed.

Lemma processJsonContent_frame (content : jsstring) (w : World) :
  inputValue (snd (processJsonContent content w)) = inputValue w
  /\ isLoading (snd (processJsonContent content w)) = isLoading w
  /\ exists l, requests (snd (processJsonContent content w)) = requests w ++ l
               /\ (List.length l <= 1)%nat.
Proof.
  unfold processJsonContent, try_catch.
  destruct (JSON_parse content) as [json|] eqn:Hp.
  2:{ cbn. repeat split. exists []. rewrite app_nil_r. split; [reflexivity|cbn; lia]. }
  destruct (isValidDeck json) eqn:Hv.
  - unfold bind at 1. unfold lift.
    destruct (prop json "cards") as [e|cs].
    { cbn. repeat split. exists []. rewrite app_nil_r. split; [reflexivity|cbn; lia]. }
    unfold bind.
    destruct (array_map cs import_card_id w) as [[e|cards] w1] eqn:Hm;
      pose proof (offline_import_card_ids _ _ _ _ Hm) as Hr;
      destruct (quiet_array_map cs import_card_id quiet_import_card_id _ _ _ Hm)
        as (_ & _ & Hl & Hi & _);
      cbn; (split; [exact Hi|]); (split; [exact Hl|]); exists [];
      rewrite app_nil_r; (split; [exact Hr | cbn; lia]).
  - destruct (string_array json) as [strs|].
    2:{ cbn. repeat split. exists []. rewrite app_nil_r. split; [reflexivity|cbn; lia]. }
    unfold bind.
    destruct (generateDeckFromList (join nl strs) w) as [[e|d] w1] eqn:Hg;
      pose proof (generateDeckFromList_requests _ _ _ _ Hg) as Hr;
      destruct (quiet_generateDeckFromList _ _ _ _ Hg) as (_ & _ & Hl & Hi & _);
      cbn; (split; [exact Hi|]); (split; [exact Hl|]); eexists;
      (split; [exact Hr | cbn; lia]).
Qed.

(** What every ingestion action does to the component, besides its outcome:
    it returns, leaves the text of the form alone and sends at most one
    request. *)
Lemma run_frame (a : Action) (w : World) :
  exists w',
    run a w = (inr tt, w')
    /\ inputValue w' = inputValue w
    /\ exists l, requests w' = requests w ++ l /\ (List.length l <= 1)%nat.
Proof.
  assert (Hnone : exists l : list jsstring,
            requests w = requests w ++ l /\ (List.length l <= 1)%nat).
  { exists []. rewrite app_nil_r. split; [reflexivity | cbn; lia]. }
  destruct a as [| |file|fileId accessToken|content|content]; cbn [run].
  - unfold handleManualSubmit. destruct (trim (inputValue w)).
    { exists w. repeat split. exact Hnone. }
    unfold finally, try_catch, setError, modify, bind.
    match goal with |- context [generateDeckFromList ?c ?w1] =>
      destruct (generateDeckFromList c w1) as [[e|d] w2] eqn:Hg end;
      pose proof (generateDeckFromList_requests _ _ _ _ Hg) as Hr;
      destruct (quiet_generateDeckFromList _ _ _ _ Hg) as (_ & _ & _ & Hi & _);
      eexists; (split; [reflexivity|]); cbn in *; (split; [exact Hi|]); eexists;
      (split; [exact Hr | cbn; lia]).
  - unfold handleUrlSubmit. destruct (trim (inputValue w)).
    { exists w. repeat split. exact Hnone. }
    destruct (fetch_text (inputValue w)) as [text|].
    + unfold finally, try_catch, setError, modify, bind, ret.
      match goal with |- context [processContent text ?w1] =>
        destruct (processContent_returns text w1) as [b Hb];
        destruct (processContent_frame text w1) as (Hi & _ & l & Hr & Hl);
        destruct (processContent text w1) as [[e|b'] w2] end;
        [discriminate|].
      eexists. split; [reflexivity|]. cbn in *. split; [exact Hi|].
      exists l. split; assumption.
    + eexists. split; [reflexivity|]. cbn. split; [reflexivity | exact Hnone].
  - unfold handleFileUpload. destruct file as [result|].
    2:{ exists w. repeat split. exact Hnone. }
    unfold setError, modify. unfold bind at 1 2. cbv beta iota.
    destruct result as [content|].
    + match goal with |- context [bind (processContent content) _ ?w1] =>
        destruct (processContent_returns content w1) as [b Hb];
        destruct (processContent_frame content w1) as (Hi & _ & l & Hr & Hl);
        unfold bind; destruct (processContent content w1) as [[e|b'] w2] end;
        [discriminate|].
      eexists. split; [reflexivity|]. cbn in *. split; [exact Hi|].
      exists l. split; assumption.
    + eexists. split; [reflexivity|]. cbn. split; [reflexivity | exact Hnone].
  - unfold fetchDriveFile.
    destruct (drive_text fileId accessToken) as [text|].
    + unfold finally, try_catch, setError, modify, bind, ret.
      destruct (processContent_returns text w) as [b Hb].
      destruct (processContent_frame text w) as (Hi & _ & l & Hr & Hl).
      destruct (processContent text w) as [[e|b'] w2]; [discriminate|].
      eexists. split; [reflexivity|]. cbn in *. split; [exact Hi|].
      exists l. split; assumption.
    + eexists. split; [reflexivity|]. cbn. split; [reflexivity | exact Hnone].
  - destruct (processContent_returns content w) as [b Hb].
    destruct (processContent_frame content w) as (Hi & _ & Hr).
    unfold bind, ret. destruct (processContent content w) as [[e|b'] w2]; [discriminate|].
    eexists. split; [reflexivity|]. cbn in *. split; assumption.
  - destruct (processJsonContent_returns content w) as [b Hb].
    destruct (processJsonContent_frame content w) as (Hi & _ & Hr).
    unfold bind, ret.
    destruct (processJsonContent content w) as [[e|b'] w2]; [discriminate|].
    eexists. split; [reflexivity|]. cbn in *. split; assumption.
Qed.

(** X24. No ingestion action sends more than one request to the generation
    service: there is no second attempt, whatever the first one gave.  Every
    action returns to the caller, its errors caught, and the text the user
    typed is still in the form. *)
Theorem one_request_per_action (a : Action) (w : World) :
  fst (run a w) = inr tt
  /\ inputValue (snd (run a w)) = inputValue w
  /\ exists l, requests (snd (run a w)) = requests w ++ l
               /\ (List.length l <= 1)%nat.
Proof.
  destruct (run_frame a w) as (w' & -> & Hi & Hr). cbn. repeat split; assumption.
Qed.

(** The handlers always end with the loading mark cleared, so that the form
    is usable again; on a blank input, or without a file, they do nothing at
    all, not even clear the last error.  The list typed in the form goes to
    the generation service as it was typed, not trimmed. *)
Theorem handlers_clear_loading (w : World) :
  (trim (inputValue w) = [] ->
   run ManualSubmit w = (inr tt, w) /\ run UrlSubmit w = (inr tt, w))
  /\ (trim (inputValue w) <> [] ->
      isLoading (snd (run ManualSubmit w)) = false
      /\ requests (snd (run ManualSubmit w))
         = requests w ++ [list_prompt (inputValue w)]
      /\ isLoading (snd (run UrlSubmit w)) = false)
  /\ run (FileUpload None) w = (inr tt, w)
  /\ (forall result, isLoading (snd (run (FileUpload (Some result)) w)) = false)
  /\ (forall fileId accessToken,
        isLoading (snd (run (DriveFile fileId accessToken) w)) = false).
Proof.
  split; [|split; [|split; [|split]]].
  - intros Hb. cbn [run]. unfold handleManualSubmit, handleUrlSubmit.
    rewrite Hb. now split.
  - intros Hb. cbn [run]. unfold handleManualSubmit, handleUrlSubmit.
    destruct (trim (inputValue w)); [congruence|]. split; [|split].
    + unfold finally.
      match goal with |- context [let (r, w') := ?m in _] => destruct m end.
      reflexivity.
    + unfold finally, try_catch, setError, modify, bind.
      match goal with |- context [generateDeckFromList ?c ?w1] =>
        destruct (generateDeckFromList c w1) as [[e|d] w2] eqn:Hg end;
        apply generateDeckFromList_requests in Hg; exact Hg.
    + unfold finally.
      match goal with |- context [let (r, w') := ?m in _] => destruct m end.
      reflexivity.
  - reflexivity.
  - intros result. cbn [run]. unfold handleFileUpload, setError, modify.
    unfold bind at 1 2. cbv beta iota. destruct result as [content|].
    + unfold bind.
      match goal with |- context [processContent content ?w1] =>
        destruct (processContent_returns content w1) as [b Hb];
        destruct (processContent content w1) as [[e|b'] w2] end;
        [discriminate | reflexivity].
    + reflexivity.
  - intros fileId accessToken. cbn [run]. unfold fetchDriveFile, finally.
    match goal with |- context [let (r, w') := ?m in _] => destruct m end.
    reflexivity.
Qed.

(* ================================================================= *)
(** ** The file id of a Drive link *)

Lemma strip_prefix_app (pat r : jsstring) : strip_prefix pat (pat ++ r) = Some r.
Proof.
  induction pat as [|a pat IH]; [reflexivity|]. cbn. now rewrite N.eqb_refl.
Qed.

Lemma strip_prefix_inv (pat s r : jsstring) :
  strip_prefix pat s = Some r -> s = pat ++ r.
Proof.
  revert s. induction pat as [|a pat IH]; intros s H.
  - now inversion H.
  - destruct s as [|b s]; [discriminate|]. cbn in H.
    destruct (N.eqb_spec a b) as [->|]; [|discriminate].
    cbn. f_equal. now apply IH.
Qed.

Lemma strip_prefix_app_none (pat a b : jsstring) :
  (List.length pat <= List.length a)%nat ->
  strip_prefix pat a = None -> strip_prefix pat (a ++ b) = None.
Proof.
  revert a. induction pat as [|x pat IH]; intros a Hlen H; [discriminate|].
  destruct a as [|y a]; [cbn in Hlen; lia|]. cbn in *.
  destruct (x =? y)%N; [|reflexivity]. apply IH; [lia | exact H].
Qed.

Lemma span_id_sound (s : jsstring) :
  s = fst (span_id s) ++ snd (span_id s)
  /\ forallb is_id_unit (fst (span_id s)) = true
  /\ fst (span_id (snd (span_id s))) = [].
Proof.
  induction s as [|c s (IH1 & IH2 & IH3)]; [repeat split|].
  cbn [span_id]. destruct (is_id_unit c) eqn:Hc.
  - destruct (span_id s) as [run rest]. cbn in *. repeat split.
    + now f_equal.
    + now rewrite Hc.
    + exact IH3.
  - cbn. rewrite Hc. repeat split.
Qed.

Lemma span_id_run (id rest : jsstring) :
  forallb is_id_unit id = true ->
  fst (span_id rest) = [] ->
  span_id (id ++ rest) = (id, rest).
Proof.
  intros Hid Hrest. induction id as [|c id IH].
  - cbn [List.app]. destruct (span_id_sound rest) as (H1 & _ & _).
    rewrite Hrest in H1. cbn in H1.
    destruct (span_id rest) as [run r]. cbn in *. subst. reflexivity.
  - cbn in Hid. apply andb_true_iff in Hid as [Hc Hid].
    cbn. rewrite Hc, (IH Hid). reflexivity.
Qed.

Lemma match_id_here_found (pat id rest : jsstring) :
  id <> [] ->
  forallb is_id_unit id = true ->
  fst (span_id rest) = [] ->
  match_id_here pat (pat ++ id ++ rest) = Some id.
Proof.
  intros Hne Hid Hrest. unfold match_id_here.
  rewrite strip_prefix_app, (span_id_run id rest Hid Hrest). cbn.
  destruct id; [congruence | reflexivity].
Qed.

Lemma match_id_here_none (pat s : jsstring) :
  strip_prefix pat s = None -> match_id_here pat s = None.
Proof. unfold match_id_here. now intros ->. Qed.

Lemma match_id_after_unfold (pat s : jsstring) :
  match_id_after pat s
  = match match_id_here pat s with
    | Some id => Some id
    | None =>
        match s with
        | [] => None
        | _ :: t => match_id_after pat t
        end
    end.
Proof. destruct s; reflexivity. Qed.

Lemma occurs_unfold (pat s : jsstring) :
  occurs pat s
  = match strip_prefix pat s with
    | Some _ => true
    | None =>
        match s with
        | [] => false
        | _ :: t => occurs pat t
        end
    end.
Proof. destruct s; reflexivity. Qed.

(** The first match is the one after the first occurrence of the marker,
    when the marker does not occur earlier, across the start of it too. *)
Lemma match_id_after_found (init : jsstring) (z : N) (prefix id rest : jsstring) :
  occurs (init ++ [z]) (prefix ++ init) = false ->
  id <> [] ->
  forallb is_id_unit id = true ->
  fst (span_id rest) = [] ->
  match_id_after (init ++ [z]) (prefix ++ (init ++ [z]) ++ id ++ rest) = Some id.
Proof.
  intros Hocc Hne Hid Hrest. induction prefix as [|c prefix IH].
  - cbn [List.app]. rewrite match_id_after_unfold.
    now rewrite match_id_here_found.
  - rewrite occurs_unfold in Hocc.
    destruct (strip_prefix (init ++ [z]) ((c :: prefix) ++ init)) eqn:Hs;
      [discriminate|].
    cbn [List.app] in Hocc. rewrite match_id_after_unfold.
    rewrite match_id_here_none.
    + cbn [List.app]. apply IH. exact Hocc.
    + replace ((c :: prefix) ++ (init ++ [z]) ++ id ++ rest)
        with (((c :: prefix) ++ init) ++ ([z] ++ id ++ rest))
        by (now rewrite <- !app_assoc).
      apply strip_prefix_app_none; [|exact Hs].
      rewrite !length_app. cbn. lia.
Qed.

Lemma match_id_after_sound (pat s id : jsstring) :
  match_id_after pat s = Some id ->
  id <> [] /\ forallb is_id_unit id = true
  /\ exists before after,
       s = before ++ pat ++ id ++ after /\ fst (span_id after) = [].
Proof.
  induction s as [|c s IH]; rewrite match_id_after_unfold;
    destruct (match_id_here pat _) as [id'|] eqn:Hh; try discriminate.
  - intros H. inversion H; subst id'. unfold match_id_here in Hh.
    destruct (strip_prefix pat []) as [r|] eqn:Hs; [|discriminate].
    apply strip_prefix_inv in Hs. destruct (span_id_sound r) as (H1 & H2 & H3).
    destruct (fst (span_id r)) eqn:Hf; [discriminate|]. inversion Hh; subst id.
    split; [discriminate|]. split; [exact H2|].
    exists [], (snd (span_id r)). split; [|exact H3]. cbn. now rewrite Hs, H1 at 1.
  - intros H. inversion H; subst id'. unfold match_id_here in Hh.
    destruct (strip_prefix pat (c :: s)) as [r|] eqn:Hs; [|discriminate].
    apply strip_prefix_inv in Hs. destruct (span_id_sound r) as (H1 & H2 & H3).
    destruct (fst (span_id r)) eqn:Hf; [discriminate|]. inversion Hh; subst id.
    split; [discriminate|]. split; [exact H2|].
    exists [], (snd (span_id r)). split; [|exact H3]. cbn. now rewrite Hs, H1 at 1.
  - intros H. destruct (IH H) as (Hne & Hid & before & after & -> & Ha).
    split; [exact Hne|]. split; [exact Hid|].
    exists (c :: before), after. now split.
Qed.

Lemma match_id_after_none (pat s : jsstring) :
  match_id_after pat s = None ->
  forall before c after,
    is_id_unit c = true -> s <> before ++ pat ++ c :: after.
Proof.
  intros H before. revert s H. induction before as [|b before IH];
    intros s H c after Hc Heq; rewrite match_id_after_unfold in H.
  - cbn [List.app] in Heq. subst s. unfold match_id_here in H.
    rewrite strip_prefix_app in H. cbn [span_id] in H. rewrite Hc in H.
    destruct (span_id after). cbn in H. discriminate.
  - destruct (match_id_here pat s); [discriminate|].
    subst s. cbn [List.app] in H. eapply IH; [exact H | exact Hc | reflexivity].
Qed.

Lemma drive_file_id_units (link id : jsstring) :
  drive_file_id link = Some id -> forallb is_id_unit id = true.
Proof.
  unfold drive_file_id. intros H.
  destruct (match_id_after (lit "/d/") link) as [id'|] eqn:H1.
  - inversion H; subst id'. now apply match_id_after_sound in H1.
  - now apply match_id_after_sound in H.
Qed.

(** X27. The file id taken from a link is the run of letters, digits, [_] and [-]
    that follows the first [/d/] in it, as in
    [https://drive.google.com/file/d/<id>/view], provided no [/d/] stands
    earlier in the link; without any [/d/] followed by such a character, it
    is the run that follows the first [id=]. *)
Theorem drive_file_id_of_link (prefix id rest : jsstring) :
  id <> [] ->
  forallb is_id_unit id = true ->
  fst (span_id rest) = [] ->
  (occurs (lit "/d/") (prefix ++ lit "/d") = false ->
   drive_file_id (prefix ++ lit "/d/" ++ id ++ rest) = Some id)
  /\ (match_id_after (lit "/d/") (prefix ++ lit "id=" ++ id ++ rest) = None ->
      occurs (lit "id=") (prefix ++ lit "id") = false ->
      drive_file_id (prefix ++ lit "id=" ++ id ++ rest) = Some id).
Proof.
  intros Hne Hid Hrest. unfold drive_file_id. split.
  - intros Hocc.
    change (lit "/d/") with (lit "/d" ++ [47%N]) in *.
    now rewrite match_id_after_found.
  - intros Hnone Hocc. rewrite Hnone.
    change (lit "id=") with (lit "id" ++ [61%N]) in *.
    now rewrite match_id_after_found.
Qed.

(** X28. A file id taken from a link is never empty and is made of letters,
    digits, [_] and [-] only; it stands in the link after [/d/] or [id=] and
    ends where the link ends or another character follows.  No id is found
    exactly when neither marker is followed by such a character anywhere in
    the link. *)
Theorem drive_file_id_sound (link : jsstring) :
  (forall id,
     drive_file_id link = Some id ->
     id <> [] /\ forallb is_id_unit id = true
     /\ exists before after,
          (link = before ++ lit "/d/" ++ id ++ after
           \/ link = before ++ lit "id=" ++ id ++ after)
          /\ fst (span_id after) = [])
  /\ (drive_file_id link = None ->
      forall before c after,
        is_id_unit c = true ->
        link <> before ++ lit "/d/" ++ c :: after
        /\ link <> before ++ lit "id=" ++ c :: after).
Proof.
  unfold drive_file_id. split.
  - intros id H.
    destruct (match_id_after (lit "/d/") link) as [id'|] eqn:H1.
    + inversion H; subst id'.
      destruct (match_id_after_sound _ _ _ H1) as (Hne & Hid & b & a & Heq & Ha).
      repeat split; try assumption. exists b, a. split; [now left | exact Ha].
    + destruct (match_id_after_sound _ _ _ H) as (Hne & Hid & b & a & Heq & Ha).
      repeat split; try assumption. exists b, a. split; [now right | exact Ha].
  - intros H before c after Hc.
    destruct (match_id_after (lit "/d/") link) eqn:H1; [discriminate|].
    split; eapply match_id_after_none; eassumption.
Qed.

(* ================================================================= *)
(** ** The address of the download *)

Lemma id_unit_unreserved (c : N) : is_id_unit c = true -> uri_unreserved c = true.
Proof.
  unfold is_id_unit, uri_unreserved. intros H.
  repeat (apply orb_true_iff in H as [H|H]); rewrite H;
    repeat rewrite orb_true_r; reflexivity.
Qed.

Lemma encode_unreserved (s : jsstring) :
  forallb uri_unreserved s = true -> encodeURIComponent s = Some s.
Proof.
  induction s as [|c s IH]; [reflexivity|]. cbn.
  intros H. apply andb_true_iff in H as [Hc Hs]. now rewrite Hc, (IH Hs).
Qed.

Lemma encode_app (a b : jsstring) :
  forallb (fun c => (c <? 55296)%N) a = true ->
  encodeURIComponent (a ++ b)
  = match encodeURIComponent a with
    | Some x => option_map (List.app x) (encodeURIComponent b)
    | None => None
    end.
Proof.
  induction a as [|c a IH]; intros H.
  - cbn. destruct (encodeURIComponent b); reflexivity.
  - cbn [forallb] in H. apply andb_true_iff in H as [Hc Ha].
    apply N.ltb_lt in Hc. specialize (IH Ha).
    assert (Hl : is_low_surrogate c = false).
    { unfold is_low_surrogate. destruct (N.leb_spec 56320 c); [lia | reflexivity]. }
    assert (Hh : is_high_surrogate c = false).
    { unfold is_high_surrogate. destruct (N.leb_spec 55296 c); [lia | reflexivity]. }
    cbn [List.app encodeURIComponent]. rewrite Hl, Hh, IH.
    destruct (uri_unreserved c); destruct (encodeURIComponent a);
      destruct (encodeURIComponent b); cbn; try reflexivity;
      now rewrite <- ?app_assoc.
Qed.

Lemma encode_direct_url (id : jsstring) :
  forallb is_id_unit id = true ->
  encodeURIComponent (direct_url id)
  = Some (lit "https%3A%2F%2Fdrive.google.com%2Fuc%3Fexport%3Ddownload%26id%3D" ++ id).
Proof.
  intros Hid. unfold direct_url. rewrite encode_app by reflexivity.
  rewrite (encode_unreserved id).
  - reflexivity.
  - rewrite forallb_forall in *. intros c Hc. now apply id_unit_unreserved, Hid.
Qed.

(** X29. What the handler of a Drive link does.  On a blank link, nothing.  On a
    link without a file id, it shows its message and fetches nothing.  On a
    link with a file id, it fetches one address, that of the proxy followed
    by the escaped address of the download, which ends with the id as it
    stands in the link; the text received goes to the JSON importer, a
    failed download shows the message of the download.  In every case but
    the first the loading mark ends cleared. *)
Theorem drive_link_import (driveLink : jsstring) (w : World) :
  (trim driveLink = [] -> handleDriveImport driveLink w = (inr tt, w))
  /\ (trim driveLink <> [] -> drive_file_id driveLink = None ->
      handleDriveImport driveLink w
      = (inr tt,
         mkWorld (app w) (Some no_file_id_error) false (inputValue w) (requests w)
           (delivered w) (shown w ++ [no_file_id_error]) (clock w)))
  /\ (forall id,
        trim driveLink <> [] -> drive_file_id driveLink = Some id ->
        match fetch_text
                (lit "https://api.allorigins.win/raw?url=https%3A%2F%2Fdrive.google.com%2Fuc%3Fexport%3Ddownload%26id%3D"
                 ++ id) with
        | None =>
            handleDriveImport driveLink w
            = (inr tt,
               mkWorld (app w) (Some drive_download_error) false (inputValue w)
                 (requests w) (delivered w) (shown w ++ [drive_download_error])
                 (clock w))
        | Some text =>
            handleDriveImport driveLink w
            = (inr tt,
               setIsLoading false
                 (snd (processJsonContent text
                         (mkWorld (app w) None true (inputValue w) (requests w)
                            (delivered w) (shown w) (clock w)))))
        end).
Proof.
  split; [|split].
  - intros Hb. unfold handleDriveImport. now rewrite Hb.
  - intros Hb Hn. unfold handleDriveImport.
    destruct (trim driveLink); [congruence|]. now rewrite Hn.
  - intros id Hb Hid. unfold handleDriveImport.
    destruct (trim driveLink); [congruence|]. rewrite Hid.
    pose proof (drive_file_id_units driveLink id Hid) as Hunits.
    rewrite (encode_direct_url id Hunits).
    change (proxy_url
              (lit "https%3A%2F%2Fdrive.google.com%2Fuc%3Fexport%3Ddownload%26id%3D"
               ++ id))
      with (lit "https://api.allorigins.win/raw?url=https%3A%2F%2Fdrive.google.com%2Fuc%3Fexport%3Ddownload%26id%3D"
            ++ id).
    destruct (fetch_text _) as [text|]; [|reflexivity].
    unfold setError, modify, finally, try_catch, bind, ret.
    cbn [setIsLoading app error isLoading inputValue requests delivered shown clock].
    match goal with |- context [processJsonContent text ?w1] =>
      destruct (processJsonContent_returns text w1) as [b Hret];
      destruct (processJsonContent text w1) as [[e|b'] w2] end;
      [discriminate | reflexivity].
Qed.

(* ================================================================= *)
(** ** The client id that is remembered *)

Lemma getItem_setItem (k v : jsstring) (st : Storage) :
  getItem k (setItem k v st) = Some v.
Proof.
  induction st as [|[k' v'] st IH]; cbn.
  - now rewrite jsstring_eqb_refl.
  - destruct (jsstring_eqb k k') eqn:E; cbn; now rewrite E.
Qed.

Lemma getItem_removeItem (k : jsstring) (st : Storage) :
  getItem k (removeItem k st) = None.
Proof.
  induction st as [|[k' v'] st IH]; cbn; [reflexivity|].
  destruct (jsstring_eqb k k') eqn:E; cbn; [exact IH | now rewrite E].
Qed.

Lemma getItem_setItem_other (k k0 v : jsstring) (st : Storage) :
  k <> k0 -> getItem k (setItem k0 v st) = getItem k st.
Proof.
  intros Hk. apply jsstring_eqb_neq in Hk.
  induction st as [|[k' v'] st IH]; cbn.
  - now rewrite Hk.
  - destruct (jsstring_eqb k0 k') eqn:E; cbn.
    + apply jsstring_eqb_eq in E. subst k'. now rewrite Hk.
    + now rewrite IH.
Qed.

Lemma getItem_removeItem_other (k k0 : jsstring) (st : Storage) :
  k <> k0 -> getItem k (removeItem k0 st) = getItem k st.
Proof.
  intros Hk. apply jsstring_eqb_neq in Hk.
  induction st as [|[k' v'] st IH]; cbn; [reflexivity|].
  destruct (jsstring_eqb k0 k') eqn:E; cbn.
  - apply jsstring_eqb_eq in E. subst k'. now rewrite Hk.
  - now rewrite IH.
Qed.

(** X30. The client id typed by the user survives a reload of the page: what the
    effect saved is what the next start reads, the empty id of a reset too;
    the other entries of the storage are left alone.  A client id given in
    the address of the page comes before the one remembered, and the client
    id of the build before both; the Drive button has no client id exactly
    when neither the build nor the user gave one. *)
Theorem client_id_survives_reload (id : jsstring) (st : Storage) :
  initial_manualClientId true None (save_manualClientId id st) = id
  /\ initial_manualClientId true (Some []) (save_manualClientId id st) = id
  /\ (forall k, k <> client_id_key ->
        getItem k (save_manualClientId id st) = getItem k st)
  /\ (forall c p, initial_manualClientId true (Some (c :: p)) st = c :: p)
  /\ (forall env, env <> [] -> CLIENT_ID env id = env)
  /\ (forall env, CLIENT_ID env id = [] <-> env = [] /\ id = []).
Proof.
  assert (Hget : or_empty (getItem client_id_key (save_manualClientId id st)) = id).
  { unfold save_manualClientId. destruct id as [|c id].
    - now rewrite getItem_removeItem.
    - now rewrite getItem_setItem. }
  split; [exact Hget|]. split; [exact Hget|]. split; [|split; [|split]].
  - intros k Hk. unfold save_manualClientId. destruct id.
    + now apply getItem_removeItem_other.
    + now apply getItem_setItem_other.
  - reflexivity.
  - intros env He. destruct env; [congruence | reflexivity].
  - intros env. destruct env; cbn; split.
    + intros ->. now split.
    + now intros [_ ->].
    + discriminate.
    + intros [H _]. discriminate.
Qed.

(* ================================================================= *)
(** ** The handlers of the earlier revision *)

Lemma handleFileUpload_json_outcome file w :
  outcome w (snd (handleFileUpload_json file w)).
Proof.
  unfold handleFileUpload_json. destruct file as [result|]; [|now apply Ignored].
  unfold setError, modify. unfold bind at 1 2. cbv beta iota.
  set (w1 := mkWorld _ _ _ _ _ _ _ _).
  assert (Hpre : same_log w w1) by (repeat split).
  eapply outcome_pre; [exact Hpre|].
  destruct result as [content|]; cbn.
  - pose proof (processJsonContent_cases content w1) as H. unfold bind.
    destruct (processJsonContent content w1) as [[e|[|]] w2]; cbn; [contradiction| |].
    + destruct H as (d & Ha & Hd & Hs & Hc).
      apply Delivered with d; subst w1; cbn in *; assumption.
    + destruct H as (msg & Ha & Hd & Hs & He).
      apply Failed with msg; subst w1; cbn in *; assumption.
  - eapply Failed; subst w1; cbn; reflexivity.
Qed.

Lemma handleDriveImport_outcome driveLink w :
  outcome w (snd (handleDriveImport driveLink w)).
Proof.
  unfold handleDriveImport. destruct (trim driveLink); [now apply Ignored|].
  unfold setError, modify. unfold bind at 1 2. cbv beta iota.
  set (w1 := mkWorld _ _ _ _ _ _ _ _).
  assert (Hpre : same_log w w1) by (repeat split).
  eapply outcome_pre; [exact Hpre|].
  destruct (drive_file_id driveLink) as [id|] eqn:Hid.
  2:{ eapply Failed; subst w1; cbn; reflexivity. }
  rewrite (encode_direct_url id (drive_file_id_units _ _ Hid)).
  unfold finally, try_catch.
  destruct (fetch_text _) as [text|].
  - pose proof (processJsonContent_cases text w1) as H. unfold bind, ret.
    destruct (processJsonContent text w1) as [[e|[|]] w2]; cbn; [contradiction| |].
    + destruct H as (d & Ha & Hd & Hs & Hc).
      apply Delivered with d; subst w1; cbn in *; assumption.
    + destruct H as (msg & Ha & Hd & Hs & He).
      apply Failed with msg; subst w1; cbn in *; assumption.
  - eapply Failed; subst w1; cbn; reflexivity.
Qed.

Lemma run_earlier_outcome (a : EarlierAction) (w : World) :
  outcome w (snd (run_earlier a w)).
Proof.
  destruct a as [mode|file|driveLink]; cbn [run_earlier].
  - destruct mode; cbn [handleSubmit].
    + apply handleManualSubmit_outcome.
    + now apply Ignored.
  - apply handleFileUpload_json_outcome.
  - apply handleDriveImport_outcome.
Qed.

(** X26. The handlers of the earlier revision fail as those of the later one do:
    when one of them shows a message, the message is all that happens; no
    deck is delivered and the session is what it was.  When one delivers a
    deck, it delivers one, and shows no message. *)
Theorem earlier_failure_keeps_session (a : EarlierAction) (w : World) :
  (shown (snd (run_earlier a w)) <> shown w ->
   (exists msg,
      shown (snd (run_earlier a w)) = shown w ++ [msg]
      /\ error (snd (run_earlier a w)) = Some msg)
   /\ delivered (snd (run_earlier a w)) = delivered w
   /\ app (snd (run_earlier a w)) = app w)
  /\ (delivered (snd (run_earlier a w)) <> delivered w ->
      (exists d,
         delivered (snd (run_earlier a w)) = delivered w ++ [d]
         /\ app (snd (run_earlier a w)) = handleDeckGenerated d (app w))
      /\ shown (snd (run_earlier a w)) = shown w).
Proof.
  destruct (run_earlier_outcome a w) as [d Hc Ha Hd Hs|msg Ha Hd Hs He|Ha Hd Hs];
    split; intros H; try contradiction.
  - split; [eauto | exact Hs].
  - repeat split; eauto.
Qed.

(* ================================================================= *)
(** ** A delivery *)

(** X25. When an ingestion action delivers a deck, it delivers one; the session
    holds that deck and shows its first card, unflipped, in the script the
    user had chosen; the deck has an array of cards, and no message is
    shown. *)
Theorem delivery_starts_at_first_card (a : Action) (w : World) :
  delivered (snd (run a w)) <> delivered w ->
  exists d,
    delivered (snd (run a w)) = delivered w ++ [d]
    /\ has_cards d
    /\ deck (app (snd (run a w))) = Some d
    /\ currentCardIndex (app (snd (run a w))) = Fin 0
    /\ isFlipped (app (snd (run a w))) = false
    /\ scriptMode (app (snd (run a w))) = scriptMode (app w)
    /\ shown (snd (run a w)) = shown w.
Proof.
  intros H.
  destruct (run_outcome a w) as [d Hc Ha Hd Hs|msg Ha Hd Hs He|Ha Hd Hs];
    try contradiction.
  exists d. rewrite Ha. repeat split; assumption.
Qed.

(* ================================================================= *)
(** ** Cards that can be shown *)




Lemma parseResponse_cards_at (t : jsstring) (data : value) (items : list value)
    (w : World) :
  t <> [] ->
  JSON_parse t = Some data ->
  prop data "cards" = inr (VArr items) ->
  exists title cards,
    fst (parseResponse (Some t) w)
    = inr (VObj [(lit "title", title); (lit "cards", VArr cards)])
    /\ forall k c,
         nth_error items k = Some c ->
         nth_error cards k
         = Some (VObj (define (lit "id")
                         (VStr (fresh_id "card-" (Date_now (clock w + k)) k))
                         (spread c))).
Proof.
  intros Hne Hp Hc. destruct t as [|u t]; [congruence|].
  destruct (map_with_card_id_result items 0 w) as (cards & Hrun & Hlen & Hnth).
  destruct (prop data "title") as [e|title] eqn:Ht.
  { unfold prop in Ht, Hc. destruct data; discriminate. }
  exists title, cards. split; [|exact Hnth].
  unfold parseResponse. rewrite Hp.
  unfold bind at 1. unfold lift. rewrite Hc. unfold bind at 1. cbn [array_map].
  unfold bind at 1. rewrite Hrun. cbn [ret]. unfold bind, lift. rewrite Ht. reflexivity.
Qed.

(** X13. A generated deck is not checked: a card of the response whose
    [examples] is not an array is taken into the deck as it is, and the
    render of that card throws. *)
Theorem generated_card_needs_examples (t : jsstring) (data : value)
    (items : list value) (w : World) (k : nat) (c : value) :
  t <> [] ->
  JSON_parse t = Some data ->
  prop data "cards" = inr (VArr items) ->
  nth_error items k = Some c ->
  (forall exs, lookup (lit "examples") (spread c) <> Some (VArr exs)) ->
  exists d cards c',
    fst (parseResponse (Some t) w) = inr d
    /\ prop d "cards" = inr (VArr cards)
    /\ nth_error cards k = Some c'
    /\ forall flipped m, Flashcard c' flipped m = inl TypeError.
Proof.
  intros Hne Hp Hc Hk Hex.
  destruct (parseResponse_cards_at t data items w Hne Hp Hc)
    as (title & cards & Hrun & Hnth).
  eexists _, cards, _. rewrite Hrun. split; [reflexivity|].
  split; [reflexivity|]. split; [exact (Hnth k c Hk)|].
  intros flipped m. unfold Flashcard, and_then. cbn [prop].
  rewrite (lookup_define_other (lit "examples") (lit "id"))
    by (vm_compute; reflexivity).
  destruct (lookup (lit "examples") (spread c)) as [[| | | | |exs|]|] eqn:He;
    try reflexivity.
  now destruct (Hex exs).
Qed.

(* ================================================================= *)
(** ** The earlier importer and the exported file *)

Lemma import_card_id_json (c : FlashcardData) (i : nat) (w : World) :
  card_id c <> [] -> import_card_id (card_json c) i w = (inr (card_json c), w).
Proof.
  destruct c as [id s t p en exs]. cbn [card_id]. intros Hid.
  destruct id as [|u id]; [congruence|]. reflexivity.
Qed.

Lemma import_card_ids_json (cs : list FlashcardData) :
  Forall (fun c => card_id c <> []) cs ->
  forall i w, map_from i import_card_id (map card_json cs) w
              = (inr (map card_json cs), w).
Proof.
  induction 1 as [|c cs Hc _ IH]; intros i w; [reflexivity|].
  cbn [map map_from]. unfold bind.
  now rewrite (import_card_id_json c i w Hc), IH.
Qed.

(** X22. The importer of the earlier revision reads back the exported file of a
    canonical deck whose ids are not empty: it delivers the deck of the file,
    which is the deck exported but for the pinyin that an example does not
    have, which is absent from the file and not [undefined]; no request is
    sent. *)
Theorem json_importer_reads_its_export (d : Deck) (s : AppState) (w : World) :
  deck s = Some (deck_value d) ->
  Forall (fun c => card_id c <> []) (deck_cards d) ->
  exists name text,
    saveDeck s = inr (Some (name, text))
    /\ processJsonContent text w = (inr true, deliver (deck_json d) w)
    /\ deck_json d = clean (deck_value d).
Proof.
  intros Hd Hids. destruct (exported_deck_parses d) as (text & Hs & Hp).
  exists (map file_stem_unit (deck_title d) ++ lit ".json"), text.
  split; [unfold saveDeck; rewrite Hd, Hs; reflexivity|].
  split; [|symmetry; apply clean_deck_value].
  unfold processJsonContent, try_catch. rewrite Hp.
  change (isValidDeck (deck_json d)) with true.
  change (prop (deck_json d) "cards")
    with (inr (VArr (map card_json (deck_cards d))) : exn + value).
  cbv iota. unfold bind, lift. cbn [array_map]. unfold bind.
  rewrite (import_card_ids_json _ Hids). reflexivity.
Qed.

(* ================================================================= *)
(** ** Failures and what the handlers make of them *)

Lemma fst_inr_pair {A B C} (p : (A + B) * C) (b : B) :
  fst p = inr b -> exists c, p = (inr b, c).
Proof. destruct p as [r c]. cbn. intros ->. now exists c. Qed.

Lemma parseResponse_by_usable (text : option jsstring) (w : World) :
  if response_usable text
  then exists d w', parseResponse text w = (inr d, w')
  else exists e w', parseResponse text w = (inl e, w').
Proof.
  destruct text as [[|u t]|]; cbn [response_usable];
    try (eexists _, _; reflexivity).
  destruct (JSON_parse (u :: t)) as [data|] eqn:Hp.
  - destruct (prop data "cards") as [e|cs] eqn:Hc.
    + cbv iota. unfold parseResponse. rewrite Hp. unfold bind, lift. rewrite Hc.
      eexists _, _; reflexivity.
    + destruct cs as [| | | | |items|];
        try (cbv iota; unfold parseResponse; rewrite Hp; unfold bind, lift; rewrite Hc;
             cbn [array_map]; unfold throw; eexists _, _; reflexivity).
      assert (Hne : u :: t <> []) by discriminate.
      destruct (parseResponse_cards_at (u :: t) data items w Hne Hp Hc)
        as (title & cards & H & _).
      cbv iota.
      destruct (fst_inr_pair _ _ H) as [w' E]. eexists _, _; exact E.
  - cbv iota. unfold parseResponse. rewrite Hp. eexists _, _; reflexivity.
Qed.

(** The generation fails, in whatever state it is asked for, exactly when
    [generation_fails] says so. *)
Lemma generateDeckFromList_by_failure (content : jsstring) (w : World) :
  if generation_fails content
  then exists e w', generateDeckFromList content w = (inl e, w')
  else exists d w', generateDeckFromList content w = (inr d, w').
Proof.
  unfold generation_fails, generateDeckFromList, bind, generate.
  destruct (generateContent (list_prompt content)) as [text|].
  - match goal with |- context [parseResponse text ?w1] =>
      pose proof (parseResponse_by_usable text w1) as H end.
    destruct (response_usable text); cbn [negb]; exact H.
  - eexists _, _; reflexivity.
Qed.


Lemma falsy_not_classified (json : value) :
  truthy json = false -> isValidDeck json = false /\ string_array json = None.
Proof. destruct json; cbn; try discriminate; intros _; split; reflexivity. Qed.

(** [processContent] returns [false] exactly on the contents that
    [content_failure] names. *)
Lemma processContent_by_failure (content : jsstring) (w : World) :
  fst (processContent content w) = inr (succeeds (content_failure content)).
Proof.
  unfold content_failure.
  assert (Htext : (forall json, JSON_parse content = Some json ->
                     isValidDeck json = false /\ string_array json = None) ->
                  fst (processContent content w)
                  = inr (succeeds (text_failure content))).
  { intros Hno. unfold text_failure. destruct (is_blank content) eqn:Hb.
    - now rewrite processContent_blank.
    - pose proof (processContent_text content w Hb Hno) as H.
      pose proof (generateDeckFromList_by_failure content w) as Hg.
      destruct (generation_fails content).
      + destruct Hg as (e & w1 & Hg). rewrite Hg in H. now rewrite H.
      + destruct Hg as (d & w1 & Hg). rewrite Hg in H. now rewrite H. }
  destruct (JSON_parse content) as [json|] eqn:Hp; [|apply Htext; discriminate].
  destruct (truthy json) eqn:Ht.
  - destruct (isValidDeck json) eqn:Hv.
    + assert (Hc : exists items, prop json "cards" = inr (VArr items)).
      { unfold isValidDeck in Hv.
        destruct (prop json "cards") as [e|[| | | | |items|]];
          try (rewrite ?andb_false_r in Hv; discriminate).
        now exists items. }
      destruct Hc as [items Hc]. rewrite Hc.
      pose proof (processContent_deck_file content json items w Hp Hv Hc) as H.
      pose proof (import_cards_run items 0 w) as Hm.
      destruct (forallb card_importable items).
      * destruct Hm as (cards & w' & Hm & _). rewrite Hm in H. now rewrite H.
      * destruct Hm as (w' & Hm & _). rewrite Hm in H. now rewrite H.
    + destruct (string_array json) as [strs|] eqn:Hs.
      * destruct (string_array_is_array json strs Hs) as (items & -> & Hall).
        pose proof (processContent_word_list content items strs w Hp Hall) as H.
        pose proof (generateDeckFromList_by_failure (join nl strs) w) as Hg.
        destruct (generation_fails (join nl strs)).
        -- destruct Hg as (e & w1 & Hg). rewrite Hg in H. now rewrite H.
        -- destruct Hg as (d & w1 & Hg). rewrite Hg in H. now rewrite H.
      * apply Htext. intros json' Hp'. try rewrite Hp in Hp'.
        inversion Hp'; subst json'. now split.
  - apply Htext. intros json' Hp'. try rewrite Hp in Hp'.
    inversion Hp'; subst json'. now apply falsy_not_classified.
Qed.

Lemma import_card_id_kind (c : value) (i : nat) (w : World) :
  if card_id_importable c
  then exists c' w', import_card_id c i w = (inr c', w')
  else exists e w', import_card_id c i w = (inl e, w').
Proof.
  unfold card_id_importable, import_card_id, bind, lift.
  destruct (prop c "id") as [e|cid]; [eexists _, _; reflexivity|].
  destruct (id_or_fresh_runs cid i w) as (idv & w' & -> & _).
  eexists _, _; reflexivity.
Qed.

Lemma import_card_ids_kind (items : list value) :
  forall (i : nat) (w : World),
    if forallb card_id_importable items
    then exists cards w', map_from i import_card_id items w = (inr cards, w')
    else exists e w', map_from i import_card_id items w = (inl e, w').
Proof.
  induction items as [|c items IH]; intros i w; cbn [forallb map_from].
  - eexists _, _; reflexivity.
  - pose proof (import_card_id_kind c i w) as Hc. unfold bind.
    destruct (card_id_importable c); cbn [andb].
    + destruct Hc as (c' & w1 & ->).
      specialize (IH (S i) w1).
      destruct (forallb card_id_importable items).
      * destruct IH as (cards & w2 & ->). eexists _, _; reflexivity.
      * destruct IH as (e & w2 & ->). eexists _, _; reflexivity.
    + destruct Hc as (e & w1 & ->). eexists _, _; reflexivity.
Qed.

(** [processJsonContent] returns [false] exactly on the contents that
    [json_content_failure] names. *)
Lemma processJsonContent_by_failure (content : jsstring) (w : World) :
  fst (processJsonContent content w)
  = inr (succeeds (json_content_failure content)).
Proof.
  unfold json_content_failure, processJsonContent, try_catch.
  destruct (JSON_parse content) as [json|] eqn:Hp; [|reflexivity].
  destruct (isValidDeck json) eqn:Hv.
  - assert (Hc : exists items, prop json "cards" = inr (VArr items)).
    { unfold isValidDeck in Hv.
      destruct (prop json "cards") as [e|[| | | | |items|]];
        try (rewrite ?andb_false_r in Hv; discriminate).
      now exists items. }
    destruct Hc as [items Hc]. rewrite Hc.
    unfold bind, lift. cbn [array_map]. unfold bind.
    pose proof (import_card_ids_kind items 0 w) as Hm.
    destruct (forallb card_id_importable items).
    + destruct Hm as (cards & w' & ->). reflexivity.
    + destruct Hm as (e & w' & ->). reflexivity.
  - destruct (string_array json) as [strs|] eqn:Hs; [|reflexivity].
    pose proof (generateDeckFromList_by_failure (join nl strs) w) as Hg.
    unfold bind.
    destruct (generation_fails (join nl strs)).
    + destruct Hg as (e & w1 & ->). reflexivity.
    + destruct Hg as (d & w1 & ->). reflexivity.
Qed.

(** What an action does, by the failure it meets: with a failure, one
    message and nothing else; without, no message, and a deck is delivered
    unless the action returned at once. *)
Lemma run_by_failure (a : Action) (w : World) :
  match failure a w with
  | Some _ =>
      exists msg,
        shown (snd (run a w)) = shown w ++ [msg]
        /\ error (snd (run a w)) = Some msg
        /\ delivered (snd (run a w)) = delivered w
        /\ app (snd (run a w)) = app w
  | None =>
      shown (snd (run a w)) = shown w
      /\ ((exists d,
             delivered (snd (run a w)) = delivered w ++ [d]
             /\ app (snd (run a w)) = handleDeckGenerated d (app w))
          \/ run a w = (inr tt, w))
  end.
Proof.
  assert (Hcontent : forall content w1 (k : unit -> World -> World),
    (forall u x, shown (k u x) = shown x /\ error (k u x) = error x
                 /\ delivered (k u x) = delivered x /\ app (k u x) = app x) ->
    shown w1 = shown w -> delivered w1 = delivered w -> app w1 = app w ->
    forall w2,
      w2 = k tt (snd (processContent content w1)) ->
      match content_failure content with
      | Some _ =>
          exists msg,
            shown w2 = shown w ++ [msg] /\ error w2 = Some msg
            /\ delivered w2 = delivered w /\ app w2 = app w
      | None =>
          shown w2 = shown w
          /\ ((exists d,
                 delivered w2 = delivered w ++ [d]
                 /\ app w2 = handleDeckGenerated d (app w))
              \/ False)
      end).
  { intros content w1 k Hk Hs Hd Ha w2 ->.
    pose proof (processContent_by_failure content w1) as Hf.
    pose proof (processContent_cases content w1) as Hc.
    destruct (processContent content w1) as [[e|b] w3]; [contradiction|].
    cbn [fst snd] in *. destruct (Hk tt w3) as (Hk1 & Hk2 & Hk3 & Hk4).
    rewrite Hk1, Hk2, Hk3, Hk4.
    destruct (content_failure content); cbn in Hf; inversion Hf; subst b.
    - destruct Hc as (Hca & Hcd & Hcs & Hce & _).
      exists processContent_error. rewrite Hcs, Hce, Hcd, Hca. now repeat split; try congruence.
    - destruct Hc as (d & Hca & Hcd & Hcs & _).
      split; [congruence|]. left. exists d. split; congruence. }
  destruct a as [| |[[content|]|]|fileId accessToken|content|content];
    cbn [failure run].
  - (* handleManualSubmit *)
    unfold handleManualSubmit.
    destruct (trim (inputValue w)) eqn:Ht; [split; [reflexivity|now right]|].
    unfold finally, try_catch, setError, modify. unfold bind at 1.
    match goal with |- context [bind (generateDeckFromList _) _ ?w1] =>
      pose proof (generateDeckFromList_by_failure (inputValue w) w1) as Hg;
      pose proof (quiet_generateDeckFromList (inputValue w) w1) as Hq
    end.
    unfold bind.
    destruct (generation_fails (inputValue w)).
    + destruct Hg as (e & w2 & Hg). rewrite Hg.
      destruct (Hq _ _ Hg) as (Ha & _ & _ & _ & Hd & Hs). cbn in *.
      eexists. repeat split; [rewrite Hs; reflexivity | assumption ..].
    + destruct Hg as (d & w2 & Hg). rewrite Hg.
      destruct (Hq _ _ Hg) as (Ha & _ & _ & _ & Hd & Hs). cbn in *.
      split; [assumption|]. left. exists d. rewrite Hd, Ha. now split.
  - (* handleUrlSubmit *)
    unfold handleUrlSubmit.
    destruct (trim (inputValue w)) eqn:Ht; [split; [reflexivity|now right]|].
    unfold finally, try_catch, setError, modify. unfold bind at 1.
    destruct (fetch_text (inputValue w)) as [text|].
    + match goal with |- context [bind (processContent text) _ ?w1] =>
        pose proof (Hcontent text w1 (fun _ => setIsLoading false)) as H;
        pose proof (processContent_returns text w1) as [b Hb]
      end.
      unfold bind in *.
      match type of Hb with fst ?p = _ => destruct p as [[e|b'] w3] end;
        [discriminate|].
      cbn [fst snd] in *.
      specialize (H (fun _ _ => ltac:(repeat split)) eq_refl eq_refl eq_refl _ eq_refl).
      destruct (content_failure text); [exact H|].
      destruct H as (Hs & [H|[]]). split; [exact Hs | left; exact H].
    + cbn. eexists. repeat split.
  - (* handleFileUpload, the file was read *)
    unfold handleFileUpload, setError, modify. unfold bind at 1 2. cbv beta iota.
    match goal with |- context [bind (processContent content) _ ?w1] =>
      pose proof (Hcontent content w1 (fun _ => setIsLoading false)) as H;
      pose proof (processContent_returns content w1) as [b Hb]
    end.
    unfold bind in *.
    match type of Hb with fst ?p = _ => destruct p as [[e|b'] w3] end;
      [discriminate|].
    cbn [fst snd] in *.
    specialize (H (fun _ _ => ltac:(repeat split)) eq_refl eq_refl eq_refl _ eq_refl).
    destruct (content_failure content); [exact H|].
    destruct H as (Hs & [H|[]]). split; [exact Hs | left; exact H].
  - (* handleFileUpload, the file was not read *)
    cbn. eexists. repeat split.
  - (* handleFileUpload, no file *)
    split; [reflexivity|now right].
  - (* fetchDriveFile *)
    unfold fetchDriveFile, finally, try_catch, setError, modify.
    destruct (drive_text fileId accessToken) as [text|].
    + pose proof (Hcontent text w (fun _ => setIsLoading false)) as H.
      pose proof (processContent_returns text w) as [b Hb].
      unfold bind in *.
      match type of Hb with fst ?p = _ => destruct p as [[e|b'] w3] end;
        [discriminate|].
      cbn [fst snd] in *.
      specialize (H (fun _ _ => ltac:(repeat split)) eq_refl eq_refl eq_refl _ eq_refl).
      destruct (content_failure text); [exact H|].
      destruct H as (Hs & [H|[]]). split; [exact Hs | left; exact H].
    + cbn. eexists. repeat split.
  - (* processContent *)
    pose proof (Hcontent content w (fun _ x => x)) as H.
    pose proof (processContent_returns content w) as [b Hb].
    unfold bind in *.
    match type of Hb with fst ?p = _ => destruct p as [[e|b'] w3] end;
      [discriminate|].
    cbn [fst snd] in *.
    specialize (H (fun _ _ => ltac:(repeat split)) eq_refl eq_refl eq_refl _ eq_refl).
    destruct (content_failure content); [exact H|].
    destruct H as (Hs & [H|[]]). split; [exact Hs | left; exact H].
  - (* processJsonContent *)
    pose proof (processJsonContent_by_failure content w) as Hf.
    pose proof (processJsonContent_cases content w) as Hc.
    unfold bind.
    destruct (processJsonContent content w) as [[e|b] w3]; [contradiction|].
    cbn [fst snd] in *.
    destruct (json_content_failure content); cbn in Hf; inversion Hf; subst b.
    + destruct Hc as (msg & Hca & Hcd & Hcs & Hce). exists msg. now repeat split.
    + destruct Hc as (d & Hca & Hcd & Hcs & _).
      split; [assumption|]. left. exists d. now split.
Qed.

(** C7. When an ingestion action fails, whatever the failure (the content
    cannot be classified, the generation fails, the file cannot be read, the
    address cannot be fetched), the failure shows as one error message and
    as nothing else: [onDeckGenerated] is not called, and the deck, the card
    index and the flip state of the session are what they were. *)
Theorem failed_ingestion_keeps_session (a : Action) (w : World) (f : Failure) :
  failure a w = Some f ->
  (exists msg,
     shown (snd (run a w)) = shown w ++ [msg]
     /\ error (snd (run a w)) = Some msg)
  /\ delivered (snd (run a w)) = delivered w
  /\ app (snd (run a w)) = app w
  /\ deck (app (snd (run a w))) = deck (app w)
  /\ currentCardIndex (app (snd (run a w))) = currentCardIndex (app w)
  /\ isFlipped (app (snd (run a w))) = isFlipped (app w).
Proof.
  intros Hf. pose proof (run_by_failure a w) as H. rewrite Hf in H.
  destruct H as (msg & Hs & He & Hd & Ha). rewrite Ha.
  repeat split; try assumption. now exists msg.
Qed.

(** And an action that meets no failure shows no message: it delivers one
    deck, or it has returned at once and changed nothing. *)
Lemma unfailing_action_shows_no_message (a : Action) (w : World) :
  failure a w = None ->
  shown (snd (run a w)) = shown w
  /\ ((exists d,
         delivered (snd (run a w)) = delivered w ++ [d]
         /\ app (snd (run a w)) = handleDeckGenerated d (app w))
      \/ run a w = (inr tt, w)).
Proof.
  intros Hf. pose proof (run_by_failure a w) as H. now rewrite Hf in H.
Qed.

(* ================================================================= *)
(** ** The card on display, with the timers *)


Lemma in_step_at_once (f : AppState -> AppState) (t : Timed) :
  deck (f (current t)) = deck (current t) ->
  currentCardIndex (f (current t)) = currentCardIndex (current t) ->
  in_step t -> in_step (at_once f t).
Proof.
  intros Hd Hi H d. unfold at_once. cbn [current timers]. rewrite Hd, Hi.
  apply H.
Qed.

Lemma in_step_press (mk : value -> Pending) (t : Timed) (d0 : value) :
  (forall d, pending_deck (mk d) = d) ->
  deck (current t) = Some d0 ->
  in_step t ->
  in_step (mkTimed (setIsFlipped (fun _ => false) (current t))
             (timers t ++ [mk d0])).
Proof.
  intros Hmk Hd0 H d. cbn [current timers setIsFlipped deck currentCardIndex].
  intros Hd. destruct (H d Hd) as [Hall Hidx]. split; [|exact Hidx].
  apply Forall_app. split; [exact Hall|]. constructor; [|constructor].
  rewrite Hmk. congruence.
Qed.

Lemma in_step_press_next (t : Timed) : in_step t -> in_step (press_next t).
Proof.
  intros H. unfold press_next. destruct (deck (current t)) as [d0|] eqn:Hd0;
    [|exact H].
  now apply (in_step_press PendingNext).
Qed.

Lemma in_step_press_prev (t : Timed) : in_step t -> in_step (press_prev t).
Proof.
  intros H. unfold press_prev. destruct (deck (current t)) as [d0|] eqn:Hd0;
    [|exact H].
  now apply (in_step_press PendingPrev).
Qed.

Lemma run_pending_deck_kept (p : Pending) (s : AppState) :
  deck (run_pending p s) = deck s.
Proof.
  destruct p as [d|d]; cbn [run_pending]; destruct (cards_length d); reflexivity.
Qed.

Lemma in_step_fire (t : Timed) : in_step t -> in_step (fire t).
Proof.
  intros H. unfold fire. destruct (timers t) as [|p rest] eqn:Ht; [exact H|].
  intros d. cbn [current timers]. rewrite run_pending_deck_kept. intros Hd.
  destruct (H d Hd) as [Hall Hidx]. rewrite Ht in Hall.
  inversion Hall as [|p' rest' Hp Hrest]; subst p' rest'.
  split; [exact Hrest|].
  intros items Hc Hne. destruct (Hidx items Hc Hne) as (i & Hr & Hi).
  assert (Hlen : cards_length d = Some (Fin (Z.of_nat (List.length items))))
    by (unfold cards_length; now rewrite Hc).
  destruct p as [d'|d']; cbn [pending_deck] in Hp; subst d';
    cbn [run_pending]; rewrite Hlen;
    cbn [setCurrentCardIndex currentCardIndex]; rewrite Hi.
  - rewrite js_next_in_range by exact Hr. eexists. split; [|reflexivity].
    apply Z.mod_pos_bound. lia.
  - rewrite js_prev_in_range by exact Hr. eexists. split; [|reflexivity].
    apply Z.mod_pos_bound. lia.
Qed.

Lemma in_step_keydown (in_field : bool) (code : string) (t : Timed) :
  in_step t -> in_step (timed_keydown in_field code t).
Proof.
  intros H. unfold timed_keydown.
  destruct (deck (current t)); [|exact H].
  destruct in_field; [exact H|].
  destruct (_ || _)%bool; [now apply in_step_at_once|].
  destruct (String.eqb code "ArrowRight"); [now apply in_step_press_next|].
  destruct (String.eqb code "ArrowLeft"); [now apply in_step_press_prev|].
  exact H.
Qed.

Lemma in_step_session (evs : list SessionEvent) :
  forall t,
    in_step t -> loads_settled t evs = true ->
    in_step (fold_left session_step evs t).
Proof.
  induction evs as [|e evs IH]; intros t H Hs; [exact H|].
  cbn [fold_left]. cbn [loads_settled] in Hs.
  assert (Hsettled : (forall d, e = Deliver d -> timers t = [])
                     /\ loads_settled (session_step t e) evs = true).
  { destruct e as [d| | |]; try (split; [discriminate|exact Hs]).
    destruct (timers t); [|discriminate].
    apply andb_true_iff in Hs as [_ Hs]. split; [reflexivity|exact Hs]. }
  destruct Hsettled as [Hload Hrest].
  apply IH; [|exact Hrest].
  destruct e as [d| |in_field code|[| | | |]]; cbn [session_step timed_step].
  - intros d'. unfold at_once. cbn. rewrite (Hload d eq_refl). intros Hd.
    inversion Hd; subst d'. split; [constructor|].
    intros items _ Hne. exists 0%Z. split; [|reflexivity].
    destruct items; [contradiction|cbn; lia].
  - intros d. cbn. discriminate.
  - now apply in_step_keydown.
  - now apply in_step_press_next.
  - now apply in_step_press_prev.
  - now apply in_step_at_once.
  - now apply in_step_at_once.
  - now apply in_step_fire.
Qed.

(** X3. As long as no deck is delivered while a timer of the navigation is
    pending, the session shows a card of its deck: whatever the user did
    (presses, keys, flips, resets, decks loaded) and whichever timers have
    expired, if the deck has a card then the index is a position of the
    deck, the data of the card is the card at that position, and the counter
    of the header shows that position, counted from 1, and the number of
    cards.  (A timer is never cancelled: a deck delivered before the timers
    of an earlier deck have expired can be left by the index,
    [stale_timer_leaves_the_deck].) *)
Theorem session_shows_a_card (evs : list SessionEvent) (d : value)
    (items : list value) :
  loads_settled initial_session evs = true ->
  deck (current (session_after evs)) = Some d ->
  prop d "cards" = inr (VArr items) ->
  items <> [] ->
  exists (i : nat) (c : value),
    (i < List.length items)%nat
    /\ currentCardIndex (current (session_after evs)) = Fin (Z.of_nat i)
    /\ nth_error items i = Some c
    /\ current_card (current (session_after evs)) = Some c
    /\ counter (current (session_after evs))
       = Some (Fin (Z.of_nat i + 1), Fin (Z.of_nat (List.length items))).
Proof.
  intros Hs Hd Hc Hne.
  assert (H0 : in_step initial_session) by (intros d0; cbn; discriminate).
  pose proof (in_step_session evs initial_session H0 Hs) as H.
  fold (session_after evs) in H.
  destruct (H d Hd) as [_ Hidx]. destruct (Hidx items Hc Hne) as (z & Hr & Hz).
  assert (Hlt : (Z.to_nat z < List.length items)%nat) by lia.
  destruct (nth_error items (Z.to_nat z)) as [c|] eqn:Hnth;
    [|apply nth_error_None in Hnth; lia].
  exists (Z.to_nat z), c. rewrite Z2Nat.id by lia.
  repeat split; try assumption.
  - unfold current_card. rewrite Hd, Hc, Hz. f_equal.
    rewrite <- (Z2Nat.id z) by lia. now apply element_at_position.
  - unfold counter, cards_length. rewrite Hd, Hc, Hz. reflexivity.
Qed.

(* ================================================================= *)
(** ** Cards that can be shown *)







(* ================================================================= *)
(** ** Export and import of the decks a session holds *)

Lemma all_some_map {A B} (f : A -> option B) (l : list A) (r : list B) :
  all_some (map f l) = Some r -> Forall2 (fun a b => f a = Some b) l r.
Proof.
  revert r. induction l as [|a l IH]; intros r H; cbn in H.
  - inversion H. constructor.
  - destruct (f a) as [b|] eqn:Hb; [|discriminate].
    destruct (all_some (map f l)) as [r'|]; [|discriminate].
    inversion H; subst r. constructor; [exact Hb|now apply IH].
Qed.

Lemma Forall2_all_some {A B} (f : A -> option B) (l : list A) (r : list B) :
  Forall2 (fun a b => f a = Some b) l r -> all_some (map f l) = Some r.
Proof.
  induction 1 as [|a b l r Hab _ IH]; cbn; [reflexivity|].
  now rewrite Hab, IH.
Qed.

(** The typed deck of the object in the layout of [deck_value]. *)
Lemma example_of_value (e : Example) : example_of (example_value e) = Some e.
Proof. destruct e as [s t [p|] en]; reflexivity. Qed.

Lemma card_of_value (c : FlashcardData) : card_of (card_value c) = Some c.
Proof.
  destruct c as [i s t p e exs]. unfold card_value, card_of.
  cbn [card_id card_simplified card_traditional card_pinyin card_english
       card_examples].
  replace (only_keys _ _) with true by (vm_compute; reflexivity).
  replace (field _ "id") with (VStr i) by reflexivity.
  replace (field _ "simplified") with (VStr s) by reflexivity.
  replace (field _ "traditional") with (VStr t) by reflexivity.
  replace (field _ "pinyin") with (VStr p) by reflexivity.
  replace (field _ "english") with (VStr e) by reflexivity.
  replace (field _ "examples") with (VArr (map example_value exs)) by reflexivity.
  rewrite (Forall2_all_some example_of (map example_value exs) exs); [reflexivity|].
  induction exs; constructor; [apply example_of_value|assumption].
Qed.

Lemma deck_of_value (d : Deck) : deck_of (deck_value d) = Some d.
Proof.
  destruct d as [t cs]. unfold deck_value, deck_of. cbn [deck_title deck_cards].
  replace (only_keys _ _) with true by (vm_compute; reflexivity).
  replace (field _ "title") with (VStr t) by reflexivity.
  replace (field _ "cards") with (VArr (map card_value cs)) by reflexivity.
  rewrite (Forall2_all_some card_of (map card_value cs) cs); [reflexivity|].
  induction cs; constructor; [apply card_of_value|assumption].
Qed.

(** *** Keys of an object *)

Lemma lookup_keys_none k (ps : props_t) :
  forall ps' : props_t,
    map fst ps = map fst ps' -> lookup k ps = None -> lookup k ps' = None.
Proof.
  induction ps as [|[k1 v1] ps IH]; intros [|[k2 v2] ps'] Hk H; try discriminate;
    [reflexivity|].
  cbn in Hk. inversion Hk; subst k2. cbn in *.
  destruct (jsstring_eqb k k1); [discriminate|]. now apply IH.
Qed.

Lemma distinct_keys_ext (ps : props_t) :
  forall ps' : props_t,
    map fst ps = map fst ps' -> distinct_keys ps = true -> distinct_keys ps' = true.
Proof.
  induction ps as [|[k1 v1] ps IH]; intros [|[k2 v2] ps'] Hk H; try discriminate;
    [reflexivity|].
  cbn in Hk. inversion Hk as [[Hk1 Hk2]]; subst k2. cbn in *.
  destruct (lookup k1 ps) eqn:Hl; [discriminate|].
  rewrite (lookup_keys_none k1 ps ps' Hk2 Hl). now apply IH.
Qed.

Lemma only_keys_ext names (ps ps' : props_t) :
  map fst ps = map fst ps' -> only_keys names ps = true -> only_keys names ps' = true.
Proof.
  intros Hk H. unfold only_keys in *. apply andb_true_iff in H as [Hf Hd].
  apply andb_true_iff. split; [|now apply (distinct_keys_ext ps)].
  rewrite forallb_forall in *. intros [k v] Hin.
  assert (Hink : In k (map fst ps)).
  { rewrite Hk. change k with (fst (k, v)). now apply in_map. }
  apply in_map_iff in Hink as ([k' v'] & Heq & Hin'). cbn in Heq. subst k'.
  exact (Hf _ Hin').
Qed.

Lemma define_keys k v (ps : props_t) x :
  lookup k ps = Some x -> map fst (define k v ps) = map fst ps.
Proof.
  induction ps as [|[k1 v1] ps IH]; cbn; [discriminate|].
  destruct (jsstring_eqb k k1) eqn:E; [reflexivity|].
  intros H. cbn. now rewrite IH.
Qed.

Lemma only_keys_lookup names (ps : props_t) k :
  existsb (fun n => jsstring_eqb k (lit n)) names = false ->
  only_keys names ps = true ->
  lookup k ps = None.
Proof.
  intros Hk H. unfold only_keys in H. apply andb_true_iff in H as [Hf _].
  induction ps as [|[k1 v1] ps IH]; [reflexivity|].
  cbn in Hf. apply andb_true_iff in Hf as [H1 Hf]. cbn.
  destruct (jsstring_eqb k k1) eqn:E; [|now apply IH].
  apply jsstring_eqb_eq in E. subst k1. congruence.
Qed.

Lemma distinct_lookup_in (ps : props_t) k x :
  distinct_keys ps = true -> In (k, x) ps -> lookup k ps = Some x.
Proof.
  induction ps as [|[k1 v1] ps IH]; intros Hd Hin; [contradiction|].
  cbn in Hd. destruct (lookup k1 ps) eqn:Hl; [discriminate|].
  destruct Hin as [Heq|Hin].
  - inversion Heq; subst. cbn. now rewrite jsstring_eqb_refl.
  - cbn. destruct (jsstring_eqb k k1) eqn:E; [|now apply IH].
    apply jsstring_eqb_eq in E. subst k1.
    rewrite (IH Hd Hin) in Hl. discriminate.
Qed.

Lemma field_lookup (ps : props_t) (k : string) x :
  field ps k = x -> x <> VUndefined -> lookup (lit k) ps = Some x.
Proof.
  unfold field. destruct (lookup (lit k) ps); intros <- H; [reflexivity|].
  now contradiction H.
Qed.

Lemma field_define_same (k : string) v (ps : props_t) :
  field (define (lit k) v ps) k = v.
Proof. unfold field. now rewrite lookup_define_same. Qed.

Lemma field_define_other (k k' : string) v (ps : props_t) :
  jsstring_eqb (lit k') (lit k) = false ->
  field (define (lit k) v ps) k' = field ps k'.
Proof. intros H. unfold field. now rewrite lookup_define_other. Qed.

(** An object with the keys [names] only is written as it reads when its
    fields are. *)
Lemma json_safe_object names (ps : props_t) :
  only_keys names ps = true ->
  (forall n, In n names -> json_safe (field ps n) = true) ->
  json_safe (VObj ps) = true.
Proof.
  intros Hk Hf. unfold only_keys in Hk. apply andb_true_iff in Hk as [Hn Hd].
  cbn [json_safe]. apply andb_true_iff. split; [|exact Hd].
  rewrite forallb_forall in *. intros [k x] Hin.
  pose proof (Hn _ Hin) as He. cbn [fst] in He.
  apply existsb_exists in He as (n & Hnin & Heq).
  apply jsstring_eqb_eq in Heq. subst k.
  specialize (Hf n Hnin). unfold field in Hf.
  now rewrite (distinct_lookup_in ps (lit n) x Hd Hin) in Hf.
Qed.

(** *** The objects of a canonical deck *)

Lemma example_of_iff (ex : value) (e : Example) :
  example_of ex = Some e <->
  exists ps,
    ex = VObj ps /\ only_keys example_keys ps = true
    /\ field ps "simplified" = VStr (ex_simplified e)
    /\ field ps "traditional" = VStr (ex_traditional e)
    /\ field ps "pinyin" = opt_string (ex_pinyin e)
    /\ field ps "english" = VStr (ex_english e).
Proof.
  split.
  - destruct ex as [| | | | | |ps]; try discriminate. cbn [example_of].
    destruct (only_keys example_keys ps) eqn:Hk; [|discriminate].
    destruct (field ps "simplified") as [| | | |s| |] eqn:Hs; try discriminate.
    destruct (field ps "traditional") as [| | | |t| |] eqn:Ht; try discriminate.
    destruct (field ps "english") as [| | | |en| |] eqn:He; try discriminate.
    destruct (field ps "pinyin") as [| | | |p| |] eqn:Hp; try discriminate;
      intros H; inversion H; subst e; exists ps; cbn; now repeat split.
  - intros (ps & -> & Hk & Hs & Ht & Hp & He). cbn [example_of].
     rewrite Hk, Hs, Ht, He, Hp.
    destruct e as [s t [p|] en]; reflexivity.
Qed.

Lemma card_of_iff (c : value) (cd : FlashcardData) :
  card_of c = Some cd <->
  exists ps exs,
    c = VObj ps /\ only_keys card_keys ps = true
    /\ field ps "id" = VStr (card_id cd)
    /\ field ps "simplified" = VStr (card_simplified cd)
    /\ field ps "traditional" = VStr (card_traditional cd)
    /\ field ps "pinyin" = VStr (card_pinyin cd)
    /\ field ps "english" = VStr (card_english cd)
    /\ field ps "examples" = VArr exs
    /\ Forall2 (fun ex e => example_of ex = Some e) exs (card_examples cd).
Proof.
  split.
  - destruct c as [| | | | | |ps]; try discriminate. cbn [card_of].
    destruct (only_keys card_keys ps) eqn:Hk; [|discriminate].
    destruct (field ps "id") as [| | | |i| |] eqn:Hi; try discriminate.
    destruct (field ps "simplified") as [| | | |s| |] eqn:Hs; try discriminate.
    destruct (field ps "traditional") as [| | | |t| |] eqn:Ht; try discriminate.
    destruct (field ps "pinyin") as [| | | |p| |] eqn:Hp; try discriminate.
    destruct (field ps "english") as [| | | |en| |] eqn:He; try discriminate.
    destruct (field ps "examples") as [| | | | |exs|] eqn:Hx; try discriminate.
    destruct (all_some (map example_of exs)) as [es|] eqn:Hes; [|discriminate].
    intros H; inversion H; subst cd. exists ps, exs. cbn.
    repeat split; try assumption. now apply all_some_map.
  - intros (ps & exs & -> & Hk & Hi & Hs & Ht & Hp & He & Hx & Hall).
    cbn [card_of].  rewrite Hk, Hi, Hs, Ht, Hp, He, Hx.
    rewrite (Forall2_all_some _ _ _ Hall). now destruct cd.
Qed.

Lemma deck_of_iff (v : value) (d : Deck) :
  deck_of v = Some d <->
  exists ps cs,
    v = VObj ps /\ only_keys deck_keys ps = true
    /\ field ps "title" = VStr (deck_title d)
    /\ field ps "cards" = VArr cs
    /\ Forall2 (fun c cd => card_of c = Some cd) cs (deck_cards d).
Proof.
  split.
  - destruct v as [| | | | | |ps]; try discriminate. cbn [deck_of].
    destruct (only_keys deck_keys ps) eqn:Hk; [|discriminate].
    destruct (field ps "title") as [| | | |t| |] eqn:Ht; try discriminate.
    destruct (field ps "cards") as [| | | | |cs|] eqn:Hc; try discriminate.
    destruct (all_some (map card_of cs)) as [l|] eqn:Hl; [|discriminate].
    intros H; inversion H; subst d. exists ps, cs. cbn.
    repeat split; try assumption. now apply all_some_map.
  - intros (ps & cs & -> & Hk & Ht & Hc & Hall).
    cbn [deck_of].  rewrite Hk, Ht, Hc.
    rewrite (Forall2_all_some _ _ _ Hall). now destruct d.
Qed.

(** *** Such objects on the way through the file *)

Lemma json_safe_example (ex : value) (e : Example) :
  example_of ex = Some e -> json_safe ex = true.
Proof.
  intros H. apply example_of_iff in H as (ps & -> & Hk & Hs & Ht & Hp & He).
  apply (json_safe_object example_keys); [exact Hk|].
  intros n [<-|[<-|[<-|[<-|[]]]]]; rewrite ?Hs, ?Ht, ?Hp, ?He; try reflexivity.
  now destruct (ex_pinyin e).
Qed.

Lemma json_safe_card (c : value) (cd : FlashcardData) :
  card_of c = Some cd -> json_safe c = true.
Proof.
  intros H.
  apply card_of_iff in H as (ps & exs & -> & Hk & Hi & Hs & Ht & Hp & He & Hx & Hall).
  apply (json_safe_object card_keys); [exact Hk|].
  intros n [<-|[<-|[<-|[<-|[<-|[<-|[]]]]]]];
    rewrite ?Hi, ?Hs, ?Ht, ?Hp, ?He, ?Hx; try reflexivity.
  cbn [json_safe]. apply forallb_forall. intros ex Hin.
  clear Hx. induction Hall as [|ex' e exs es Hex _ IH]; [contradiction|].
  destruct Hin as [<-|Hin]; [now apply (json_safe_example _ e)|now apply IH].
Qed.

Lemma json_safe_deck (v : value) (d : Deck) :
  deck_of v = Some d -> json_safe v = true.
Proof.
  intros H. apply deck_of_iff in H as (ps & cs & -> & Hk & Ht & Hc & Hall).
  apply (json_safe_object deck_keys); [exact Hk|].
  intros n [<-|[<-|[]]]; rewrite ?Ht, ?Hc; try reflexivity.
  cbn [json_safe]. apply forallb_forall. intros c Hin.
  clear Hc. induction Hall as [|c' cd cs cds Hcd _ IH]; [contradiction|].
  destruct Hin as [<-|Hin]; [now apply (json_safe_card _ cd)|now apply IH].
Qed.

Lemma live_only_keys names (ps : props_t) :
  only_keys names ps = true ->
  only_keys names (map (fun kv => (fst kv, clean (snd kv))) (live ps)) = true.
Proof.
  intros H.
  apply (only_keys_ext names (live ps)); [now rewrite map_map|].
  unfold only_keys in *. apply andb_true_iff in H as [Hf Hd].
  apply andb_true_iff. split; [|now apply live_distinct].
  rewrite forallb_forall in *. intros kv Hin. apply Hf.
  unfold live in Hin. now apply filter_In in Hin as [Hin _].
Qed.

Lemma field_clean (ps : props_t) (k : string) :
  distinct_keys ps = true ->
  field (map (fun kv => (fst kv, clean (snd kv))) (live ps)) k = clean (field ps k).
Proof.
  unfold field.
  induction ps as [|[k1 x] ps IH]; intros Hd; [reflexivity|].
  cbn in Hd. destruct (lookup k1 ps) eqn:Hl; [discriminate|].
  specialize (IH Hd). unfold live in *. cbn [filter snd lookup].
  destruct (jsstring_eqb (lit k) k1) eqn:E.
  - apply jsstring_eqb_eq in E. subst k1.
    destruct x; cbn [is_undefined negb map fst snd lookup];
      rewrite ?jsstring_eqb_refl; try reflexivity.
    rewrite IH, Hl. reflexivity.
  - destruct x; cbn [is_undefined negb map fst snd lookup]; rewrite ?E; exact IH.
Qed.

Lemma only_keys_distinct names (ps : props_t) :
  only_keys names ps = true -> distinct_keys ps = true.
Proof. unfold only_keys. intros H. now apply andb_true_iff in H as [_ H]. Qed.

Lemma example_of_clean (ex : value) (e : Example) :
  example_of ex = Some e -> example_of (clean ex) = Some e.
Proof.
  intros H. apply example_of_iff in H as (ps & -> & Hk & Hs & Ht & Hp & He).
  apply example_of_iff. rewrite clean_object. eexists. split; [reflexivity|].
  pose proof (only_keys_distinct _ _ Hk) as Hd.
  rewrite !field_clean, Hs, Ht, Hp, He by exact Hd.
  split; [now apply live_only_keys|]. repeat split.
  now destruct (ex_pinyin e).
Qed.

Lemma clean_elems_examples (exs : list value) (es : list Example) :
  Forall2 (fun ex e => example_of ex = Some e) exs es ->
  Forall2 (fun ex e => example_of ex = Some e)
    (map (fun x => match x with VUndefined => VNull | _ => clean x end) exs) es.
Proof.
  induction 1 as [|ex e exs es Hex _ IH]; cbn [map]; constructor; [|exact IH].
  destruct ex; try discriminate. now apply example_of_clean.
Qed.

Lemma card_of_clean (c : value) (cd : FlashcardData) :
  card_of c = Some cd -> card_of (clean c) = Some cd.
Proof.
  intros H.
  apply card_of_iff in H as (ps & exs & -> & Hk & Hi & Hs & Ht & Hp & He & Hx & Hall).
  apply card_of_iff. rewrite clean_object. eexists _, _. split; [reflexivity|].
  pose proof (only_keys_distinct _ _ Hk) as Hd.
  rewrite !field_clean, Hi, Hs, Ht, Hp, He, Hx by exact Hd.
  split; [now apply live_only_keys|]. cbn [clean]. repeat split.
  now apply clean_elems_examples.
Qed.

Lemma clean_elems_cards (cs : list value) (cds : list FlashcardData) :
  Forall2 (fun c cd => card_of c = Some cd) cs cds ->
  Forall2 (fun c cd => card_of c = Some cd)
    (map (fun x => match x with VUndefined => VNull | _ => clean x end) cs) cds.
Proof.
  induction 1 as [|c cd cs cds Hc _ IH]; cbn [map]; constructor; [|exact IH].
  destruct c; try discriminate. now apply card_of_clean.
Qed.

Lemma deck_of_clean (v : value) (d : Deck) :
  deck_of v = Some d -> deck_of (clean v) = Some d.
Proof.
  intros H. apply deck_of_iff in H as (ps & cs & -> & Hk & Ht & Hc & Hall).
  apply deck_of_iff. rewrite clean_object. eexists _, _. split; [reflexivity|].
  pose proof (only_keys_distinct _ _ Hk) as Hd.
  rewrite !field_clean, Ht, Hc by exact Hd.
  split; [now apply live_only_keys|]. cbn [clean]. repeat split.
  now apply clean_elems_cards.
Qed.

(** *** The importer on such objects *)

Lemma prop_field (ps : props_t) (k : string) : prop (VObj ps) k = inr (field ps k).
Proof. reflexivity. Qed.

Lemma import_example_of (ex : value) (e : Example) (i : nat) (w : World) :
  example_of ex = Some e ->
  exists ex', import_example ex i w = (inr ex', w) /\ example_of ex' = Some e.
Proof.
  intros H. apply example_of_iff in H as (ps & -> & Hk & Hs & Ht & Hp & He).
  assert (Hc : field ps "chinese" = VUndefined).
  { unfold field. now rewrite (only_keys_lookup example_keys ps (lit "chinese")). }
  unfold import_example, bind, lift, ret.
  rewrite !prop_field, Hs, Ht, Hc, Hp, He.
  eexists. split; [reflexivity|].
  destruct e as [[|s1 s] [|t1 t] [p|] en]; reflexivity.
Qed.

Lemma import_examples_of (exs : list value) (es : list Example) :
  Forall2 (fun ex e => example_of ex = Some e) exs es ->
  forall i w,
    exists exs',
      map_from i import_example exs w = (inr exs', w)
      /\ Forall2 (fun ex e => example_of ex = Some e) exs' es.
Proof.
  induction 1 as [|ex e exs es Hex _ IH]; intros i w; cbn [map_from].
  - eexists. split; [reflexivity|constructor].
  - destruct (import_example_of ex e i w Hex) as (ex' & Hrun & Hex').
    destruct (IH (S i) w) as (exs' & Hruns & Hexs').
    unfold bind. rewrite Hrun, Hruns. eexists. split; [reflexivity|].
    now constructor.
Qed.

Lemma import_card_of (c : value) (cd : FlashcardData) (i : nat) (w : World) :
  card_of c = Some cd ->
  card_id cd <> [] ->
  exists c', import_card c i w = (inr c', w) /\ card_of c' = Some cd.
Proof.
  intros H Hid.
  apply card_of_iff in H as (ps & exs & -> & Hk & Hi & Hs & Ht & Hp & He & Hx & Hall).
  destruct (import_examples_of exs _ Hall 0 w) as (exs' & Hrun & Hall').
  unfold import_card, bind, lift. rewrite !prop_field, Hx, Hi.
  cbn [array_map]. unfold bind. rewrite Hrun. unfold ret. cbn [js_or truthy].
  unfold id_or_fresh.
  assert (Htruthy : truthy (VStr (card_id cd)) = true)
    by (cbn; destruct (card_id cd); [contradiction|reflexivity]).
  rewrite Htruthy. unfold ret. eexists. split; [reflexivity|].
  cbn [spread].
  assert (Hlx : lookup (lit "examples") ps = Some (VArr exs))
    by (apply field_lookup; [exact Hx|discriminate]).
  assert (Hli : lookup (lit "id") ps = Some (VStr (card_id cd)))
    by (apply field_lookup; [exact Hi|discriminate]).
  apply card_of_iff. eexists _, exs'. split; [reflexivity|].
  split.
  { apply (only_keys_ext card_keys ps); [|exact Hk].
    symmetry. erewrite define_keys; [eapply define_keys; exact Hlx|].
    rewrite lookup_define_other by reflexivity. exact Hli. }
  rewrite field_define_same.
  rewrite !(field_define_other "id") by reflexivity.
  rewrite field_define_same.
  rewrite !(field_define_other "examples") by reflexivity.
  now repeat split.
Qed.

Lemma import_cards_of (cs : list value) (cds : list FlashcardData) :
  Forall2 (fun c cd => card_of c = Some cd) cs cds ->
  Forall (fun cd => card_id cd <> []) cds ->
  forall i w,
    exists cs',
      map_from i import_card cs w = (inr cs', w)
      /\ Forall2 (fun c cd => card_of c = Some cd) cs' cds.
Proof.
  induction 1 as [|c cd cs cds Hc _ IH]; intros Hids i w; cbn [map_from].
  - eexists. split; [reflexivity|constructor].
  - inversion Hids as [|? ? Hid Hids']; subst.
    destruct (import_card_of c cd i w Hc Hid) as (c' & Hrun & Hc').
    destruct (IH Hids' (S i) w) as (cs' & Hruns & Hcs').
    unfold bind. rewrite Hrun, Hruns. eexists. split; [reflexivity|].
    now constructor.
Qed.

(** The importer on a text that parses to the object of a canonical deck
    with ids: it delivers an object of the same deck, and asks for no id
    and for no generation. *)
Lemma processContent_canonical (text : jsstring) (j : value) (d : Deck) (w : World) :
  JSON_parse text = Some j ->
  deck_of j = Some d ->
  Forall (fun cd => card_id cd <> []) (deck_cards d) ->
  exists v',
    processContent text w = (inr true, deliver v' w) /\ deck_of v' = Some d.
Proof.
  intros Hp Hd Hids.
  apply deck_of_iff in Hd as (ps & cs & -> & Hk & Ht & Hc & Hall).
  assert (Hlt : lookup (lit "title") ps = Some (VStr (deck_title d)))
    by (apply field_lookup; [exact Ht|discriminate]).
  assert (Hlc : lookup (lit "cards") ps = Some (VArr cs))
    by (apply field_lookup; [exact Hc|discriminate]).
  assert (Hv : isValidDeck (VObj ps) = true)
    by (apply isValidDeck_iff; exists ps, (deck_title d), cs; now repeat split).
  assert (Hpc : prop (VObj ps) "cards" = inr (VArr cs))
    by (now rewrite prop_field, Hc).
  pose proof (processContent_deck_file text (VObj ps) cs w Hp Hv Hpc) as H.
  destruct (import_cards_of cs _ Hall Hids 0 w) as (cs' & Hrun & Hall').
  rewrite Hrun in H. eexists. split; [exact H|].
  cbn [spread]. apply deck_of_iff. eexists _, cs'. split; [reflexivity|].
  split.
  { apply (only_keys_ext deck_keys ps); [|exact Hk].
    symmetry. eapply define_keys; exact Hlc. }
  rewrite field_define_same, (field_define_other "cards") by reflexivity.
  now repeat split.
Qed.

(** The file of a canonical deck reads back as the object of the same deck. *)
Lemma canonical_deck_exports (s : AppState) (v : value) (d : Deck) :
  deck s = Some v ->
  deck_of v = Some d ->
  exists text j,
    saveDeck s = inr (Some (map file_stem_unit (deck_title d) ++ lit ".json", text))
    /\ JSON_parse text = Some j /\ deck_of j = Some d.
Proof.
  intros Hs Hd.
  pose proof (json_safe_deck v d Hd) as Hsafe.
  pose proof (deck_of_clean v d Hd) as Hclean.
  apply deck_of_iff in Hd as (ps & cs & -> & Hk & Ht & Hc & Hall).
  assert (Htext : exists text, JSON_stringify (VObj ps) = Some text).
  { unfold JSON_stringify. cbn [serialize].
    match goal with |- context [match ?l with [] => _ | _ :: _ => _ end] =>
      destruct l end; eexists; reflexivity. }
  destruct Htext as [text Htext].
  exists text, (clean (VObj ps)).
  split; [|split; [now apply JSON_parse_stringify|exact Hclean]].
  unfold saveDeck. now rewrite Hs, Htext, prop_field, Ht.
Qed.

(** *** The decks a session holds *)


Lemma map_import_card_id_truthy items :
  forall i w ys w',
    map_from i import_card_id items w = (inr ys, w') ->
    Forall (fun c => truthy (id_of c) = true) ys.
Proof.
  induction items as [|x items IH]; intros i w ys w' H.
  - inversion H; subst. constructor.
  - cbn [map_from] in H.
    apply bind_inv in H as [(y & w1 & H1 & H)|(e & _ & He)]; [|discriminate].
    apply bind_inv in H as [(ys' & w2 & H2 & H)|(e & _ & He)]; [|discriminate].
    inversion H; subst ys w'. constructor; [|eapply IH; eassumption].
    unfold import_card_id in H1.
    apply bind_inv in H1 as [(cid & w3 & _ & H1)|(e & _ & He)]; [|discriminate].
    apply bind_inv in H1 as [(idv & w4 & Hid & H1)|(e & _ & He)]; [|discriminate].
    inversion H1; subst y. rewrite id_of_define_id.
    now apply id_or_fresh_spec in Hid as [Ht _].
Qed.

Lemma processJsonContent_delivers_ids content w w' :
  processJsonContent content w = (inr true, w') ->
  exists d, deck (app w') = Some d /\ with_ids d.
Proof.
  unfold processJsonContent, try_catch. intros H.
  destruct (JSON_parse content) as [json|]; [|discriminate].
  destruct (isValidDeck json).
  - match type of H with (match ?m with _ => _ end) = _ =>
      destruct m as [[e|b] w1] eqn:Hb end; [discriminate|].
    inversion H; subst b w1. clear H.
    apply bind_inv in Hb as [(cs & w1 & _ & Hj)|(e & _ & He)]; [|discriminate].
    apply bind_inv in Hj as [(cards & w2 & Hm & Hj)|(e & _ & He)]; [|discriminate].
    unfold bind, onDeckGenerated, modify, ret in Hj. inversion Hj; subst w'.
    destruct cs; try discriminate. cbn [array_map] in Hm.
    apply bind_inv in Hm as [(ys & w3 & Hys & Hm)|(e & _ & He)]; [|discriminate].
    inversion Hm; subst cards w2.
    eexists. split; [reflexivity|]. exists ys. split.
    + unfold prop. now rewrite lookup_define_same.
    + eapply map_import_card_id_truthy; eassumption.
  - destruct (string_array json) as [strs|]; [|discriminate].
    match type of H with (match ?m with _ => _ end) = _ =>
      destruct m as [[e|b] w1] eqn:Hb end; [discriminate|].
    inversion H; subst b w1. clear H.
    apply deliver_inv in Hb as (d & w2 & Hg & Hd).
    apply generateDeckFromList_ids in Hg. eauto.
Qed.

Lemma app_tail_inj {A} (l : list A) (x y : A) : l ++ [x] = l ++ [y] -> x = y.
Proof. intros H. now apply app_inj_tail in H as [_ H]. Qed.

(** A deck an ingestion action delivers is the deck of the session after
    it, and each of its cards has an id that is not empty. *)
Lemma run_delivers (a : Action) (w : World) (v : value) :
  delivered (snd (run a w)) = delivered w ++ [v] ->
  deck (app (snd (run a w))) = Some v /\ with_ids v.
Proof.
  assert (Hcontent : forall content w1 (k : World -> World),
    (forall x, delivered (k x) = delivered x /\ app (k x) = app x) ->
    delivered w1 = delivered w ->
    forall w2,
      w2 = k (snd (processContent content w1)) ->
      delivered w2 = delivered w ++ [v] ->
      deck (app w2) = Some v /\ with_ids v).
  { intros content w1 k Hk Hd w2 -> Hv.
    destruct (Hk (snd (processContent content w1))) as [Hk1 Hk2].
    rewrite Hk1 in Hv. rewrite Hk2. clear Hk Hk1 Hk2.
    pose proof (processContent_cases content w1) as Hc.
    destruct (processContent content w1) as [[e|[|]] w3] eqn:Hpc;
      [contradiction| |].
    - cbn [snd] in *. destruct Hc as (d & Ha & Hdel & _).
      rewrite Hdel, Hd in Hv. apply app_tail_inj in Hv. subst d.
      destruct (processContent_delivers_ids _ _ _ Hpc) as (d' & items & Hd' & Hi).
      rewrite Ha in Hd'. cbn in Hd'. inversion Hd'; subst d'.
      split; [now rewrite Ha|]. now exists items.
    - cbn [snd] in *. destruct Hc as (_ & Hdel & _).
      rewrite Hdel, Hd in Hv. symmetry in Hv. now apply app_neq_self in Hv. }
  assert (Hnone : forall X : Prop, delivered w = delivered w ++ [v] -> X).
  { intros X H. symmetry in H. now apply app_neq_self in H. }
  destruct a as [| |[[content|]|]|fileId accessToken|content|content];
    cbn [run].
  - (* handleManualSubmit *)
    unfold handleManualSubmit.
    destruct (trim (inputValue w)) eqn:Ht; [apply Hnone|].
    unfold finally, try_catch, setError, modify. unfold bind at 1.
    unfold bind.
    match goal with |- context [generateDeckFromList ?c ?w1] =>
      destruct (generateDeckFromList c w1) as [[e|d] w2] eqn:Hg end.
    + destruct (quiet_generateDeckFromList _ _ _ _ Hg) as (_ & _ & _ & _ & Hd & _).
      cbn in *. rewrite Hd. apply Hnone.
    + destruct (quiet_generateDeckFromList _ _ _ _ Hg) as (_ & _ & _ & _ & Hd & _).
      cbn in *. rewrite Hd. intros Hv. apply app_tail_inj in Hv. subst d.
      split; [reflexivity|].
      destruct (generateDeckFromList_ids _ _ _ _ Hg) as (items & Hi).
      now exists items.
  - (* handleUrlSubmit *)
    unfold handleUrlSubmit.
    destruct (trim (inputValue w)) eqn:Ht; [apply Hnone|].
    unfold finally, try_catch, setError, modify. unfold bind at 1.
    destruct (fetch_text (inputValue w)) as [text|]; [|cbn; apply Hnone].
    match goal with |- context [bind (processContent text) _ ?w1] =>
      pose proof (Hcontent text w1 (setIsLoading false)) as H;
      pose proof (processContent_returns text w1) as [b Hb]
    end.
    unfold bind in *.
    match type of Hb with fst ?p = _ => destruct p as [[e|b'] w3] end;
      [discriminate|].
    cbn [fst snd] in *.
    exact (H (fun _ => conj eq_refl eq_refl) eq_refl _ eq_refl).
  - (* handleFileUpload, the file was read *)
    unfold handleFileUpload, setError, modify. unfold bind at 1 2. cbv beta iota.
    match goal with |- context [bind (processContent content) _ ?w1] =>
      pose proof (Hcontent content w1 (setIsLoading false)) as H;
      pose proof (processContent_returns content w1) as [b Hb]
    end.
    unfold bind in *.
    match type of Hb with fst ?p = _ => destruct p as [[e|b'] w3] end;
      [discriminate|].
    cbn [fst snd] in *.
    exact (H (fun _ => conj eq_refl eq_refl) eq_refl _ eq_refl).
  - cbn. apply Hnone.
  - cbn. apply Hnone.
  - (* fetchDriveFile *)
    unfold fetchDriveFile, finally, try_catch, setError, modify.
    destruct (drive_text fileId accessToken) as [text|]; [|cbn; apply Hnone].
    pose proof (Hcontent text w (setIsLoading false)) as H.
    pose proof (processContent_returns text w) as [b Hb].
    unfold bind in *.
    match type of Hb with fst ?p = _ => destruct p as [[e|b'] w3] end;
      [discriminate|].
    cbn [fst snd] in *.
    exact (H (fun _ => conj eq_refl eq_refl) eq_refl _ eq_refl).
  - (* processContent *)
    pose proof (Hcontent content w (fun x => x)) as H.
    pose proof (processContent_returns content w) as [b Hb].
    unfold bind in *.
    match type of Hb with fst ?p = _ => destruct p as [[e|b'] w3] end;
      [discriminate|].
    cbn [fst snd] in *.
    exact (H (fun _ => conj eq_refl eq_refl) eq_refl _ eq_refl).
  - (* processJsonContent *)
    pose proof (processJsonContent_cases content w) as Hc.
    unfold bind.
    destruct (processJsonContent content w) as [[e|[|]] w3] eqn:Hpc;
      [contradiction| |]; cbn [fst snd ret].
    + destruct Hc as (d & Ha & Hdel & _). rewrite Hdel. intros Hv.
      apply app_tail_inj in Hv. subst d.
      destruct (processJsonContent_delivers_ids _ _ _ Hpc) as (d' & Hd' & Hi).
      rewrite Ha in Hd'. cbn in Hd'. inversion Hd'; subst d'.
      split; [now rewrite Ha|exact Hi].
    + destruct Hc as (msg & _ & Hdel & _). rewrite Hdel. apply Hnone.
Qed.

Lemma held_ids_not_empty (v : value) (d : Deck) :
  with_ids v -> deck_of v = Some d ->
  Forall (fun cd => card_id cd <> []) (deck_cards d).
Proof.
  intros (items & Hc & Hids) Hd.
  apply deck_of_iff in Hd as (ps & cs & -> & _ & _ & Hcs & Hall).
  rewrite prop_field, Hcs in Hc. inversion Hc; subst items. clear Hc Hcs.
  induction Hall as [|c cd cs cds Hcd _ IH]; [constructor|].
  inversion Hids as [|? ? Hid Hids']; subst. constructor; [|now apply IH].
  apply card_of_iff in Hcd as (ps' & exs & -> & _ & Hi & _).
  unfold id_of in Hid. rewrite prop_field, Hi in Hid.
  intros E. rewrite E in Hid. discriminate.
Qed.

(** C1. A canonical deck that the session holds comes back from its own
    file: whichever ingestion action delivered the deck and whatever the
    layout of its object, [saveDeck] offers a file, and the importer, given
    the text of that file, delivers an object of the same typed deck (the
    same title, the same cards in the same order, each with its id, its
    fields and its examples), without a request to the generation
    service. *)
Theorem held_deck_round_trip (a : Action) (w w2 : World) (s : AppState)
    (v : value) (d : Deck) :
  delivered (snd (run a w)) = delivered w ++ [v] ->
  deck s = Some v ->
  deck_of v = Some d ->
  exists text v',
    saveDeck s
    = inr (Some (map file_stem_unit (deck_title d) ++ lit ".json", text))
    /\ processContent text w2 = (inr true, deliver v' w2)
    /\ deck_of v' = Some d.
Proof.
  intros Hrun Hs Hd.
  destruct (run_delivers a w v Hrun) as [_ Hids].
  pose proof (held_ids_not_empty v d Hids Hd) as Hne.
  destruct (canonical_deck_exports s v d Hs Hd) as (text & j & Hsave & Hp & Hj).
  destruct (processContent_canonical text j d w2 Hp Hj Hne) as (v' & Hrun' & Hv').
  now exists text, v'.
Qed.

End Properties.

(* ================================================================= *)
(** * The properties on the demo host *)

Import Demo.

(** A deck file written by hand whose card has the empty string for id: the
    importer takes the id for absent and makes a new one.  (No session holds
    such a deck, [run_delivers]: the ids the ingestion leaves are not
    empty.) *)
Lemma empty_id_not_preserved :
  exists exported,
    JSON_stringify (deck_value nameless_deck) = Some exported
    /\ fst (processContent exported w0) = inr true
    /\ deck (app (snd (processContent exported w0)))
       = Some (deck_value renamed_deck)
    /\ deck_value renamed_deck <> deck_value nameless_deck.
Proof.
  exists (elem_text 0 (deck_value nameless_deck)).
  split; [vm_compute; reflexivity|]. split; [vm_compute; reflexivity|].
  split; [vm_compute; reflexivity|].
  intros H. vm_compute in H. discriminate H.
Qed.

(** The deck of two cards, in the layout of [deck_value]. *)
Lemma export_then_import_fruit :
  exists name exported,
    saveDeck loaded = inr (Some (name, exported))
    /\ processContent exported w0 = (inr true, deliver (deck_value fruit_deck) w0)
    /\ deck (app (deliver (deck_value fruit_deck) w0)) = Some (deck_value fruit_deck)
    /\ requests (deliver (deck_value fruit_deck) w0) = requests w0.
Proof.
  apply (@export_then_import host fruit_deck loaded w0).
  - reflexivity.
  - repeat constructor; discriminate.
Defined.

(** C2, as the specification states it, fails in [processContent]: an object
    without cards is sent to the generation service. *)
Lemma object_without_cards_is_sent :
  JSON_parse (text "{'title':'Fruit'}")
  = Some (VObj [(lit "title", VStr (lit "Fruit"))])
  /\ requests (snd (processContent (text "{'title':'Fruit'}") w0))
     = [list_prompt (text "{'title':'Fruit'}")].
Proof. split; vm_compute; reflexivity. Qed.

Lemma object_without_cards_fruit :
  processJsonContent (text "{'title':'Fruit'}") w0
  = (inr false,
     mkWorld (app w0) (Some invalid_format_error) (isLoading w0) (inputValue w0)
       (requests w0) (delivered w0) (shown w0 ++ [invalid_format_error]) (clock w0))
  /\ requests (snd (processContent (text "{'title':'Fruit'}") w0))
     = requests w0 ++ [list_prompt (text "{'title':'Fruit'}")].
Proof.
  apply (@object_without_cards host (text "{'title':'Fruit'}")
           [(lit "title", VStr (lit "Fruit"))] w0).
  - vm_compute. reflexivity.
  - intros items. vm_compute. discriminate.
Defined.

(** C3, as the specification states it, fails: a deck whose card has no
    field at all is accepted. *)
Lemma hollow_deck_accepted :
  isValidDeck hollow_deck = true /\ spec_deck_shape hollow_deck = false.
Proof. split; vm_compute; reflexivity. Qed.

Lemma legacy_card_duplicated :
  exists c' w' exs',
    import_card (VObj legacy_card) 0 w0 = (inr c', w')
    /\ prop c' "examples" = inr (VArr exs')
    /\ Forall2 (fun ex ex' =>
                  forall t, legacy_example ex t ->
                    prop ex' "simplified" = inr (VStr t)
                    /\ prop ex' "traditional" = inr (VStr t))
         [VObj [(lit "chinese", VStr [20320; 22909; 21527]%N);
                (lit "english", VStr (lit "How are you?"))]]
         exs'.
Proof.
  apply (@legacy_examples_duplicated host legacy_card _ 0%nat w0).
  - reflexivity.
  - repeat constructor. exists [20320; 22909; 21527]%N. eexists.
    split; [reflexivity|]. repeat split; reflexivity.
Defined.

Lemma second_card_full_cycle :
  currentCardIndex (Nat.iter 2 handleNext on_second_card)
  = currentCardIndex on_second_card
  /\ currentCardIndex (Nat.iter 2 handlePrev on_second_card)
     = currentCardIndex on_second_card.
Proof.
  apply (@next_prev_full_cycle host on_second_card (deck_value fruit_deck)
           (map card_value (deck_cards fruit_deck)) 1%Z).
  - reflexivity.
  - reflexivity.
  - discriminate.
  - reflexivity.
  - cbn. lia.
Defined.

Lemma second_card_flips :
  isFlipped (handleFlip (handleFlip on_second_card)) = isFlipped on_second_card
  /\ isFlipped (handleNext on_second_card) = false
  /\ isFlipped (handlePrev on_second_card) = false.
Proof.
  apply (@flip_involutive_nav_unflips host on_second_card).
  left. discriminate.
Defined.

(** C8, as the specification states it, fails in [parseResponse]: the id a
    card of the response carries is replaced. *)
Lemma response_id_replaced :
  JSON_parse response_with_id
  = Some (VObj [(lit "title", VStr (lit "t"));
                (lit "cards",
                 VArr [VObj [(lit "id", VStr (lit "keep"));
                             (lit "simplified", VStr (lit "a"))]])])
  /\ fst (parseResponse (Some response_with_id) w0)
     = inr (VObj [(lit "title", VStr (lit "t"));
                  (lit "cards",
                   VArr [VObj [(lit "id", VStr (lit "card-1700000000000-0"));
                               (lit "simplified", VStr (lit "a"))]])]).
Proof. split; vm_compute; reflexivity. Qed.

Lemma blank_text_fails :
  JSON_parse [32; 9; 10; 12288]%N = None
  /\ processContent [32; 9; 10; 12288]%N w_typed
     = (inr false,
        mkWorld (app w_typed) (Some processContent_error) (isLoading w_typed)
          (inputValue w_typed) (requests w_typed) (delivered w_typed)
          (shown w_typed ++ [processContent_error]) (clock w_typed)).
Proof.
  apply (@blank_content_fails_without_request host [32; 9; 10; 12288]%N w_typed).
  reflexivity.
Defined.

(** ** Runs of the importer *)

(** An array of words goes to the generation service as a list, one word a
    line, and the deck of the answer is delivered. *)
Example word_array_is_generated :
  @processContent Online.host Online.two_words Online.w0
  = (inr true,
     mkWorld (handleDeckGenerated Online.greetings initial_app) None false []
       [list_prompt ([20320; 22909] ++ nl ++ [35874; 35874])%N]
       [Online.greetings] [] 2).
Proof. vm_compute. reflexivity. Qed.

(** Text that is not JSON goes to the generation service as it is. *)
Example plain_text_is_generated :
  @processContent Online.host (lit "ping guo: wo ai chi ping guo") Online.w0
  = (inr true,
     mkWorld (handleDeckGenerated Online.greetings initial_app) None false []
       [list_prompt (lit "ping guo: wo ai chi ping guo")]
       [Online.greetings] [] 2).
Proof. vm_compute. reflexivity. Qed.

(** So does JSON that is neither a deck nor an array of strings. *)
Example json_number_is_generated :
  @JSON_parse Online.host (lit "42")
  = Some (@VNum Online.host (mkNumlit false (lit "42") None None))
  /\ @requests Online.host (snd (@processContent Online.host (lit "42") Online.w0))
     = [list_prompt (lit "42")].
Proof. split; vm_compute; reflexivity. Qed.

(** A deck file is imported without a request: examples of the older format
    are repaired and the missing id is made. *)
Example legacy_file_is_imported :
  processContent
    (text "{'title':'Old','cards':[{'simplified':'A','examples':[{'chinese':'X','english':'x'}]}]}")
    w0
  = (inr true,
     deliver
       (VObj [(lit "title", VStr (lit "Old"));
              (lit "cards",
               VArr [VObj [(lit "simplified", VStr (lit "A"));
                           (lit "examples",
                            VArr [VObj [(lit "simplified", VStr (lit "X"));
                                        (lit "traditional", VStr (lit "X"));
                                        (lit "pinyin", VUndefined);
                                        (lit "english", VStr (lit "x"))]]);
                           (lit "id", VStr (lit "imported-1700000000000-0"))]])])
       (mkWorld initial_app None false [] [] [] [] 1)).
Proof. vm_compute. reflexivity. Qed.

(** A card that is [null] makes the import fail. *)
Example null_card_fails :
  fst (processContent (text "{'title':'Old','cards':[null]}") w0) = inr false
  /\ delivered (snd (processContent (text "{'title':'Old','cards':[null]}") w0)) = [].
Proof. split; vm_compute; reflexivity. Qed.

(** The file name of an export. *)
Example export_file_name :
  match saveDeck loaded with
  | inr (Some (name, _)) => name = lit "fruit___manners.json"
  | _ => False
  end.
Proof. vm_compute. reflexivity. Qed.

(* ================================================================= *)
(** ** More runs *)

Lemma second_card_there_and_back :
  handlePrev (handleNext on_second_card)
  = mkApp (Some (deck_value fruit_deck)) (Fin 1) false (scriptMode on_second_card)
  /\ handleNext (handlePrev on_second_card)
     = mkApp (Some (deck_value fruit_deck)) (Fin 1) false (scriptMode on_second_card).
Proof.
  apply (@prev_undoes_next host on_second_card (deck_value fruit_deck)
           (map card_value (deck_cards fruit_deck)) 1%Z).
  - reflexivity.
  - reflexivity.
  - reflexivity.
  - cbn. lia.
Defined.

Lemma second_card_is_shown :
  exists (i : nat) (c : value),
    (i < List.length (map card_value (deck_cards fruit_deck)))%nat
    /\ currentCardIndex on_second_card = Fin (Z.of_nat i)
    /\ nth_error (map card_value (deck_cards fruit_deck)) i = Some c
    /\ current_card on_second_card = Some c
    /\ counter on_second_card
       = Some (Fin (Z.of_nat i + 1),
               Fin (Z.of_nat (List.length (map card_value (deck_cards fruit_deck))))).
Proof.
  apply (@reachable_shows_a_card host on_second_card (deck_value fruit_deck)
           (map card_value (deck_cards fruit_deck))).
  - apply reach_flip; [|discriminate].
    apply reach_next, reach_deck, reach_initial.
  - reflexivity.
  - reflexivity.
  - discriminate.
Defined.

Lemma emptied_has_no_card :
  current_card Cases.emptied = Some VUndefined
  /\ (forall flipped m, Flashcard VUndefined flipped m = inl TypeError)
  /\ currentCardIndex (handleNext Cases.emptied) = NaN
  /\ currentCardIndex (handlePrev Cases.emptied) = NaN
  /\ counter (handleNext Cases.emptied) = Some (NaN, Fin 0).
Proof.
  apply (@empty_deck_has_no_card host Cases.emptied Cases.empty_deck).
  - reflexivity.
  - reflexivity.
Defined.

Lemma legacy_example_is_shown :
  exists ex',
    import_example Cases.legacy_example_value 0 w0 = (inr ex', w0)
    /\ forall m, example_line m ex' = inr (VStr [20320; 22909; 21527]%N).
Proof.
  apply (@legacy_example_shown_in_both_scripts host Cases.legacy_example_value
           [20320; 22909; 21527]%N 0%nat w0).
  eexists. split; [reflexivity|]. repeat split; reflexivity.
Defined.

Lemma fruit_file_name_safe :
  exists stem text,
    saveDeck loaded = inr (Some (stem ++ lit ".json", text))
    /\ List.length stem = List.length (lit "Fruit & Manners")
    /\ Forall (fun c => (48 <= c <= 57) \/ (97 <= c <= 122) \/ c = 95)%N stem
    /\ map file_stem_unit stem = stem
    /\ (Forall (fun c => (48 <= c <= 57) \/ (97 <= c <= 122) \/ c = 95)%N
          (lit "Fruit & Manners") ->
        stem = lit "Fruit & Manners").
Proof.
  apply (@export_file_name_safe host loaded (deck_value fruit_deck)
           (lit "Fruit & Manners")).
  - reflexivity.
  - reflexivity.
Defined.

Lemma response_cards_are_kept :
  exists title cards,
    prop Cases.response_with_id_json "title" = inr title
    /\ parseResponse (Some response_with_id) w0
       = (inr (VObj [(lit "title", title); (lit "cards", VArr cards)]),
          mkWorld (app w0) (error w0) (isLoading w0) (inputValue w0) (requests w0)
            (delivered w0) (shown w0) (clock w0 + 1))
    /\ List.length cards = 1%nat
    /\ forall k c,
         nth_error [VObj [(lit "id", VStr (lit "keep"));
                          (lit "simplified", VStr (lit "a"))]] k = Some c ->
         nth_error cards k
         = Some (VObj (define (lit "id")
                         (VStr (fresh_id "card-" (Date_now (clock w0 + k)) k))
                         (spread c))).
Proof.
  apply (@parseResponse_keeps_cards host response_with_id
           Cases.response_with_id_json
           [VObj [(lit "id", VStr (lit "keep")); (lit "simplified", VStr (lit "a"))]]
           w0).
  - intros H. vm_compute in H. discriminate H.
  - vm_compute. reflexivity.
  - reflexivity.
Defined.

Lemma legacy_file_is_importable :
  requests (snd (processContent Cases.legacy_file w0)) = requests w0
  /\ (fst (processContent Cases.legacy_file w0) = inr true
      <-> forallb card_importable
            [VObj [(lit "simplified", VStr (lit "A"));
                   (lit "examples",
                    VArr [VObj [(lit "chinese", VStr (lit "X"));
                                (lit "english", VStr (lit "x"))]])]] = true)
  /\ (forallb card_importable
        [VObj [(lit "simplified", VStr (lit "A"));
               (lit "examples",
                VArr [VObj [(lit "chinese", VStr (lit "X"));
                            (lit "english", VStr (lit "x"))]])]] = false ->
      fst (processContent Cases.legacy_file w0) = inr false
      /\ shown (snd (processContent Cases.legacy_file w0))
         = shown w0 ++ [processContent_error]
      /\ delivered (snd (processContent Cases.legacy_file w0)) = delivered w0
      /\ app (snd (processContent Cases.legacy_file w0)) = app w0).
Proof.
  apply (@deck_file_imports_iff host Cases.legacy_file Cases.legacy_file_json _ w0).
  - vm_compute. reflexivity.
  - vm_compute. reflexivity.
  - reflexivity.
Defined.

Lemma annotated_file_keeps_its_fields :
  exists ps cards,
    Cases.annotated_file_json = VObj ps
    /\ deck (app (snd (processContent Cases.annotated_file w0)))
       = Some (VObj (define (lit "cards") (VArr cards) ps))
    /\ (forall key, key <> lit "cards" ->
        lookup key (define (lit "cards") (VArr cards) ps) = lookup key ps)
    /\ List.length cards = 1%nat
    /\ forall k c,
         nth_error [VObj [(lit "simplified", VStr (lit "A"));
                          (lit "note", VStr (lit "n"))]] k = Some c ->
         exists ps' exs' idv,
           nth_error cards k = Some (VObj ps')
           /\ lookup (lit "examples") ps' = Some (VArr exs')
           /\ lookup (lit "id") ps' = Some idv /\ truthy idv = true
           /\ forall key, key <> lit "id" -> key <> lit "examples" ->
                lookup key ps' = lookup key (spread c).
Proof.
  apply (@import_keeps_other_fields host Cases.annotated_file
           Cases.annotated_file_json
           [VObj [(lit "simplified", VStr (lit "A")); (lit "note", VStr (lit "n"))]]
           w0 (snd (processContent Cases.annotated_file w0))).
  - vm_compute. reflexivity.
  - vm_compute. reflexivity.
  - reflexivity.
  - vm_compute. reflexivity.
Defined.

Lemma two_words_go_to_generation :
  requests (snd (processContent Online.two_words w0))
  = requests w0 ++ [list_prompt (join nl [[20320; 22909]; [35874; 35874]]%N)]
  /\ requests (snd (processJsonContent Online.two_words w0))
     = requests w0 ++ [list_prompt (join nl [[20320; 22909]; [35874; 35874]]%N)]
  /\ (forall d w1,
        generateDeckFromList (join nl [[20320; 22909]; [35874; 35874]]%N) w0
        = (inr d, w1) ->
        processContent Online.two_words w0 = (inr true, deliver d w1)
        /\ processJsonContent Online.two_words w0 = (inr true, deliver d w1))
  /\ (forall e w1,
        generateDeckFromList (join nl [[20320; 22909]; [35874; 35874]]%N) w0
        = (inl e, w1) ->
        processContent Online.two_words w0
        = (inr false, failed processContent_error w1)
        /\ processJsonContent Online.two_words w0
           = (inr false, failed "Failed to parse JSON content." w1)).
Proof.
  apply (@word_list_goes_to_generation host Online.two_words
           [VStr [20320; 22909]%N; VStr [35874; 35874]%N]
           [[20320; 22909]; [35874; 35874]]%N w0).
  - vm_compute. reflexivity.
  - reflexivity.
Defined.

Lemma plain_text_goes_as_text :
  requests (snd (processContent (lit "ping guo") w0))
  = requests w0 ++ [list_prompt (lit "ping guo")]
  /\ (forall d w1,
        generateDeckFromList (lit "ping guo") w0 = (inr d, w1) ->
        processContent (lit "ping guo") w0 = (inr true, deliver d w1))
  /\ (forall e w1,
        generateDeckFromList (lit "ping guo") w0 = (inl e, w1) ->
        processContent (lit "ping guo") w0
        = (inr false, failed processContent_error w1)).
Proof.
  apply (@other_content_goes_as_text host (lit "ping guo") w0).
  - vm_compute. reflexivity.
  - intros json H. vm_compute in H. discriminate H.
Defined.

Lemma drive_link_gives_its_id :
  (occurs (lit "/d/") (Cases.drive_link_prefix ++ lit "/d") = false ->
   drive_file_id (Cases.drive_link_prefix ++ lit "/d/" ++ Cases.drive_link_id
                  ++ Cases.drive_link_rest)
   = Some Cases.drive_link_id)
  /\ (match_id_after (lit "/d/")
        (Cases.drive_link_prefix ++ lit "id=" ++ Cases.drive_link_id
         ++ Cases.drive_link_rest) = None ->
      occurs (lit "id=") (Cases.drive_link_prefix ++ lit "id") = false ->
      drive_file_id (Cases.drive_link_prefix ++ lit "id=" ++ Cases.drive_link_id
                     ++ Cases.drive_link_rest)
      = Some Cases.drive_link_id).
Proof.
  apply (@drive_file_id_of_link Cases.drive_link_prefix Cases.drive_link_id
           Cases.drive_link_rest).
  - intros H. vm_compute in H. discriminate H.
  - vm_compute. reflexivity.
  - vm_compute. reflexivity.
Defined.

Lemma fruit_deck_reimports :
  exists name exported,
    saveDeck (app (snd (processContent Cases.fruit_file w0)))
    = inr (Some (name, exported))
    /\ processContent exported w_typed
       = (inr true, deliver (deck_value fruit_deck) w_typed).
Proof.
  apply (@ingested_deck_reimports host Cases.fruit_file w0
           (snd (processContent Cases.fruit_file w0)) w_typed fruit_deck).
  - vm_compute. reflexivity.
  - vm_compute. reflexivity.
Defined.

Lemma fruit_file_starts_at_first_card :
  exists d,
    delivered (snd (run (ImportContent Cases.fruit_file) w_typed))
    = delivered w_typed ++ [d]
    /\ has_cards d
    /\ deck (app (snd (run (ImportContent Cases.fruit_file) w_typed))) = Some d
    /\ currentCardIndex (app (snd (run (ImportContent Cases.fruit_file) w_typed)))
       = Fin 0
    /\ isFlipped (app (snd (run (ImportContent Cases.fruit_file) w_typed))) = false
    /\ scriptMode (app (snd (run (ImportContent Cases.fruit_file) w_typed)))
       = scriptMode (app w_typed)
    /\ shown (snd (run (ImportContent Cases.fruit_file) w_typed)) = shown w_typed.
Proof.
  apply (@delivery_starts_at_first_card host (ImportContent Cases.fruit_file) w_typed).
  intros H. vm_compute in H. discriminate H.
Defined.

Lemma response_card_does_not_render :
  exists d cards c',
    fst (parseResponse (Some response_with_id) w0) = inr d
    /\ prop d "cards" = inr (VArr cards)
    /\ nth_error cards 0 = Some c'
    /\ forall flipped m, Flashcard c' flipped m = inl TypeError.
Proof.
  apply (@generated_card_needs_examples host response_with_id
           Cases.response_with_id_json
           [VObj [(lit "id", VStr (lit "keep")); (lit "simplified", VStr (lit "a"))]]
           w0 0%nat
           (VObj [(lit "id", VStr (lit "keep")); (lit "simplified", VStr (lit "a"))])).
  - intros H. vm_compute in H. discriminate H.
  - vm_compute. reflexivity.
  - reflexivity.
  - reflexivity.
  - intros exs H. vm_compute in H. discriminate H.
Defined.

Lemma fruit_export_read_by_json_importer :
  exists name text,
    saveDeck loaded = inr (Some (name, text))
    /\ processJsonContent text w0 = (inr true, deliver (deck_json fruit_deck) w0)
    /\ deck_json fruit_deck = clean (deck_value fruit_deck).
Proof.
  apply (@json_importer_reads_its_export host fruit_deck loaded w0).
  - reflexivity.
  - repeat constructor; discriminate.
Defined.

Lemma second_card_after_five_presses :
  currentCardIndex (Nat.iter 5 handleNext on_second_card)
  = Fin ((1 + Z.of_nat 5)
         mod Z.of_nat (List.length (map card_value (deck_cards fruit_deck))))
  /\ currentCardIndex (Nat.iter 5 handlePrev on_second_card)
     = Fin ((1 - Z.of_nat 5)
            mod Z.of_nat (List.length (map card_value (deck_cards fruit_deck))))
  /\ currentCardIndex (Nat.iter 5 handlePrev (Nat.iter 5 handleNext on_second_card))
     = Fin 1.
Proof.
  apply (@position_after_presses host 5%nat on_second_card (deck_value fruit_deck)
           (map card_value (deck_cards fruit_deck)) 1%Z).
  - reflexivity.
  - reflexivity.
  - reflexivity.
  - cbn. lia.
Defined.

Lemma untitled_response_cannot_be_saved :
  exists d w',
    parseResponse (Some Cases.untitled_response) w0 = (inr d, w')
    /\ deck (handleDeckGenerated d initial_app) = Some d
    /\ saveDeck (handleDeckGenerated d initial_app) = inl TypeError.
Proof.
  apply (@untitled_generation_cannot_be_saved host Cases.untitled_response
           (VObj [(lit "cards", VArr [])]) [] w0 initial_app).
  - intros H. vm_compute in H. discriminate H.
  - vm_compute. reflexivity.
  - reflexivity.
  - intros x H. vm_compute in H. discriminate H.
Defined.

Lemma legacy_file_can_be_saved :
  exists name text,
    saveDeck (app (snd (processContent Cases.legacy_file w0)))
    = inr (Some (name, text)).
Proof.
  apply (@imported_deck_can_be_saved host Cases.legacy_file Cases.legacy_file_json
           w0 (snd (processContent Cases.legacy_file w0))).
  - vm_compute. reflexivity.
  - vm_compute. reflexivity.
  - vm_compute. reflexivity.
Defined.

(** ** More runs: the file of a deck, failures, timers, the card on the page *)

(** A deck the generation delivered (its ids come last in its cards) and a
    deck imported from a file with an order of its own both come back from
    their files. *)
Lemma held_decks_come_back :
  (exists text v',
     @saveDeck Online.host (handleDeckGenerated Online.greetings initial_app)
     = inr (Some (map file_stem_unit (lit "Greetings") ++ lit ".json", text))
     /\ @processContent Online.host text Online.w0 = (inr true, deliver v' Online.w0)
     /\ deck_of v' = Some Online.greetings_deck)
  /\ (exists text v',
        saveDeck (app (snd (run (ImportContent Cases.mixed_file) w0)))
        = inr (Some (map file_stem_unit (lit "Mixed") ++ lit ".json", text))
        /\ processContent text w0 = (inr true, deliver v' w0)
        /\ deck_of v' = Some Cases.mixed_deck).
Proof.
  split.
  - apply (@held_deck_round_trip Online.host ManualSubmit Online.w_form Online.w0
             (handleDeckGenerated Online.greetings initial_app)
             Online.greetings Online.greetings_deck).
    + vm_compute. reflexivity.
    + reflexivity.
    + vm_compute. reflexivity.
  - apply (@held_deck_round_trip host (ImportContent Cases.mixed_file) w0 w0
             (app (snd (run (ImportContent Cases.mixed_file) w0)))
             (VObj [(lit "cards",
                     VArr [VObj [(lit "english", VStr (lit "x"));
                                 (lit "simplified", VStr (lit "A"));
                                 (lit "examples",
                                  VArr [VObj [(lit "simplified", VStr (lit "s"));
                                              (lit "traditional", VStr (lit "t"));
                                              (lit "pinyin", VUndefined);
                                              (lit "english", VStr (lit "e"))]]);
                                 (lit "pinyin", VStr (lit "a"));
                                 (lit "id", VStr (lit "k1"));
                                 (lit "traditional", VStr (lit "B"))]]);
                    (lit "title", VStr (lit "Mixed"))])
             Cases.mixed_deck).
    + vm_compute. reflexivity.
    + vm_compute. reflexivity.
    + vm_compute. reflexivity.
Defined.

(** The generation is rejected: the form shows its message, and the session
    is what it was. *)
Lemma rejected_generation_keeps_session :
  failure ManualSubmit Cases.w_form = Some Generation
  /\ (exists msg,
        shown (snd (run ManualSubmit Cases.w_form)) = shown Cases.w_form ++ [msg]
        /\ error (snd (run ManualSubmit Cases.w_form)) = Some msg)
  /\ delivered (snd (run ManualSubmit Cases.w_form)) = delivered Cases.w_form
  /\ app (snd (run ManualSubmit Cases.w_form)) = app Cases.w_form
  /\ deck (app (snd (run ManualSubmit Cases.w_form))) = deck (app Cases.w_form)
  /\ currentCardIndex (app (snd (run ManualSubmit Cases.w_form)))
     = currentCardIndex (app Cases.w_form)
  /\ isFlipped (app (snd (run ManualSubmit Cases.w_form)))
     = isFlipped (app Cases.w_form).
Proof.
  split; [vm_compute; reflexivity|].
  apply (@failed_ingestion_keeps_session host ManualSubmit Cases.w_form Generation).
  vm_compute. reflexivity.
Defined.

(** The four failures, and an action that meets none. *)
Example failures_met :
  failure ManualSubmit Cases.w_form = Some Generation
  /\ failure UrlSubmit Cases.w_form = Some Fetch
  /\ failure (FileUpload (Some None)) w0 = Some FileRead
  /\ failure (DriveFile (lit "id") (lit "token")) w0 = Some Fetch
  /\ failure (ImportContent [32; 9; 10]%N) w0 = Some Classification
  /\ failure (ImportContent (text "{'title':'t','cards':[null]}")) w0
     = Some Classification
  /\ failure (ImportContent (text "['a']")) w0 = Some Generation
  /\ failure (ImportContent Cases.legacy_file) w0 = None
  /\ @failure Online.host ManualSubmit Online.w_form = None.
Proof. vm_compute. repeat split. Qed.

(** Back at the deck, on its second card. *)
Lemma second_card_after_reset :
  exists (i : nat) (c : value),
    (i < List.length (map card_value (deck_cards fruit_deck)))%nat
    /\ currentCardIndex (current (session_after Cases.back_at_the_deck))
       = Fin (Z.of_nat i)
    /\ nth_error (map card_value (deck_cards fruit_deck)) i = Some c
    /\ current_card (current (session_after Cases.back_at_the_deck)) = Some c
    /\ counter (current (session_after Cases.back_at_the_deck))
       = Some (Fin (Z.of_nat i + 1),
               Fin (Z.of_nat (List.length (map card_value (deck_cards fruit_deck))))).
Proof.
  apply (@session_shows_a_card host Cases.back_at_the_deck (deck_value fruit_deck)
           (map card_value (deck_cards fruit_deck))).
  - vm_compute. reflexivity.
  - vm_compute. reflexivity.
  - reflexivity.
  - discriminate.
Defined.

(** A deck delivered while a timer is pending: the timer moves the index by
    the length of the deck it was set for, past the end of the new deck. *)
Example stale_timer_leaves_the_deck :
  loads_settled initial_session Cases.hasty = false
  /\ currentCardIndex (current (session_after Cases.hasty)) = Fin 1
  /\ current_card (current (session_after Cases.hasty)) = Some VUndefined
  /\ counter (current (session_after Cases.hasty)) = Some (Fin 2, Fin 1).
Proof. vm_compute. repeat split. Qed.


(** The card of the older format has no traditional character: it is shown
    in the simplified script, and flipping it in the traditional script
    makes the stroke order player throw. *)
Example legacy_card_flipped :
  prop (VObj (define (lit "cards") (VArr [Cases.legacy_imported_card])
                (spread Cases.legacy_file_json))) "cards"
  = inr (VArr [Cases.legacy_imported_card])
  /\ deck (app (snd (processContent Cases.legacy_file w0)))
     = Some (VObj (define (lit "cards") (VArr [Cases.legacy_imported_card])
                     (spread Cases.legacy_file_json)))
  /\ card_showable Cases.legacy_imported_card = false
  /\ show_card true Cases.legacy_imported_card true Traditional = Thrown TypeError
  /\ (exists v,
        show_card true Cases.legacy_imported_card true Simplified
        = Displayed v [lit "A"])
  /\ (exists v,
        show_card true Cases.legacy_imported_card false Traditional
        = Displayed v [])
  /\ show_card true
       (VObj [(lit "simplified", VStr (lit "A")); (lit "traditional", VStr (lit "B"));
              (lit "pinyin", VObj []); (lit "examples", VArr [])])
       false Simplified
     = Refused.
Proof. vm_compute. repeat split; eexists; reflexivity. Qed.
